(** * pop finders: record finding, pagination and association resolution

    A shallow embedding of [finders.go] and
    [associations/has_one_association.go].  Go values are modelled as the
    code has them: [string] is a byte sequence, [int] is a 64-bit signed
    integer carried in [Z] with its wrap-around written out, pointers to
    shared objects ([*Connection], [*Paginator]) are locations in a store,
    and a run-time panic is an outcome of its own. *)

From Stdlib Require Import ZArith String Ascii List Bool Lia.
From stdpp Require Import gmap strings.
Import ListNotations.

Set Default Goal Selector "!".
Local Open Scope Z_scope.

(** * Go strings, integers and library functions *)

Module GoString.

(** [len(s)] in bytes. *)
Definition len (s : string) : Z := Z.of_nat (String.length s).

(** [s[0]], where it exists. *)
Definition head (s : string) : option ascii :=
  match s with
  | EmptyString => None
  | String c _ => Some c
  end.

(** [s[0:n]] for [0 <= n <= len s]. *)
Definition slice_to (n : Z) (s : string) : string :=
  String.substring 0 (Z.to_nat n) s.

End GoString.

(** Go [int]: 64-bit two's complement. *)
Module GoInt.

Definition min_int : Z := - 2 ^ 63.
Definition max_int : Z := 2 ^ 63 - 1.

Definition in_range (z : Z) : Prop := min_int <= z <= max_int.

(** Reduction of a mathematical integer to its 64-bit representative. *)
Definition wrap (z : Z) : Z := (z + 2 ^ 63) mod 2 ^ 64 - 2 ^ 63.

Definition add (a b : Z) : Z := wrap (a + b).

(** [a / b]: truncated quotient; [None] is the run-time panic
    "integer divide by zero". *)
Definition quo (a b : Z) : option Z :=
  if b =? 0 then None else Some (wrap (Z.quot a b)).

(** [a % b]: remainder with the sign of the dividend. *)
Definition rem (a b : Z) : option Z :=
  if b =? 0 then None else Some (Z.rem a b).

End GoInt.

(** The parts of Go's [strings] package the finders use. *)
Module strings.

Definition byte_in (lo hi : nat) (c : ascii) : bool :=
  (lo <=? nat_of_ascii c)%nat && (nat_of_ascii c <=? hi)%nat.

Definition byte_is (n : nat) (c : ascii) : bool :=
  (nat_of_ascii c =? n)%nat.

(** The ASCII members of [unicode.IsSpace]: tab, line feed, vertical
    tab, form feed, carriage return, space. *)
Definition asciiSpace (c : ascii) : bool :=
  byte_in 9 13 c || byte_is 32 c.

(** Two-byte UTF-8 encodings of white space: U+0085 and U+00A0. *)
Definition space2 (a b : ascii) : bool :=
  byte_is 194 a && (byte_is 133 b || byte_is 160 b).

(** Three-byte UTF-8 encodings of white space: U+1680, U+2000..U+200A,
    U+2028, U+2029, U+202F, U+205F and U+3000. *)
Definition space3 (a b c : ascii) : bool :=
  (byte_is 225 a && byte_is 154 b && byte_is 128 c)
  || (byte_is 226 a && byte_is 128 b
      && (byte_in 128 138 c || byte_is 168 c || byte_is 169 c
          || byte_is 175 c))
  || (byte_is 226 a && byte_is 129 b && byte_is 159 c)
  || (byte_is 227 a && byte_is 128 b && byte_is 128 c).

(** [strings.TrimLeftFunc(s, unicode.IsSpace)]: drops white-space runes
    from the front, decoding UTF-8 as it goes. *)
Fixpoint TrimLeft (s : string) : string :=
  match s with
  | EmptyString => EmptyString
  | String a s1 =>
      if asciiSpace a then TrimLeft s1
      else
        match s1 with
        | EmptyString => s
        | String b s2 =>
            if space2 a b then TrimLeft s2
            else
              match s2 with
              | EmptyString => s
              | String c s3 => if space3 a b c then TrimLeft s3 else s
              end
        end
  end.

(** The same scan over the reversed string, for the trailing side: the
    bytes of a rune arrive last byte first. *)
Fixpoint TrimLeftRev (s : string) : string :=
  match s with
  | EmptyString => EmptyString
  | String a s1 =>
      if asciiSpace a then TrimLeftRev s1
      else
        match s1 with
        | EmptyString => s
        | String b s2 =>
            if space2 b a then TrimLeftRev s2
            else
              match s2 with
              | EmptyString => s
              | String c s3 => if space3 c b a then TrimLeftRev s3 else s
              end
        end
  end.

Definition TrimRight (s : string) : string :=
  String.rev (TrimLeftRev (String.rev s)).

(** [strings.TrimSpace]. *)
Definition TrimSpace (s : string) : string := TrimRight (TrimLeft s).

(** [strings.ToLower] restricted to ASCII input, where it maps the
    bytes 'A'..'Z' to 'a'..'z' and keeps every other byte. *)
Definition lower_byte (c : ascii) : ascii :=
  if byte_in 65 90 c then ascii_of_nat (nat_of_ascii c + 32) else c.

Fixpoint asciiToLower (s : string) : string :=
  match s with
  | EmptyString => EmptyString
  | String c s' => String (lower_byte c) (asciiToLower s')
  end.

End strings.

Module strconv.

Definition digit (c : ascii) : option Z :=
  if strings.byte_in 48 57 c then Some (Z.of_nat (nat_of_ascii c) - 48)
  else None.

(** Value of a run of decimal digits, most significant first; [None] on
    any other byte. *)
Fixpoint digits (acc : Z) (s : string) : option Z :=
  match s with
  | EmptyString => Some acc
  | String c s' =>
      match digit c with
      | Some d => digits (acc * 10 + d) s'
      | None => None
      end
  end.

(** [strconv.Atoi] for 64-bit [int]: an optional sign, then one or more
    decimal digits, and a value that fits; [None] stands for either
    error ([ErrSyntax], [ErrRange]). *)
Definition Atoi (s : string) : option Z :=
  let '(neg, body) :=
    match s with
    | String c s' =>
        if strings.byte_is 45 c then (true, s')
        else if strings.byte_is 43 c then (false, s')
        else (false, s)
    | EmptyString => (false, s)
    end in
  match body with
  | EmptyString => None
  | _ =>
      match digits 0 body with
      | Some n =>
          let v := if neg then - n else n in
          if (GoInt.min_int <=? v) && (v <=? GoInt.max_int) then Some v
          else None
      | None => None
      end
  end.

End strconv.

(** Regular expressions, as far as [regexp.MustCompile] is used here. *)
Module regexp.

(** Expressions over bytes.  A multi-byte rune in a pattern is the
    sequence of its UTF-8 bytes. *)
Inductive re : Type :=
| Void
| Eps
| Class (p : ascii -> bool)
| Seq (r1 r2 : re)
| Alt (r1 r2 : re)
| Star (r : re).

Definition Plus (r : re) : re := Seq r (Star r).
Definition Byte (c : ascii) : re := Class (Ascii.eqb c).

Fixpoint nullable (r : re) : bool :=
  match r with
  | Void => false
  | Eps => true
  | Class _ => false
  | Seq r1 r2 => nullable r1 && nullable r2
  | Alt r1 r2 => nullable r1 || nullable r2
  | Star _ => true
  end.

(** Brzozowski derivative by one byte. *)
Fixpoint deriv (c : ascii) (r : re) : re :=
  match r with
  | Void => Void
  | Eps => Void
  | Class p => if p c then Eps else Void
  | Seq r1 r2 =>
      if nullable r1 then Alt (Seq (deriv c r1) r2) (deriv c r2)
      else Seq (deriv c r1) r2
  | Alt r1 r2 => Alt (deriv c r1) (deriv c r2)
  | Star r1 => Seq (deriv c r1) (Star r1)
  end.

(** Does [r] match the whole of [s]? *)
Fixpoint matches (r : re) (s : string) : bool :=
  match s with
  | EmptyString => nullable r
  | String c s' => matches (deriv c r) s'
  end.

(** The language of an expression. *)
Inductive Lang : re -> string -> Prop :=
| LEps : Lang Eps ""
| LClass p c : p c = true -> Lang (Class p) (String c "")
| LSeq r1 r2 s1 s2 : Lang r1 s1 -> Lang r2 s2 -> Lang (Seq r1 r2) (s1 +:+ s2)
| LAltL r1 r2 s : Lang r1 s -> Lang (Alt r1 r2) s
| LAltR r1 r2 s : Lang r2 s -> Lang (Alt r1 r2) s
| LStarNil r : Lang (Star r) ""
| LStarApp r s1 s2 :
    Lang r s1 -> Lang (Star r) s2 -> Lang (Star r) (s1 +:+ s2).

(** A compiled pattern of the shape [(?i)(e)$]: [e] has the case folding
    already applied, and the trailing [$] (no multi-line flag) ties the
    end of a match to the end of the text. *)
Record Regexp : Type := MustCompile { expr : re }.

(** Leftmost position from which the pattern matches through the end of
    the text, as the text that starts there.  Match positions of the
    patterns below are rune boundaries: they begin with an ASCII letter. *)
Fixpoint find (r : re) (s : string) : option string :=
  if matches r s then Some s
  else
    match s with
    | EmptyString => None
    | String _ s' => find r s'
    end.

Definition MatchString (rx : Regexp) (s : string) : bool :=
  match find (expr rx) s with Some _ => true | None => false end.

(** The text of the leftmost match, [""] when there is none. *)
Definition FindString (rx : Regexp) (s : string) : string :=
  match find (expr rx) s with Some m => m | None => "" end.

Definition is_lower (c : ascii) : bool := strings.byte_in 97 122 c.

Definition upper_byte (c : ascii) : ascii :=
  if is_lower c then ascii_of_nat (nat_of_ascii c - 32) else c.

(** The two bytes of U+017F (long s) and the three of U+212A (Kelvin
    sign). *)
Definition long_s : string :=
  String (ascii_of_nat 197) (String (ascii_of_nat 191) "").
Definition kelvin : string :=
  String (ascii_of_nat 226)
    (String (ascii_of_nat 132) (String (ascii_of_nat 170) "")).

Fixpoint lit (s : string) : re :=
  match s with
  | EmptyString => Eps
  | String c s' => Seq (Byte c) (lit s')
  end.

(** A lower-case ASCII pattern byte under [(?i)]: the byte itself, its
    other case, and the further members of its simple-folding orbit, which
    are U+017F for [s] and U+212A for [k]. *)
Definition fold_byte (c : ascii) : re :=
  let both := Class (fun d => Ascii.eqb d c || Ascii.eqb d (upper_byte c)) in
  if strings.byte_is 115 c then Alt both (lit long_s)
  else if strings.byte_is 107 c then Alt both (lit kelvin)
  else both.

(** A lower-case literal under [(?i)]. *)
Fixpoint fold_lit (s : string) : re :=
  match s with
  | EmptyString => Eps
  | String c s' => Seq (fold_byte c) (fold_lit s')
  end.

(** [[0-9]] *)
Definition digit : re := Class (strings.byte_in 48 57).

End regexp.

(** * Data model *)

(** Addresses of the objects that queries share by pointer. *)
Definition loc : Type := positive.

(** Go [error] values.  [ErrWrap] is what [errors.Wrap] builds, and
    [Cause] is [errors.Cause], which walks back to the innermost error. *)
Inductive error : Type :=
| ErrNoRows
| ErrOther (msg : string)
| ErrWrap (cause : error) (msg : string).

Fixpoint Cause (e : error) : error :=
  match e with
  | ErrWrap c _ => Cause c
  | _ => e
  end.

(** [errors.Cause(err) != sql.ErrNoRows] *)
Definition not_ErrNoRows (e : error) : bool :=
  match Cause e with
  | ErrNoRows => false
  | _ => true
  end.

(** [uuid.UUID]: sixteen raw bytes. *)
Inductive UUID : Type := mkUUID (bytes : string).

(** Dynamically typed values ([interface{}]): identifiers given to [Find]
    and arguments bound to a clause. *)
Inductive Value : Type :=
| VInt (n : Z)
| VString (s : string)
| VUUID (u : UUID)
| VOther (repr : string).

Record clause : Type := mkClause { Fragment : string; Arguments : list Value }.
Definition clauses : Type := list clause.

Record Paginator : Type := mkPaginator {
  PerPage : Z;
  TotalEntriesSize : Z;
  CurrentEntriesSize : Z;
  TotalPages : Z
}.

Definition set_TotalEntriesSize (x : Z) (p : Paginator) : Paginator :=
  mkPaginator (PerPage p) x (CurrentEntriesSize p) (TotalPages p).
Definition set_CurrentEntriesSize (x : Z) (p : Paginator) : Paginator :=
  mkPaginator (PerPage p) (TotalEntriesSize p) x (TotalPages p).
Definition set_TotalPages (x : Z) (p : Paginator) : Paginator :=
  mkPaginator (PerPage p) (TotalEntriesSize p) (CurrentEntriesSize p) x.

Module Connection.
Record t : Type := mk { eager : bool }.
End Connection.

Module Query.
Record t : Type := mk {
  RawSQL : clause;
  limitResults : Z;
  addColumns : list string;
  eager : bool;
  eagerFields : list string;
  whereClauses : clauses;
  orderClauses : clauses;
  Paginator : option loc;
  Connection : loc
}.

Definition with_RawSQL (x : clause) (q : t) : t :=
  mk x (limitResults q) (addColumns q) (eager q) (eagerFields q)
     (whereClauses q) (orderClauses q) (Paginator q) (Connection q).
Definition with_limitResults (x : Z) (q : t) : t :=
  mk (RawSQL q) x (addColumns q) (eager q) (eagerFields q)
     (whereClauses q) (orderClauses q) (Paginator q) (Connection q).
Definition with_addColumns (x : list string) (q : t) : t :=
  mk (RawSQL q) (limitResults q) x (eager q) (eagerFields q)
     (whereClauses q) (orderClauses q) (Paginator q) (Connection q).
Definition with_eager (x : bool) (q : t) : t :=
  mk (RawSQL q) (limitResults q) (addColumns q) x (eagerFields q)
     (whereClauses q) (orderClauses q) (Paginator q) (Connection q).
Definition with_eagerFields (x : list string) (q : t) : t :=
  mk (RawSQL q) (limitResults q) (addColumns q) (eager q) x
     (whereClauses q) (orderClauses q) (Paginator q) (Connection q).
Definition with_whereClauses (x : clauses) (q : t) : t :=
  mk (RawSQL q) (limitResults q) (addColumns q) (eager q) (eagerFields q)
     x (orderClauses q) (Paginator q) (Connection q).
Definition with_orderClauses (x : clauses) (q : t) : t :=
  mk (RawSQL q) (limitResults q) (addColumns q) (eager q) (eagerFields q)
     (whereClauses q) x (Paginator q) (Connection q).
Definition with_Paginator (x : option loc) (q : t) : t :=
  mk (RawSQL q) (limitResults q) (addColumns q) (eager q) (eagerFields q)
     (whereClauses q) (orderClauses q) x (Connection q).
End Query.

(** [reflect.Kind], as far as the resolver tells kinds apart. *)
Inductive Kind : Type := Slice | Array | Struct | OtherKind.

Record InnerAssociation : Type := mkInner { Name : string; Fields : string }.

(** What the resolver asks of an [associations.Association]; [M] is the
    type of model values.  [OrderBy] is [Some] for the associations that
    implement [AssociationSortable].  [Interface] is the addressable
    target the association's rows are loaded into, as the SQL
    materializer, the dialect and the resolver read it; what a call of
    [Interface] does to the owner's field (where the field is a pointer,
    the has-one implementation allocates an empty target) is followed in
    the section on the targets of the resolver's fetches. *)
Record Association_ (M : Type) : Type := mkAssociation {
  Skipped : bool;
  AKind : Kind;
  Constraint : string * list Value;
  OrderBy : option string;
  Interface : M;
  InnerAssociations : list InnerAssociation
}.
Arguments mkAssociation {M}.
Arguments Skipped {M}.
Arguments AKind {M}.
Arguments Constraint {M}.
Arguments OrderBy {M}.
Arguments Interface {M}.
Arguments InnerAssociations {M}.

(** The reflective view of a caller-supplied value (a pointer to a slice,
    an array or a struct), with the answers of the association discovery
    service: [ForStruct fields] is [associations.ForStruct(model,
    fields...)], and [FieldByName] is the field the resolver descends
    into for an inner association. *)
#[local] Unset Elimination Schemes.
Inductive Model : Type :=
| MSlice (typ : string) (elems : list Model)
| MStruct (typ : string)
    (ForStruct : list string -> error + list (Association_ Model))
    (FieldByName : string -> Model).
#[local] Set Elimination Schemes.

Definition Association : Type := Association_ Model.

(** Structural induction on models: through the elements of a slice, the
    fields of a struct, and the targets of its associations. *)
Section ModelInduction.
Variable P : Model -> Prop.
Hypothesis HSlice : forall typ elems, Forall P elems -> P (MSlice typ elems).
Hypothesis HStruct :
  forall typ ForStruct FieldByName,
    (forall name, P (FieldByName name)) ->
    (forall fields,
        match ForStruct fields with
        | inl _ => True
        | inr assos => Forall (fun a : Association => P (Interface a)) assos
        end) ->
    P (MStruct typ ForStruct FieldByName).

Fixpoint Model_induction (m : Model) : P m :=
  match m with
  | MSlice typ elems =>
      HSlice typ elems
        ((fix go (l : list Model) : Forall P l :=
            match l with
            | [] => @ListDef.Forall_nil Model P
            | x :: l' =>
                @ListDef.Forall_cons Model P x l' (Model_induction x) (go l')
            end) elems)
  | MStruct typ ForStruct FieldByName =>
      HStruct typ ForStruct FieldByName
        (fun name => Model_induction (FieldByName name))
        (fun fields =>
           match ForStruct fields as s
                 return match s with
                        | inl _ => True
                        | inr assos =>
                            Forall (fun a : Association => P (Interface a)) assos
                        end
           with
           | inl _ => I
           | inr assos =>
               (fix go (l : list Association)
                  : Forall (fun a : Association => P (Interface a)) l :=
                  match l with
                  | [] => @ListDef.Forall_nil Association _
                  | a :: l' =>
                      @ListDef.Forall_cons Association _ a l'
                        (Model_induction (Interface a)) (go l')
                  end) assos
           end)
  end.
End ModelInduction.

(** Calls that leave the engine, in the order they are made, each with the
    query (or the SQL text and arguments) it was given. *)
Inductive Event : Type :=
| EvSelectOne (q : Query.t) (m : Model)
| EvSelectMany (q : Query.t) (m : Model)
| EvGet (sql : string) (args : list Value)
| EvAfterFind (m : Model).

Record World : Type := mkWorld {
  conns : gmap loc Connection.t;
  paginators : gmap loc Paginator;
  trace : list Event
}.

Definition with_conns (x : gmap loc Connection.t) (w : World) : World :=
  mkWorld x (paginators w) (trace w).
Definition with_paginators (x : gmap loc Paginator) (w : World) : World :=
  mkWorld (conns w) x (trace w).
Definition with_trace (x : list Event) (w : World) : World :=
  mkWorld (conns w) (paginators w) x.

(** The collaborators behind the interface boundary: the dialect and the
    store, the SQL materializer, the model wrapper and the UUID printer.
    Each answers as a function of what it is handed. *)
Record Env : Type := mkEnv {
  Dialect_SelectOne : Query.t -> Model -> option error;
  Dialect_SelectMany : Query.t -> Model -> option error;
  Store_GetBool : string -> list Value -> bool * option error;
  Store_GetInt : string -> list Value -> Z * option error;
  ToSQL : Query.t -> Model -> string * list Value;
  afterFind : Model -> option error;
  whereID : Model -> string;
  UUID_String : UUID -> string
}.

(** ** Outcomes: a result with the new world, or a run-time panic *)

Inductive panic : Type :=
| NilDereference
| DivideByZero
| ReflectLen.

(** A panic keeps the world as it was when the panic struck. *)
Inductive Outcome (A : Type) : Type :=
| Ok (a : A) (w : World)
| Panic (p : panic) (w : World).
Arguments Ok {A}.
Arguments Panic {A}.

Definition M (A : Type) : Type := World -> Outcome A.

Definition ret {A : Type} (a : A) : M A := fun w => Ok a w.

Definition bind {A B : Type} (m : M A) (k : A -> M B) : M B :=
  fun w =>
    match m w with
    | Ok a w' => k a w'
    | Panic p w' => Panic p w'
    end.

Definition raise {A : Type} (p : panic) : M A := fun w => Panic p w.

Notation "x <- m ;; k" := (bind m (fun x => k))
  (at level 100, m at next level, right associativity, only parsing).
Notation "m ;;; k" := (bind m (fun _ => k))
  (at level 100, right associativity, only parsing).

Definition world_of {A : Type} (o : Outcome A) : World :=
  match o with
  | Ok _ w => w
  | Panic _ w => w
  end.

(** The result of an outcome, [d] for a panic. *)
Definition result_of {A : Type} (d : A) (o : Outcome A) : A :=
  match o with
  | Ok a _ => a
  | Panic _ _ => d
  end.

(** [*c] for a [*Connection]: a dangling or nil pointer panics. *)
Definition readConn (c : loc) : M Connection.t :=
  fun w =>
    match conns w !! c with
    | Some x => Ok x w
    | None => Panic NilDereference w
    end.

Definition writeConn (c : loc) (x : Connection.t) : M unit :=
  fun w =>
    match conns w !! c with
    | Some _ => Ok tt (with_conns (<[c := x]> (conns w)) w)
    | None => Panic NilDereference w
    end.

Definition readPaginator (p : loc) : M Paginator :=
  fun w =>
    match paginators w !! p with
    | Some x => Ok x w
    | None => Panic NilDereference w
    end.

Definition writePaginator (p : loc) (x : Paginator) : M unit :=
  fun w =>
    match paginators w !! p with
    | Some _ => Ok tt (with_paginators (<[p := x]> (paginators w)) w)
    | None => Panic NilDereference w
    end.

Definition emit (e : Event) : M unit :=
  fun w => Ok tt (with_trace (trace w ++ [e]) w).

(** * The has-one association ([associations/has_one_association.go]) *)

Module associations.

(** The fields [SQLConstraint] reads; [ownedModel] and [ownedType] are
    reflection handles it does not look at. *)
Record hasOneAssociation : Type := mkHasOne {
  ownerID : Value;
  ownerName : string;
  fkID : string
}.

Section SQLConstraint.
(** [strings.ToLower], whose Unicode case tables stay abstract. *)
Variable ToLower : string -> string.

Definition SQLConstraint (h : hasOneAssociation) : string * list Value :=
  let tn := ToLower (ownerName h) in
  let condition := tn +:+ "_id = ?" in
  let condition :=
    if negb (String.eqb (fkID h) "") then fkID h +:+ " = ?"
    else condition in
  (condition, [ownerID h]).
End SQLConstraint.

End associations.

(** * The clause accumulator *)

(** Modelled from the spec: [Q], the constructor of a fresh query on a
    connection, is not part of the sources at hand.  A fresh query has no
    clauses and no paginator, refers to the connection, and starts with
    the connection's eager flag (which is why the resolver clears the
    flag on the connection before it issues sub-queries). *)
Definition Q (c : loc) : M Query.t :=
  conn <- readConn c ;;
  ret (Query.mk (mkClause "" []) 0 [] (Connection.eager conn) [] [] [] None c).

(** Modelled from the spec: [Where] is not part of the sources at hand;
    the accumulator adds the condition and its bound arguments to the
    WHERE clauses. *)
Definition Where (stmt : string) (args : list Value) (q : Query.t) : Query.t :=
  Query.with_whereClauses (Query.whereClauses q ++ [mkClause stmt args]) q.

(** Modelled from the spec: [Order] is not part of the sources at hand;
    the accumulator adds the fragment to the ORDER clauses. *)
Definition Order (stmt : string) (q : Query.t) : Query.t :=
  Query.with_orderClauses (Query.orderClauses q ++ [mkClause stmt []]) q.

(** Modelled from the spec: [Limit] is not part of the sources at hand; it
    sets the LIMIT of the query. *)
Definition Limit (limit : Z) (q : Query.t) : Query.t :=
  Query.with_limitResults limit q.

(** Modelled from the spec: [RawQuery] is not part of the sources at hand;
    it makes the query carry the given SQL text and arguments. *)
Definition RawQuery (stmt : string) (args : list Value) (q : Query.t)
  : Query.t :=
  Query.with_RawSQL (mkClause stmt args) q.

(** Modelled from the spec: [Clone] is not part of the sources at hand.
    [q.Clone(target)] copies the request descriptor of [q] (raw SQL,
    limit, columns, WHERE and ORDER clauses, paginator) into [target] and
    only reads [q]; the result is the new [target]. *)
Definition Clone (q target : Query.t) : Query.t :=
  Query.mk (Query.RawSQL q) (Query.limitResults q) (Query.addColumns q)
    (Query.eager target) (Query.eagerFields target)
    (Query.whereClauses q) (Query.orderClauses q) (Query.Paginator q)
    (Query.Connection target).

(** Modelled from the spec: [disableEager] is not part of the sources at
    hand; it clears the eager flag of the query and of its connection. *)
Definition disableEager (q : Query.t) : M Query.t :=
  writeConn (Query.Connection q) (Connection.mk false) ;;;
  ret (Query.with_eager false q).

(** Modelled from the spec: [timeFunc] is instrumentation that is not part
    of the sources at hand; it runs the callback and hands back its
    error. *)
Definition timeFunc {A : Type} (name : string) (fn : M A) : M A := fn.

(** * Aggregate rewriting *)

(** [(?i)(limit [0-9]+ offset [0-9]+)$] *)
Definition rLimitOffset : regexp.Regexp :=
  regexp.MustCompile
    (regexp.Seq (regexp.fold_lit "limit ")
       (regexp.Seq (regexp.Plus regexp.digit)
          (regexp.Seq (regexp.fold_lit " offset ")
             (regexp.Plus regexp.digit)))).

(** [(?i)(limit [0-9]+)$] *)
Definition rLimit : regexp.Regexp :=
  regexp.MustCompile
    (regexp.Seq (regexp.fold_lit "limit ") (regexp.Plus regexp.digit)).

(** The rewriting [Exists] and [CountByField] both apply to the SQL text
    before they wrap it. *)
Definition stripLimit (query : string) : string :=
  if regexp.MatchString rLimitOffset query then
    let foundLimit := regexp.FindString rLimitOffset query in
    GoString.slice_to (GoString.len query - GoString.len foundLimit) query
  else if regexp.MatchString rLimit query then
    let foundLimit := regexp.FindString rLimit query in
    GoString.slice_to (GoString.len query - GoString.len foundLimit) query
  else query.

(** * The finder engine ([finders.go]) *)

(** A method with a pointer receiver hands back the receiver as the method
    leaves it, next to its Go results; a method with a value receiver
    works on its own copy and hands back the results only.  Tracing spans
    and logging have no effect on what is computed and are left out. *)

Section Finders.
Variable E : Env.

(** [q.Connection.Dialect.SelectOne(q.Connection.Store, m, *q)] *)
Definition SelectOne (q : Query.t) (m : Model) : M (option error) :=
  _ <- readConn (Query.Connection q) ;;
  emit (EvSelectOne q m) ;;;
  ret (Dialect_SelectOne E q m).

(** [q.Connection.Dialect.SelectMany(q.Connection.Store, m, *q)] *)
Definition SelectMany (q : Query.t) (m : Model) : M (option error) :=
  _ <- readConn (Query.Connection q) ;;
  emit (EvSelectMany q m) ;;;
  ret (Dialect_SelectMany E q m).

(** [m.afterFind(ctx, q.Connection)] *)
Definition runAfterFind (m : Model) : M (option error) :=
  emit (EvAfterFind m) ;;;
  ret (afterFind E m).

(** [reflect.ValueOf(models).Elem().Len()] *)
Definition Len (models : Model) : M Z :=
  match models with
  | MSlice _ elems => ret (Z.of_nat (length elems))
  | MStruct _ _ _ => raise ReflectLen
  end.

Definition CountByField (q : Query.t) (model : Model) (field : string)
  : M (Z * option error) :=
  tmpQuery <- Q (Query.Connection q) ;;
  let tmpQuery := Clone q tmpQuery in
  timeFunc "CountByField" (
    let tmpQuery := Query.with_Paginator None tmpQuery in
    let tmpQuery := Query.with_orderClauses [] tmpQuery in
    let tmpQuery := Query.with_limitResults 0 tmpQuery in
    let '(query, args) := ToSQL E tmpQuery model in
    let query := stripLimit query in
    let countQuery :=
      "SELECT COUNT(" +:+ field +:+ ") AS row_count FROM ("
        +:+ query +:+ ") a" in
    _ <- readConn (Query.Connection q) ;;
    emit (EvGet countQuery args) ;;;
    ret (Store_GetInt E countQuery args)).

Definition Count (q : Query.t) (model : Model) : M (Z * option error) :=
  CountByField q model "*".

Definition Exists (q : Query.t) (model : Model)
  : M (Query.t * (bool * option error)) :=
  tmpQuery <- Q (Query.Connection q) ;;
  let tmpQuery := Clone q tmpQuery in
  r <- timeFunc "Exists" (
    let tmpQuery := Query.with_Paginator None tmpQuery in
    let tmpQuery := Query.with_orderClauses [] tmpQuery in
    let tmpQuery := Query.with_limitResults 0 tmpQuery in
    let '(query, args) := ToSQL E tmpQuery model in
    let query := stripLimit query in
    let existsQuery := "SELECT EXISTS (" +:+ query +:+ ")" in
    _ <- readConn (Query.Connection q) ;;
    emit (EvGet existsQuery args) ;;;
    ret (Store_GetBool E existsQuery args)) ;;
  ret (q, r).

(** [q.Paginator.f = ...] through the pointer [p]. *)
Definition assign (p : loc) (f : Paginator -> Paginator) : M unit :=
  pg <- readPaginator p ;;
  writePaginator p (f pg).

(** The quotient or remainder, or the panic of a division by zero. *)
Definition divide (r : option Z) : M Z :=
  match r with
  | Some z => ret z
  | None => raise DivideByZero
  end.

Definition paginateModel (q : Query.t) (models : Model)
  : M (Query.t * option error) :=
  match Query.Paginator q with
  | None => ret (q, None)
  | Some p =>
      r <- Count q models ;;
      let '(ct, err) := r in
      match err with
      | Some e => ret (q, Some e)
      | None =>
          assign p (set_TotalEntriesSize ct) ;;;
          n <- Len models ;;
          assign p (set_CurrentEntriesSize n) ;;;
          pg <- readPaginator p ;;
          tp <- divide (GoInt.quo (TotalEntriesSize pg) (PerPage pg)) ;;
          assign p (set_TotalPages tp) ;;;
          pg <- readPaginator p ;;
          r <- divide (GoInt.rem (TotalEntriesSize pg) (PerPage pg)) ;;
          (if 0 <? r
           then assign p (set_TotalPages (GoInt.add (TotalPages pg) 1))
           else ret tt) ;;;
          ret (q, None)
      end
  end.

(** The functions that [First], [Last] and [All] hand to [timeFunc]: the
    fetch proper, with the post-fetch hook. *)
Definition First_fetch (q : Query.t) (model : Model)
  : M (Query.t * option error) :=
  let q := Limit 1 q in
  err <- SelectOne q model ;;
  match err with
  | Some e => ret (q, Some e)
  | None => err <- runAfterFind model ;; ret (q, err)
  end.

Definition Last_fetch (q : Query.t) (model : Model)
  : M (Query.t * option error) :=
  let q := Limit 1 q in
  let q := Order "created_at DESC, id DESC" q in
  err <- SelectOne q model ;;
  match err with
  | Some e => ret (q, Some e)
  | None => err <- runAfterFind model ;; ret (q, err)
  end.

Definition All_fetch (q : Query.t) (models : Model)
  : M (Query.t * option error) :=
  err <- SelectMany q models ;;
  match err with
  | Some e => ret (q, Some e)
  | None =>
      r <- paginateModel q models ;;
      let '(q, err) := r in
      match err with
      | Some e => ret (q, Some e)
      | None => err <- runAfterFind models ;; ret (q, err)
      end
  end.

(** The three terminal finders, over the association resolution
    [resolve] of the model they are called with, which stands for
    [q.eagerAssociations(ctx, model)]; the knot is tied below. *)
Section Terminal.
Variable resolve : Query.t -> M (Query.t * option error).

(** The common tail: [if q.eager { err = q.eagerAssociations(ctx, model);
    q.disableEager(); return err }; return nil] *)
Definition finish (q : Query.t) : M (Query.t * option error) :=
  if Query.eager q then
    r <- resolve q ;;
    let '(q, err) := r in
    q <- disableEager q ;;
    ret (q, err)
  else ret (q, None).

Definition First_ (q : Query.t) (model : Model)
  : M (Query.t * option error) :=
  r <- timeFunc "First" (First_fetch q model) ;;
  let '(q, err) := r in
  match err with
  | Some e => ret (q, Some e)
  | None => finish q
  end.

Definition Last_ (q : Query.t) (model : Model)
  : M (Query.t * option error) :=
  r <- timeFunc "Last" (Last_fetch q model) ;;
  let '(q, err) := r in
  match err with
  | Some e => ret (q, Some e)
  | None => finish q
  end.

Definition All_ (q : Query.t) (models : Model)
  : M (Query.t * option error) :=
  r <- timeFunc "All" (All_fetch q models) ;;
  let '(q, err) := r in
  match err with
  | Some e => ret (q, Some (ErrWrap e "unable to fetch records"))
  | None => finish q
  end.
End Terminal.

(** [err != nil && errors.Cause(err) != sql.ErrNoRows] *)
Definition fatal (err : option error) : bool :=
  match err with
  | Some e => not_ErrNoRows e
  | None => false
  end.

(** The loops of [eagerAssociations], over the function itself ([self]). *)
Section Resolver.
Variable self : Model -> Query.t -> M (Query.t * option error).

(** The slice and array case: [for i := 0; i < v.Len(); i++]. *)
Fixpoint elements (l : list Model) (q : Query.t)
  : M (Query.t * option error) :=
  match l with
  | [] => ret (q, None)
  | v :: l' =>
      r <- self v q ;;
      let '(q, err) := r in
      match err with
      | Some e => ret (q, Some e)
      | None => elements l' q
      end
  end.

(** The query of one association: a fresh query on the connection, the
    association's constraint and order, then the same statement again as
    raw SQL. *)
Definition subQuery (c : loc) (association : Association) : M Query.t :=
  query <- Q c ;;
  let '(whereCondition, args) := Constraint association in
  let query := Where whereCondition args query in
  let query :=
    match OrderBy association with
    | Some orderClause =>
        if String.eqb orderClause "" then query else Order orderClause query
    | None => query
    end in
  let '(sqlSentence, args) := ToSQL E query (Interface association) in
  ret (RawQuery sqlSentence args query).

(** The two dispatches on [association.Kind()]; [err] is the function's
    error variable as the previous iteration left it. *)
Definition fetch (query : Query.t) (association : Association)
  (err : option error) : M (Query.t * option error) :=
  r <- match AKind association with
       | Slice | Array =>
           All_ (self (Interface association)) query (Interface association)
       | _ => ret (query, err)
       end ;;
  let '(query, err) := r in
  match AKind association with
  | Struct =>
      First_ (self (Interface association)) query (Interface association)
  | _ => ret (query, err)
  end.

(** [for _, inner := range innerAssociations]; the flag tells whether the
    loop left the function with [return err]. *)
Fixpoint inners (FieldByName : string -> Model) (query : Query.t)
  (il : list InnerAssociation) (err : option error)
  : M (bool * option error) :=
  match il with
  | [] => ret (false, err)
  | inner :: il' =>
      let v := FieldByName (Name inner) in
      innerQuery <- Q (Query.Connection query) ;;
      let innerQuery := Query.with_eagerFields [Fields inner] innerQuery in
      r <- self v innerQuery ;;
      let err := snd r in
      match err with
      | Some e => ret (true, Some e)
      | None => inners FieldByName query il' err
      end
  end.

(** [for _, association := range assos]; the result is what the function
    returns. *)
Fixpoint each (FieldByName : string -> Model) (q : Query.t)
  (l : list Association) (err : option error) : M (option error) :=
  match l with
  | [] => ret None
  | association :: l' =>
      if Skipped association then each FieldByName q l' err
      else
        query <- subQuery (Query.Connection q) association ;;
        r <- fetch query association err ;;
        let '(query, err) := r in
        if fatal err then ret err
        else
          r <- inners FieldByName query (InnerAssociations association) err ;;
          let '(returned, err) := r in
          if returned then ret err else each FieldByName q l' err
  end.
End Resolver.

Fixpoint eagerAssociations (model : Model) (q : Query.t) {struct model}
  : M (Query.t * option error) :=
  match model with
  | MSlice _ elems => elements eagerAssociations elems q
  | MStruct _ ForStruct FieldByName =>
      match ForStruct (Query.eagerFields q) with
      | inl e => ret (q, Some e)
      | inr assos =>
          let q := Query.with_eager false q in
          writeConn (Query.Connection q) (Connection.mk false) ;;;
          err <- each eagerAssociations FieldByName q assos None ;;
          ret (q, err)
      end
  end.

Definition First (q : Query.t) (model : Model) : M (Query.t * option error) :=
  First_ (eagerAssociations model) q model.

Definition Last (q : Query.t) (model : Model) : M (Query.t * option error) :=
  Last_ (eagerAssociations model) q model.

Definition All (q : Query.t) (models : Model) : M (Query.t * option error) :=
  All_ (eagerAssociations models) q models.

(** [(c *Connection) Load] *)
Definition Load (c : loc) (model : Model) (fields : list string)
  : M (option error) :=
  q <- Q c ;;
  let q := Query.with_eagerFields fields q in
  r <- eagerAssociations model q ;;
  let '(q, err) := r in
  _ <- disableEager q ;;
  ret err.

Definition Find (q : Query.t) (model : Model) (id : Value)
  : M (Query.t * option error) :=
  let idq := whereID E model in
  match id with
  | VUUID t => First (Where idq [VString (UUID_String E t)] q) model
  | VString t =>
      let l := GoString.len t in
      if 0 <? l then
        if negb (match GoString.head t with
                 | Some c => Ascii.eqb c "0"
                 | None => false
                 end) || (l =? 1)
        then
          match strconv.Atoi t with
          | None => First (Where idq [VString t] q) model
          | Some n => First (Where idq [VInt n] q) model
          end
        else First (Where idq [id] q) model
      else First (Where idq [id] q) model
  | _ => First (Where idq [id] q) model
  end.

(** The [*Connection] forms open a fresh query and delegate. *)
Definition Connection_Find (c : loc) (model : Model) (id : Value) :=
  q <- Q c ;; Find q model id.
Definition Connection_First (c : loc) (model : Model) :=
  q <- Q c ;; First q model.
Definition Connection_Last (c : loc) (model : Model) :=
  q <- Q c ;; Last q model.
Definition Connection_All (c : loc) (models : Model) :=
  q <- Q c ;; All q models.
Definition Connection_Count (c : loc) (model : Model) :=
  q <- Q c ;; Count q model.

End Finders.

Definition Select (fields : list string) (q : Query.t) : Query.t :=
  fold_left
    (fun q f =>
       if negb (String.eqb (strings.TrimSpace f) "")
       then Query.with_addColumns (Query.addColumns q ++ [f]) q
       else q)
    fields q.

Definition Connection_Select (c : loc) (fields : list string) : M Query.t :=
  q <- Q c ;; ret (Select fields q).

(** ** What a trailing clause is, in the words of the specification *)

(** [spells kw s]: the text [s] is the lower-case keyword [kw] up to case.
    Case is taken as the pattern compiler takes it (Unicode simple
    folding), so the long s counts as an [s] and the Kelvin sign as a
    [k]. *)
Inductive spells : string -> string -> Prop :=
| spells_nil : spells "" ""
| spells_byte c d kw s :
    d = c \/ d = regexp.upper_byte c ->
    spells kw s -> spells (String c kw) (String d s)
| spells_long_s kw s :
    spells kw s -> spells (String "s" kw) (regexp.long_s +:+ s)
| spells_kelvin kw s :
    spells kw s -> spells (String "k" kw) (regexp.kelvin +:+ s).

Fixpoint all_digits (s : string) : bool :=
  match s with
  | EmptyString => true
  | String c s' => strings.byte_in 48 57 c && all_digits s'
  end.

(** [<int>]: one or more decimal digits. *)
Definition integer (d : string) : Prop := d <> "" /\ all_digits d = true.

(** [LIMIT <int>] *)
Definition LimitClause (c : string) : Prop :=
  exists kw d, spells "limit" kw /\ integer d /\ c = kw +:+ " " +:+ d.

(** [LIMIT <int> OFFSET <int>] *)
Definition LimitOffsetClause (c : string) : Prop :=
  exists kw1 d1 kw2 d2,
    spells "limit" kw1 /\ integer d1 /\ spells "offset" kw2 /\ integer d2
    /\ c = kw1 +:+ " " +:+ d1 +:+ " " +:+ kw2 +:+ " " +:+ d2.

Fixpoint has_space (s : string) : bool :=
  match s with
  | EmptyString => false
  | String c s' => Ascii.eqb c " " || has_space s'
  end.

(** * A small store, for the examples *)

Module Sample.

Definition c1 : loc := 1%positive.
Definition p1 : loc := 1%positive.

Definition profile : Model :=
  MStruct "Profile" (fun _ => inr []) (fun _ => MSlice "" []).
Definition books : Model := MSlice "Books" [].

Definition hasProfile : Association :=
  mkAssociation false Struct ("user_id = ?", [VInt 1]) None profile [].
Definition hasBooks : Association :=
  mkAssociation false Slice ("user_id = ?", [VInt 1]) (Some "title asc")
    books [].

Definition user : Model :=
  MStruct "User" (fun _ => inr [hasProfile; hasBooks]) (fun _ => books).
Definition users : Model := MSlice "Users" [user; user; user].

Definition typ_of (m : Model) : string :=
  match m with
  | MSlice typ _ => typ
  | MStruct typ _ _ => typ
  end.

(** No profile row exists; every other fetch succeeds; [rows] rows match
    a count; raw SQL is rendered as it is. *)
Definition counting (rows : Z) : Env :=
  mkEnv
    (fun _ m => if String.eqb (typ_of m) "Profile" then Some ErrNoRows
                else None)
    (fun _ _ => None)
    (fun _ _ => (true, None))
    (fun _ _ => (rows, None))
    (fun q m =>
       if String.eqb (Fragment (Query.RawSQL q)) ""
       then ("SELECT * FROM " +:+ typ_of m,
             concat (map Arguments (Query.whereClauses q)))
       else (Fragment (Query.RawSQL q), Arguments (Query.RawSQL q)))
    (fun _ => None)
    (fun _ => "id = ?")
    (fun _ => "6ba7b810-9dad-11d1-80b4-00c04fd430c8").

Definition env : Env := counting 23.


Definition world : World :=
  mkWorld {[c1 := Connection.mk true]} {[p1 := mkPaginator 10 0 0 0]} [].

(** A fresh query in eager mode on connection [c1]. *)
Definition query : Query.t :=
  Query.mk (mkClause "" []) 0 [] true [] [] [] None c1.

Definition paged (perPage : Z) : World :=
  mkWorld {[c1 := Connection.mk false]} {[p1 := mkPaginator perPage 0 0 0]} [].

(** A query with a paginator attached, not in eager mode. *)
Definition paged_query : Query.t :=
  Query.mk (mkClause "" []) 0 [] false [] [] [] (Some p1) c1.

End Sample.

(** [TotalPages] after [paginateModel] on the sample store, for a count of
    [rows] and a page size of [perPage]; [None] when the call panics. *)
Definition pages_after (rows perPage : Z) : option Z :=
  match
    paginateModel (Sample.counting rows) Sample.paged_query Sample.users
      (Sample.paged perPage)
  with
  | Ok _ w' => option_map TotalPages (paginators w' !! Sample.p1)
  | Panic _ _ => None
  end.

(** * Vocabulary of the statements *)

(** An event that does not stem from a query in eager mode. *)
Definition not_eager (ev : Event) : Prop :=
  match ev with
  | EvSelectOne q _ | EvSelectMany q _ => Query.eager q = false
  | EvGet _ _ | EvAfterFind _ => True
  end.

(** [w'] is [w] after some calls of queries that are not in eager mode:
    same connections, same paginators, a longer trace. *)
Definition extends (w w' : World) : Prop :=
  conns w' = conns w /\ paginators w' = paginators w
  /\ exists evs, trace w' = trace w ++ evs /\ Forall not_eager evs.

(** What one run of the resolver on [q] may have done: cleared the eager
    flag of [q] and of its connection, and issued sub-queries. *)
Definition resolved (q : Query.t) (w : World) (r : Query.t * option error)
  (w' : World) : Prop :=
  (fst r = q \/ fst r = Query.with_eager false q)
  /\ (conns w' = conns w
      \/ conns w' = <[Query.Connection q := Connection.mk false]> (conns w))
  /\ paginators w' = paginators w
  /\ exists evs, trace w' = trace w ++ evs /\ Forall not_eager evs.

(** The resolver runs to completion on the model [m], whatever the store
    answers, as long as the query's connection is there. *)
Definition resolves (E : Env) (m : Model) : Prop :=
  forall q w,
    is_Some (conns w !! Query.Connection q) ->
    exists r w', eagerAssociations E m q w = Ok r w' /\ resolved q w r w'.

(** [frame P m]: when [m] returns, its result satisfies [P] and no
    connection has changed. *)
Definition frame {A : Type} (P : A -> Prop) (m : M A) : Prop :=
  forall w r w', m w = Ok r w' -> P r /\ conns w' = conns w.

(** What holds once the common tail of a finder has run on a query [q]
    in eager mode, started in world [w1]: the finder returned, the flag is
    off on the query and on its connection, the calls made on the way come
    from queries that are not in eager mode, and a query opened on the
    connection afterwards is not in eager mode either. *)
Definition eager_reset (q : Query.t) (w1 : World)
  (o : Outcome (Query.t * option error)) : Prop :=
  exists q' err w',
    o = Ok (q', err) w'
    /\ Query.eager q' = false
    /\ Query.Connection q' = Query.Connection q
    /\ conns w' !! Query.Connection q = Some (Connection.mk false)
    /\ (exists evs, trace w' = trace w1 ++ evs /\ Forall not_eager evs)
    /\ (exists fresh,
          Q (Query.Connection q) w' = Ok fresh w'
          /\ Query.eager fresh = false).

(** * Further vocabulary *)

(** ** White space in column names *)

(** Every byte is one of the six ASCII white-space bytes. *)
Fixpoint all_ascii_space (s : string) : bool :=
  match s with
  | EmptyString => true
  | String c s' => strings.asciiSpace c && all_ascii_space s'
  end.

(** Some byte is a visible ASCII character, ['!'] to ['~']. *)
Fixpoint has_visible (s : string) : bool :=
  match s with
  | EmptyString => false
  | String c s' => strings.byte_in 33 126 c || has_visible s'
  end.

(** The test of [Select]: [strings.TrimSpace(f) != ""]. *)
Definition nonblank (f : string) : bool :=
  negb (String.eqb (strings.TrimSpace f) "").

(** The last byte of a text. *)
Fixpoint last_byte (s : string) : option ascii :=
  match s with
  | EmptyString => None
  | String c EmptyString => Some c
  | String _ s' => last_byte s'
  end.

(** ** Statements sent to the database *)

(** An event that is an SQL statement: a SELECT of the dialect or an
    aggregate through the store; the post-fetch hook is not one. *)
Definition is_statement (ev : Event) : bool :=
  match ev with
  | EvSelectOne _ _ | EvSelectMany _ _ | EvGet _ _ => true
  | EvAfterFind _ => false
  end.

Definition statements (evs : list Event) : nat :=
  length (List.filter is_statement evs).

(** Is the association of a kind that one of the two dispatches of the
    resolver takes? *)
Definition dispatched (a : Association) : bool :=
  match AKind a with
  | Slice | Array | Struct => true
  | OtherKind => false
  end.

(** The number of statements a complete resolution of [m] sends for the
    eager fields [fields]: one for each association that is not skipped
    and is dispatched, and what the fields named by its inner associations
    take in turn; for a slice, the sum over its elements.  The targets of
    the associations add nothing: they are fetched by queries that are not
    in eager mode. *)
Fixpoint expected_statements (m : Model) (fields : list string) {struct m}
  : nat :=
  match m with
  | MSlice _ elems =>
      list_sum (map (fun x => expected_statements x fields) elems)
  | MStruct _ ForStruct FieldByName =>
      match ForStruct fields with
      | inl _ => 0%nat
      | inr assos =>
          list_sum
            (map (fun a : Association =>
                    if Skipped a then 0%nat
                    else ((if dispatched a then 1 else 0)
                          + list_sum
                              (map (fun i => expected_statements
                                               (FieldByName (Name i))
                                               [Fields i])
                                 (InnerAssociations a)))%nat)
               assos)
      end
  end.

(** Resolution of [m] returns, within what [resolved] allows, and sends
    at most [expected_statements] statements: exactly that many when it
    leaves no error. *)
Definition counted (E : Env) (m : Model) : Prop :=
  forall q w,
    is_Some (conns w !! Query.Connection q) ->
    exists r w',
      eagerAssociations E m q w = Ok r w'
      /\ resolved q w r w'
      /\ (statements (trace w')
          <= statements (trace w)
             + expected_statements m (Query.eagerFields q))%nat
      /\ (snd r = None ->
          statements (trace w')
          = (statements (trace w)
             + expected_statements m (Query.eagerFields q))%nat).

(** What [errors.Wrap(err, "unable to fetch records")] in [All] makes of
    an error of the fetch. *)
Definition unable (e : error) : error := ErrWrap e "unable to fetch records".

(** ** More stores and models, for the examples *)

Module Cases.

(** The sample store with a post-fetch hook that fails. *)
Definition env_hook : Env :=
  mkEnv (fun _ _ => None) (Dialect_SelectMany Sample.env)
    (Store_GetBool Sample.env) (Store_GetInt Sample.env) (ToSQL Sample.env)
    (fun _ => Some (ErrOther "hook failed")) (whereID Sample.env)
    (UUID_String Sample.env).

(** The sample store with a count that fails. *)
Definition env_count : Env :=
  mkEnv (Dialect_SelectOne Sample.env) (Dialect_SelectMany Sample.env)
    (Store_GetBool Sample.env) (fun _ _ => (0, Some (ErrOther "count failed")))
    (ToSQL Sample.env) (afterFind Sample.env) (whereID Sample.env)
    (UUID_String Sample.env).

(** The sample store where the SELECT for books reports no rows. *)
Definition env_no_books : Env :=
  mkEnv (Dialect_SelectOne Sample.env)
    (fun _ m => if String.eqb (Sample.typ_of m) "Books" then Some ErrNoRows
                else None)
    (Store_GetBool Sample.env) (Store_GetInt Sample.env) (ToSQL Sample.env)
    (afterFind Sample.env) (whereID Sample.env) (UUID_String Sample.env).

(** A struct whose association discovery fails. *)
Definition opaque : Model :=
  MStruct "Opaque" (fun _ => inl (ErrOther "no such field"))
    (fun _ => Sample.books).

(** An association of a kind that neither dispatch takes. *)
Definition hasTags : Association :=
  mkAssociation false OtherKind ("user_id = ?", [VInt 1]) None Sample.books [].

(** A query in eager mode with a paginator attached. *)
Definition eager_paged_query : Query.t :=
  Query.mk (mkClause "" []) 0 [] true [] [] [] (Some Sample.p1) Sample.c1.

End Cases.

(** * The target of a has-one association

    [Interface] works through [reflect] on the owner's field.  The
    variables that reflection reaches are the cells of a heap, addressed
    by their index; [reflect.New] adds a cell at the end. *)

Module reflect.

Inductive Type_ : Type :=
| StructType (name : string)
| PtrType (elem : Type_).

(** What a variable holds: a struct value, with the row loaded into it if
    any, or a pointer, which is nil or the address of a variable. *)
Inductive Var : Type :=
| StructVar (name : string) (row : option string)
| PtrVar (elem : Type_) (target : option nat).

Definition TypeOf (v : Var) : Type_ :=
  match v with
  | StructVar name _ => StructType name
  | PtrVar elem _ => PtrType elem
  end.

(** The zero value of a type. *)
Definition Zero (t : Type_) : Var :=
  match t with
  | StructType name => StructVar name None
  | PtrType elem => PtrVar elem None
  end.

Fixpoint Type_eqb (a b : Type_) : bool :=
  match a, b with
  | StructType n, StructType m => String.eqb n m
  | PtrType x, PtrType y => Type_eqb x y
  | _, _ => false
  end.

End reflect.

Module hasOne.

(** The reflection handles of a [hasOneAssociation]: [ownedModel] is the
    owner's field, an addressable variable, and [ownedType] its type. *)
Record handles : Type := mkHandles {
  ownedModel : nat;
  ownedType : reflect.Type_
}.

(** [Interface]: the address handed to the fetch, with the heap as the
    call leaves it.  With a field of pointer kind, [reflect.New] makes a
    zero value of [ownedType.Elem()], [Set] stores its address in the
    field, and the field's new content is returned; otherwise the result
    is the address of the field.  [None] is a panic inside [reflect]: no
    such variable, [Elem] of a struct type, or [Set] of a value of another
    type. *)
Definition Interface (h : handles) (heap : list reflect.Var)
  : option (nat * list reflect.Var) :=
  match heap !! ownedModel h with
  | None => None
  | Some v =>
      match reflect.TypeOf v with
      | reflect.PtrType _ =>
          match ownedType h with
          | reflect.PtrType elem =>
              let val := length heap in
              let heap := heap ++ [reflect.Zero elem] in
              if reflect.Type_eqb (reflect.PtrType elem) (reflect.TypeOf v)
              then Some (val,
                         <[ownedModel h := reflect.PtrVar elem (Some val)]> heap)
              else None
          | reflect.StructType _ => None
          end
      | reflect.StructType _ => Some (ownedModel h, heap)
      end
  end.

End hasOne.

(** * The targets of the resolver's fetches

    One iteration of the resolver's loop for a has-one association, with
    the owner's variables followed: [association.Interface()] is called
    twice, once where the SQL text is rendered and once where the fetch
    is started, and each call works on the owner's field as
    [hasOne.Interface] does.  The engine's results (the error, the calls
    made, the flags) are those of [subQuery] and [fetch]: they do not
    depend on the heap.  [None] is a panic inside [reflect]. *)

Section Targets.
Variable E : Env.

(** What the dialect leaves in the variable it is handed, given the
    statement, the reflective view and what the variable held.  The
    dialect holds the address of its target and of nothing else. *)
Variable scan : Query.t -> Model -> reflect.Var -> reflect.Var.

Definition scanned (q : Query.t) (m : Model) (target : nat)
  (heap : list reflect.Var) : list reflect.Var :=
  match heap !! target with
  | Some v => <[target := scan q m v]> heap
  | None => heap
  end.

(** The sub-query of the association, as [subQuery] builds it;
    [query.ToSQL(&Model{Value: association.Interface()})] is the first
    call of [Interface]. *)
Definition subQueryInto (h : hasOne.handles) (c : loc)
  (association : Association) (heap : list reflect.Var)
  : M (option (Query.t * list reflect.Var)) :=
  query <- Q c ;;
  let '(whereCondition, args) := Constraint association in
  let query := Where whereCondition args query in
  let query :=
    match OrderBy association with
    | Some orderClause =>
        if String.eqb orderClause "" then query else Order orderClause query
    | None => query
    end in
  match hasOne.Interface h heap with
  | None => ret None
  | Some (_, heap) =>
      let '(sqlSentence, args) := ToSQL E query (Interface association) in
      ret (Some (RawQuery sqlSentence args query, heap))
  end.

(** The two dispatches on the kind, as [fetch] makes them;
    [query.All(ctx, association.Interface())] and
    [query.First(ctx, association.Interface())] hold the second call of
    [Interface], and the dialect scans into the target that call hands
    out. *)
Definition fetchInto (h : hasOne.handles) (query : Query.t)
  (association : Association) (err : option error) (heap : list reflect.Var)
  : M (option (Query.t * option error * list reflect.Var)) :=
  match AKind association with
  | Slice | Array =>
      match hasOne.Interface h heap with
      | None => ret None
      | Some (target, heap) =>
          r <- All_ E (eagerAssociations E (Interface association)) query
                 (Interface association) ;;
          let '(query', err) := r in
          ret (Some (query', err,
                     scanned query (Interface association) target heap))
      end
  | Struct =>
      match hasOne.Interface h heap with
      | None => ret None
      | Some (target, heap) =>
          r <- First_ E (eagerAssociations E (Interface association)) query
                 (Interface association) ;;
          let '(query', err) := r in
          ret (Some (query', err,
                     scanned (Limit 1 query) (Interface association) target
                       heap))
      end
  | OtherKind => ret (Some (query, err, heap))
  end.

(** The sub-query and the fetch of one association, one after the
    other. *)
Definition resolveInto (h : hasOne.handles) (c : loc)
  (association : Association) (err : option error) (heap : list reflect.Var)
  : M (option (Query.t * option error * list reflect.Var)) :=
  r <- subQueryInto h c association heap ;;
  match r with
  | None => ret None
  | Some (query, heap) => fetchInto h query association err heap
  end.

End Targets.

(** Owners for the examples: a dialect that writes nothing when it finds
    no row, and the handles of a field [Profile] of pointer type and of
    struct type, which is the variable at address 0. *)
Module Owners.







End Owners.

(** * Facts about the Go primitives *)

Section GoStringFacts.

Lemma str_app_nil_l (s : string) : "" +:+ s = s.
Proof. reflexivity. Qed.

Lemma str_app_cons (c : ascii) (a b : string) :
  String c a +:+ b = String c (a +:+ b).
Proof. reflexivity. Qed.

Lemma str_length_cons (c : ascii) (a : string) :
  String.length (String c a) = S (String.length a).
Proof. reflexivity. Qed.

Lemma str_app_nil_r (s : string) : s +:+ "" = s.
Proof.
  induction s as [|c s IH]; [reflexivity | now rewrite str_app_cons, IH].
Qed.

Lemma str_app_assoc (a b c : string) : (a +:+ b) +:+ c = a +:+ (b +:+ c).
Proof.
  induction a as [|x a IH]; [reflexivity | now rewrite !str_app_cons, IH].
Qed.

Lemma str_length_app (a b : string) :
  String.length (a +:+ b) = (String.length a + String.length b)%nat.
Proof.
  induction a as [|x a IH]; [reflexivity |].
  rewrite str_app_cons, !str_length_cons, IH. reflexivity.
Qed.

Lemma substring_app_l (a b : string) :
  String.substring 0 (String.length a) (a +:+ b) = a.
Proof.
  induction a as [|x a IH].
  - now destruct b.
  - rewrite str_app_cons, str_length_cons. cbn. now f_equal.
Qed.

(** Two splits of one text whose right parts are equally long agree. *)
Lemma str_app_eq_length (a b a' b' : string) :
  a +:+ b = a' +:+ b' -> String.length b = String.length b' ->
  a = a' /\ b = b'.
Proof.
  revert a'. induction a as [|x a IH]; intros [|y a'] H Hl.
  - now rewrite !str_app_nil_l in H.
  - apply (f_equal String.length) in H.
    rewrite str_app_nil_l, str_app_cons, str_length_cons, str_length_app in H.
    lia.
  - apply (f_equal String.length) in H.
    rewrite str_app_nil_l, str_app_cons, str_length_cons, str_length_app in H.
    lia.
  - rewrite !str_app_cons in H. injection H as -> H.
    destruct (IH _ H Hl) as [-> ->]. now split.
Qed.

Lemma has_space_app (a b : string) :
  has_space (a +:+ b) = has_space a || has_space b.
Proof.
  induction a as [|x a IH]; [reflexivity |].
  rewrite str_app_cons. cbn. rewrite IH. now rewrite orb_assoc.
Qed.

(** Splitting at the last space is unambiguous. *)
Lemma split_last_space (x b x' b' : string) :
  x +:+ " " +:+ b = x' +:+ " " +:+ b' ->
  has_space b = false -> has_space b' = false ->
  x = x' /\ b = b'.
Proof.
  revert x'. induction x as [|c x IH]; intros [|c' x'] H Hb Hb';
    repeat rewrite ?str_app_cons, ?str_app_nil_l in H.
  - injection H as H. now split.
  - injection H as _ H. subst b.
    rewrite has_space_app in Hb. cbn in Hb. now rewrite orb_true_r in Hb.
  - injection H as _ H. subst b'.
    rewrite has_space_app in Hb'. cbn in Hb'. now rewrite orb_true_r in Hb'.
  - injection H as -> H.
    assert (H' : x +:+ " " +:+ b = x' +:+ " " +:+ b')
      by now repeat rewrite ?str_app_cons, ?str_app_nil_l.
    destruct (IH _ H' Hb Hb') as [-> ->]. now split.
Qed.

Lemma slice_to_app (p c : string) :
  GoString.slice_to (GoString.len (p +:+ c) - GoString.len c) (p +:+ c) = p.
Proof.
  unfold GoString.slice_to, GoString.len. rewrite str_length_app.
  replace (Z.to_nat _) with (String.length p) by lia.
  apply substring_app_l.
Qed.

Lemma wrap_id (z : Z) : GoInt.in_range z -> GoInt.wrap z = z.
Proof.
  unfold GoInt.in_range, GoInt.min_int, GoInt.max_int, GoInt.wrap. intros H.
  rewrite Z.mod_small; lia.
Qed.

End GoStringFacts.

Example TrimSpace_padded : strings.TrimSpace "  name	 " = "name".
Proof. reflexivity. Qed.

Example TrimSpace_blank : strings.TrimSpace " " = "".
Proof. reflexivity. Qed.

Example Atoi_42 : strconv.Atoi "42" = Some 42.
Proof. reflexivity. Qed.

Example Atoi_007 : strconv.Atoi "007" = Some 7.
Proof. reflexivity. Qed.

Example Atoi_neg : strconv.Atoi "-15" = Some (-15).
Proof. reflexivity. Qed.

Example Atoi_text : strconv.Atoi "4x2" = None.
Proof. reflexivity. Qed.

Example Atoi_range : strconv.Atoi "9223372036854775808" = None.
Proof. reflexivity. Qed.

(** * The matcher decides the language *)

Section RegexpFacts.
Import regexp.

Lemma Lang_nil_nullable (r : re) : Lang r "" -> nullable r = true.
Proof.
  intros H. remember EmptyString as s eqn:Es.
  induction H as [ | p c Hp | r1 r2 s1 s2 H1 IH1 H2 IH2 | r1 r2 s H IH
                  | r1 r2 s H IH | r | r s1 s2 H1 IH1 H2 IH2 ]; cbn.
  - reflexivity.
  - discriminate.
  - destruct s1; [|discriminate]. destruct s2; [|discriminate].
    now rewrite IH1, IH2.
  - now rewrite IH.
  - rewrite IH by assumption. now destruct (nullable r1).
  - reflexivity.
  - reflexivity.
Qed.

Lemma nullable_Lang_nil (r : re) : nullable r = true -> Lang r "".
Proof.
  induction r as [ | | p | r1 IH1 r2 IH2 | r1 IH1 r2 IH2 | r IH ]; cbn;
    intros H; try discriminate.
  - constructor.
  - apply andb_prop in H as [H1 H2].
    change EmptyString with ("" +:+ ""). constructor; auto.
  - apply orb_prop in H as [H | H]; [apply LAltL | apply LAltR]; auto.
  - constructor.
Qed.

Lemma deriv_sound (c : ascii) (r : re) :
  forall s, Lang (deriv c r) s -> Lang r (String c s).
Proof.
  induction r as [ | | p | r1 IH1 r2 IH2 | r1 IH1 r2 IH2 | r IH ]; cbn;
    intros s H.
  - inversion H.
  - inversion H.
  - destruct (p c) eqn:Hp; inversion H; subst. now constructor.
  - destruct (nullable r1) eqn:Hn.
    + inversion H as [ | | | ? ? ? HL | ? ? ? HR | | ]; subst.
      * inversion HL as [ | | ? ? s1 s2 Ha Hb | | | | ]; subst.
        rewrite <- str_app_cons. constructor; auto.
      * change (String c s) with ("" +:+ String c s).
        constructor; [now apply nullable_Lang_nil | auto].
    + inversion H as [ | | ? ? s1 s2 Ha Hb | | | | ]; subst.
      rewrite <- str_app_cons. constructor; auto.
  - inversion H; subst; [apply LAltL | apply LAltR]; auto.
  - inversion H as [ | | ? ? s1 s2 Ha Hb | | | | ]; subst.
    rewrite <- str_app_cons. constructor; auto.
Qed.

Lemma deriv_complete (c : ascii) (r : re) (x : string) :
  Lang r x -> forall s, x = String c s -> Lang (deriv c r) s.
Proof.
  induction 1 as [ | p d Hp | r1 r2 s1 s2 H1 IH1 H2 IH2 | r1 r2 s0 H IH
                 | r1 r2 s0 H IH | r | r s1 s2 H1 IH1 H2 IH2 ];
    intros s E; cbn.
  - discriminate.
  - injection E as -> <-. rewrite Hp. constructor.
  - destruct s1 as [|a s1'].
    + rewrite str_app_nil_l in E.
      rewrite (Lang_nil_nullable _ H1). apply LAltR. auto.
    + rewrite str_app_cons in E. injection E as -> <-.
      destruct (nullable r1); [apply LAltL|]; constructor; auto.
  - apply LAltL. auto.
  - apply LAltR. auto.
  - discriminate.
  - destruct s1 as [|a s1'].
    + rewrite str_app_nil_l in E. auto.
    + rewrite str_app_cons in E. injection E as -> <-.
      constructor; auto.
Qed.

Lemma matches_Lang (s : string) : forall r, matches r s = true <-> Lang r s.
Proof.
  induction s as [|c s IH]; intros r; cbn.
  - split; [apply nullable_Lang_nil | apply Lang_nil_nullable].
  - rewrite IH. split; [apply deriv_sound |].
    intros H. now apply (deriv_complete c r _ H).
Qed.

(** What [find] returns is a matching tail of the text ... *)
Lemma find_Some (r : re) (s m : string) :
  find r s = Some m -> exists p, s = p +:+ m /\ Lang r m.
Proof.
  induction s as [|c s IH]; cbn.
  - destruct (nullable r) eqn:Hn; [|discriminate].
    intros [= <-]. exists EmptyString. split; [reflexivity|].
    now apply nullable_Lang_nil.
  - destruct (matches (deriv c r) s) eqn:Hm.
    + intros [= <-]. exists EmptyString. split; [reflexivity|].
      apply (matches_Lang (String c s)). exact Hm.
    + intros H. destruct (IH H) as (p & -> & HL).
      exists (String c p). now rewrite str_app_cons.
Qed.

(** ... and it finds one whenever some tail matches. *)
Lemma find_complete (r : re) (p m : string) :
  Lang r m -> exists m', find r (p +:+ m) = Some m'.
Proof.
  intros HL. induction p as [|c p IH].
  - rewrite str_app_nil_l. apply matches_Lang in HL.
    destruct m; cbn in *; rewrite HL; eauto.
  - rewrite str_app_cons. cbn.
    destruct (matches (deriv c r) (p +:+ m)); eauto.
Qed.

Lemma find_None (r : re) (s : string) :
  (forall p m, s = p +:+ m -> ~ Lang r m) -> find r s = None.
Proof.
  intros H. destruct (find r s) as [m|] eqn:E; [|reflexivity].
  apply find_Some in E as (p & -> & HL). now destruct (H p m).
Qed.

Lemma find_None_inv (r : re) (s : string) :
  find r s = None -> forall p m, s = p +:+ m -> ~ Lang r m.
Proof.
  intros H p m -> HL.
  destruct (find_complete r p m HL) as [m' E]. congruence.
Qed.

End RegexpFacts.

(** * Trailing clauses and the two patterns *)

Section ClauseFacts.
Import regexp.

Lemma byte_is_eq (n : nat) (c : ascii) :
  (n < 256)%nat -> strings.byte_is n c = true -> c = ascii_of_nat n.
Proof.
  unfold strings.byte_is. intros Hn H. apply Nat.eqb_eq in H.
  rewrite <- H. now rewrite ascii_nat_embedding.
Qed.

Lemma Lang_Byte (c : ascii) (s : string) :
  Lang (Byte c) s <-> s = String c "".
Proof.
  split.
  - inversion 1 as [ | p d Hp | | | | | ]; subst.
    apply Ascii.eqb_eq in Hp. now subst.
  - intros ->. constructor. apply Ascii.eqb_refl.
Qed.

Lemma Lang_lit (k s : string) : Lang (lit k) s <-> s = k.
Proof.
  revert s. induction k as [|c k IH]; intros s; cbn.
  - split; [now inversion 1 | intros ->; constructor].
  - split.
    + inversion 1 as [ | | ? ? s1 s2 H1 H2 | | | | ]; subst.
      apply Lang_Byte in H1. apply IH in H2. now subst.
    + intros ->. change (String c k) with (String c "" +:+ k).
      constructor; [now apply Lang_Byte | now apply IH].
Qed.

Lemma Lang_fold_byte (c : ascii) (s : string) :
  Lang (fold_byte c) s <->
  (exists d, (d = c \/ d = upper_byte c) /\ s = String d "")
  \/ (c = "s"%char /\ s = long_s) \/ (c = "k"%char /\ s = kelvin).
Proof.
  assert (Hboth : forall s,
    Lang (Class (fun d => Ascii.eqb d c || Ascii.eqb d (upper_byte c))) s <->
    exists d, (d = c \/ d = upper_byte c) /\ s = String d "").
  { intros s0. split.
    - inversion 1 as [ | p d Hp | | | | | ]; subst.
      exists d. split; [|reflexivity].
      apply orb_prop in Hp as [Hp | Hp]; apply Ascii.eqb_eq in Hp; auto.
    - intros (d & Hd & ->). constructor.
      destruct Hd as [-> | ->]; rewrite Ascii.eqb_refl; auto using orb_true_r. }
  unfold fold_byte.
  destruct (strings.byte_is 115 c) eqn:Hs.
  - apply byte_is_eq in Hs; [|lia]. subst c. split.
    + inversion 1 as [ | | | ? ? ? HL | ? ? ? HR | | ]; subst.
      * left. now apply Hboth.
      * right. left. split; [reflexivity|]. now apply Lang_lit.
    + intros [H | [[_ ->] | [Hk _]]].
      * apply LAltL. now apply Hboth.
      * apply LAltR. now apply Lang_lit.
      * discriminate.
  - destruct (strings.byte_is 107 c) eqn:Hk.
    + apply byte_is_eq in Hk; [|lia]. subst c. split.
      * inversion 1 as [ | | | ? ? ? HL | ? ? ? HR | | ]; subst.
        -- left. now apply Hboth.
        -- right. right. split; [reflexivity|]. now apply Lang_lit.
      * intros [H | [[Hc _] | [_ ->]]].
        -- apply LAltL. now apply Hboth.
        -- discriminate.
        -- apply LAltR. now apply Lang_lit.
    + rewrite Hboth. split; [auto|].
      intros [H | [[-> _] | [-> _]]]; [auto | discriminate | discriminate].
Qed.

Lemma Lang_fold_lit (kw s : string) : Lang (fold_lit kw) s <-> spells kw s.
Proof.
  revert s. induction kw as [|c kw IH]; intros s; cbn.
  - split; inversion 1; constructor.
  - split.
    + inversion 1 as [ | | ? ? s1 s2 H1 H2 | | | | ]; subst.
      apply IH in H2. apply Lang_fold_byte in H1.
      destruct H1 as [(d & Hd & ->) | [[-> ->] | [-> ->]]].
      * now apply spells_byte.
      * now apply spells_long_s.
      * now apply spells_kelvin.
    + inversion 1 as [ | ? d ? s' Hd Hs | ? s' Hs | ? s' Hs ]; subst.
      * change (String d s') with (String d "" +:+ s').
        constructor; [|now apply IH]. apply Lang_fold_byte. left. eauto.
      * constructor; [|now apply IH]. apply Lang_fold_byte. auto.
      * constructor; [|now apply IH]. apply Lang_fold_byte. auto.
Qed.

Lemma Lang_Star_digit (s : string) :
  Lang (Star digit) s <-> all_digits s = true.
Proof.
  split.
  - intros H. remember (Star digit) as r eqn:Er.
    induction H as [ | | | | | r0 | r0 s1 s2 H1 _ H2 IH2 ]; try discriminate.
    + reflexivity.
    + injection Er as ->. specialize (IH2 eq_refl).
      inversion H1 as [ | p d Hp | | | | | ]; subst.
      rewrite str_app_cons, str_app_nil_l. cbn. now rewrite Hp.
  - induction s as [|c s IH]; cbn; intros H.
    + constructor.
    + apply andb_prop in H as [Hc Hs].
      change (String c s) with (String c "" +:+ s).
      constructor; [now constructor | auto].
Qed.

Lemma Lang_Plus_digit (s : string) : Lang (Plus digit) s <-> integer s.
Proof.
  unfold Plus, integer. split.
  - inversion 1 as [ | | ? ? s1 s2 H1 H2 | | | | ]; subst.
    inversion H1 as [ | p d Hp | | | | | ]; subst.
    apply Lang_Star_digit in H2. rewrite str_app_cons, str_app_nil_l.
    split; [discriminate|]. cbn. now rewrite Hp.
  - intros [Hne H]. destruct s as [|c s]; [contradiction|].
    cbn in H. apply andb_prop in H as [Hc Hs].
    change (String c s) with (String c "" +:+ s).
    constructor; [now constructor | now apply Lang_Star_digit].
Qed.

Lemma Lang_Seq (r1 r2 : re) (s : string) :
  Lang (Seq r1 r2) s <->
  exists s1 s2, s = s1 +:+ s2 /\ Lang r1 s1 /\ Lang r2 s2.
Proof.
  split.
  - inversion 1 as [ | | ? ? s1 s2 H1 H2 | | | | ]; subst.
    exists s1, s2. repeat split; assumption.
  - intros (s1 & s2 & -> & H1 & H2). now constructor.
Qed.

Lemma spells_app (k1 k2 s1 s2 : string) :
  spells k1 s1 -> spells k2 s2 -> spells (k1 +:+ k2) (s1 +:+ s2).
Proof.
  induction 1 as [ | c d kw s Hd Hs IH | kw s Hs IH | kw s Hs IH ]; intros H2.
  - exact H2.
  - rewrite !str_app_cons. constructor; auto.
  - rewrite str_app_cons, str_app_assoc. apply spells_long_s; auto.
  - rewrite str_app_cons, str_app_assoc. apply spells_kelvin; auto.
Qed.

Lemma spells_app_inv (k1 k2 s : string) :
  spells (k1 +:+ k2) s ->
  exists s1 s2, s = s1 +:+ s2 /\ spells k1 s1 /\ spells k2 s2.
Proof.
  revert s. induction k1 as [|c k1 IH]; intros s H.
  - exists EmptyString, s. repeat split; [constructor | exact H].
  - rewrite str_app_cons in H.
    inversion H as [ | ? d ? s' Hd Hs | ? s' Hs | ? s' Hs ]; subst;
      destruct (IH _ Hs) as (s1 & s2 & -> & H1 & H2).
    + exists (String d s1), s2. rewrite str_app_cons.
      repeat split; [now constructor | exact H2].
    + exists (long_s +:+ s1), s2. rewrite str_app_assoc.
      repeat split; [now apply spells_long_s | exact H2].
    + exists (kelvin +:+ s1), s2. rewrite str_app_assoc.
      repeat split; [now apply spells_kelvin | exact H2].
Qed.

Lemma spells_space (s : string) : spells " " s <-> s = " ".
Proof.
  split.
  - inversion 1 as [ | ? d ? s' Hd Hs | | ]; subst.
    inversion Hs; subst. now destruct Hd as [-> | ->].
  - intros ->. constructor; [now left | constructor].
Qed.

Lemma Lang_rLimit (c : string) : Lang (expr rLimit) c <-> LimitClause c.
Proof.
  cbn [expr rLimit]. rewrite Lang_Seq. unfold LimitClause. split.
  - intros (s1 & d & -> & H1 & H2).
    apply Lang_fold_lit in H1. apply Lang_Plus_digit in H2.
    change "limit " with ("limit" +:+ " ") in H1.
    apply spells_app_inv in H1 as (kw & sp & -> & Hkw & Hsp).
    apply spells_space in Hsp as ->.
    exists kw, d. rewrite str_app_assoc.
    split; [exact Hkw | split; [exact H2 | reflexivity]].
  - intros (kw & d & Hkw & Hd & ->).
    exists (kw +:+ " "), d. rewrite str_app_assoc. split; [reflexivity|].
    split; [|now apply Lang_Plus_digit].
    apply Lang_fold_lit. change "limit " with ("limit" +:+ " ").
    apply spells_app; [exact Hkw | now apply spells_space].
Qed.

Lemma Lang_rLimitOffset (c : string) :
  Lang (expr rLimitOffset) c <-> LimitOffsetClause c.
Proof.
  cbn [expr rLimitOffset]. rewrite Lang_Seq. unfold LimitOffsetClause. split.
  - intros (s1 & t1 & -> & H1 & H2).
    apply Lang_Seq in H2 as (d1 & t2 & -> & Hd1 & H2).
    apply Lang_Seq in H2 as (s2 & d2 & -> & H2 & Hd2).
    apply Lang_fold_lit in H1, H2.
    apply Lang_Plus_digit in Hd1, Hd2.
    change "limit " with ("limit" +:+ " ") in H1.
    apply spells_app_inv in H1 as (kw1 & sp & -> & Hkw1 & Hsp).
    apply spells_space in Hsp as ->.
    change " offset " with (" " +:+ "offset" +:+ " ") in H2.
    apply spells_app_inv in H2 as (sp & t & -> & Hsp & H2).
    apply spells_space in Hsp as ->.
    apply spells_app_inv in H2 as (kw2 & sp & -> & Hkw2 & Hsp).
    apply spells_space in Hsp as ->.
    exists kw1, d1, kw2, d2. repeat rewrite str_app_assoc.
    split; [exact Hkw1|]. split; [exact Hd1|]. split; [exact Hkw2|].
    split; [exact Hd2 | reflexivity].
  - intros (kw1 & d1 & kw2 & d2 & Hkw1 & Hd1 & Hkw2 & Hd2 & ->).
    exists (kw1 +:+ " "), (d1 +:+ (" " +:+ kw2 +:+ " ") +:+ d2).
    repeat rewrite str_app_assoc. split; [reflexivity|]. split.
    + apply Lang_fold_lit. change "limit " with ("limit" +:+ " ").
      apply spells_app; [exact Hkw1 | now apply spells_space].
    + constructor; [now apply Lang_Plus_digit|].
      rewrite <- (str_app_assoc " " kw2), <- (str_app_assoc (" " +:+ kw2)).
      rewrite (str_app_assoc " " kw2).
      constructor; [|now apply Lang_Plus_digit].
      apply Lang_fold_lit.
      change " offset " with (" " +:+ "offset" +:+ " ").
      apply spells_app; [now apply spells_space|].
      apply spells_app; [exact Hkw2 | now apply spells_space].
Qed.

Lemma upper_byte_not_space (c : ascii) :
  Ascii.eqb c " " = false -> Ascii.eqb (upper_byte c) " " = false.
Proof.
  destruct c as [[] [] [] [] [] [] [] []]; vm_compute; congruence.
Qed.

Lemma spells_no_space (kw s : string) :
  spells kw s -> has_space kw = false -> has_space s = false.
Proof.
  induction 1 as [ | c d kw s Hd Hs IH | kw s Hs IH | kw s Hs IH ]; cbn;
    intros H.
  - reflexivity.
  - apply orb_false_elim in H as [Hc Hkw]. rewrite (IH Hkw), orb_false_r.
    destruct Hd as [-> | ->]; [exact Hc | now apply upper_byte_not_space].
  - exact (IH H).
  - exact (IH H).
Qed.

Lemma integer_no_space (d : string) : integer d -> has_space d = false.
Proof.
  intros [_ H]. induction d as [|c d IH]; cbn in *; [reflexivity|].
  apply andb_prop in H as [Hc Hd]. rewrite (IH Hd), orb_false_r.
  destruct (Ascii.eqb_spec c " ") as [-> | _]; [discriminate | reflexivity].
Qed.

Ltac inv_spells :=
  repeat match goal with
         | H : spells (String _ _) _ |- _ => inversion H; clear H; subst
         | H : spells EmptyString _ |- _ => inversion H; clear H; subst
         end.

(** The keyword of a LIMIT clause is five bytes that end in [it]. *)
Lemma spells_limit (kw : string) :
  spells "limit" kw ->
  String.length kw = 5%nat
  /\ exists a x y, kw = a +:+ String x (String y "")
                   /\ (x = "i" \/ x = "I")%char.
Proof.
  intros H. inv_spells. split; [reflexivity|].
  match goal with
  | |- context [String ?d1 (String ?d2 (String ?d3 (String ?d4 (String ?d5 ""))))] =>
      exists (String d1 (String d2 (String d3 ""))), d4, d5
  end.
  split; [reflexivity|].
  match goal with
  | H : _ = "i"%char \/ _ |- _ => destruct H as [-> | ->]; [now left | now right]
  end.
Qed.

(** The keyword of an OFFSET clause ends in [et]. *)
Lemma spells_offset (kw : string) :
  spells "offset" kw ->
  exists b x y, kw = b +:+ String x (String y "")
                /\ (x = "e" \/ x = "E")%char.
Proof.
  intros H. inv_spells;
    match goal with
    | He : ?x = "e"%char \/ _ |- context [String ?x (String ?y "")] =>
        match goal with
        | |- context [String ?d1 (String ?d2 (String ?d3 (String ?d4 (String x (String y "")))))] =>
            exists (String d1 (String d2 (String d3 (String d4 "")))), x, y
        | |- context [String ?d1 (String ?d2 (String ?d3 (long_s +:+ String x (String y ""))))] =>
            exists (String d1 (String d2 (String d3 long_s))), x, y
        end;
        (split; [reflexivity|]);
        destruct He as [-> | ->]; [now left | now right]
    end.
Qed.

Lemma LimitClause_unique (p c p' c' : string) :
  LimitClause c -> LimitClause c' -> p +:+ c = p' +:+ c' ->
  p = p' /\ c = c'.
Proof.
  intros (kw & d & Hkw & Hd & ->) (kw' & d' & Hkw' & Hd' & ->) H.
  rewrite <- !(str_app_assoc _ kw), <- !(str_app_assoc _ kw') in H.
  apply split_last_space in H as [H ->]; try now apply integer_no_space.
  apply str_app_eq_length in H as [-> ->]; [now split|].
  apply spells_limit in Hkw as [-> _], Hkw' as [-> _]. reflexivity.
Qed.

Lemma LimitOffsetClause_unique (p c p' c' : string) :
  LimitOffsetClause c -> LimitOffsetClause c' -> p +:+ c = p' +:+ c' ->
  p = p' /\ c = c'.
Proof.
  intros (kw1 & d1 & kw2 & d2 & Hkw1 & Hd1 & Hkw2 & Hd2 & ->)
         (kw1' & d1' & kw2' & d2' & Hkw1' & Hd1' & Hkw2' & Hd2' & ->) H.
  repeat rewrite <- str_app_assoc in H.
  rewrite !(str_app_assoc _ " " d2), !(str_app_assoc _ " " d2') in H.
  apply split_last_space in H as [H ->]; try now apply integer_no_space.
  rewrite !(str_app_assoc _ " " kw2), !(str_app_assoc _ " " kw2') in H.
  apply split_last_space in H as [H ->];
    try (eapply spells_no_space; [eassumption | reflexivity]).
  rewrite !(str_app_assoc _ " " d1), !(str_app_assoc _ " " d1') in H.
  apply split_last_space in H as [H ->]; try now apply integer_no_space.
  apply str_app_eq_length in H as [-> ->]; [now split|].
  apply spells_limit in Hkw1 as [-> _], Hkw1' as [-> _]. reflexivity.
Qed.

(** A text that ends in a bare LIMIT clause does not end in a LIMIT
    OFFSET clause. *)
Lemma LimitClause_not_LimitOffset (p c p' c' : string) :
  LimitClause c -> LimitOffsetClause c' -> p +:+ c <> p' +:+ c'.
Proof.
  intros (kw & d & Hkw & Hd & ->)
         (kw1' & d1' & kw2' & d2' & Hkw1' & Hd1' & Hkw2' & Hd2' & ->) H.
  repeat rewrite <- str_app_assoc in H.
  rewrite !(str_app_assoc _ " " d), !(str_app_assoc _ " " d2') in H.
  apply split_last_space in H as [H _]; try now apply integer_no_space.
  apply spells_limit in Hkw as (_ & a & x & y & -> & Hx).
  apply spells_offset in Hkw2' as (b & x' & y' & -> & Hx').
  rewrite <- !str_app_assoc in H.
  apply str_app_eq_length in H as [_ H]; [|reflexivity].
  injection H as -> _.
  destruct Hx as [-> | ->], Hx' as [? | ?]; discriminate.
Qed.

(** The leftmost match of a pattern whose matches are unambiguous is the
    trailing clause itself. *)
Lemma find_clause (rx : Regexp) (P : string -> Prop) (p c : string) :
  (forall x, Lang (expr rx) x <-> P x) ->
  (forall p1 c1 p2 c2, P c1 -> P c2 -> p1 +:+ c1 = p2 +:+ c2 ->
                       p1 = p2 /\ c1 = c2) ->
  P c -> find (expr rx) (p +:+ c) = Some c.
Proof.
  intros HL Hu Hc.
  destruct (find_complete (expr rx) p c) as [m Hm]; [now apply HL|].
  rewrite Hm. f_equal.
  apply find_Some in Hm as (p' & E & Hm'). apply HL in Hm'.
  now destruct (Hu _ _ _ _ Hc Hm' E).
Qed.

End ClauseFacts.

Lemma no_trailing_clause (s : string) :
  regexp.find (regexp.expr rLimitOffset) s = None ->
  regexp.find (regexp.expr rLimit) s = None ->
  forall p c, s = p +:+ c -> ~ LimitOffsetClause c /\ ~ LimitClause c.
Proof.
  intros H1 H2 p c E. split; intros Hc.
  - apply Lang_rLimitOffset in Hc. exact (find_None_inv _ _ H1 p c E Hc).
  - apply Lang_rLimit in Hc. exact (find_None_inv _ _ H2 p c E Hc).
Qed.

Lemma spells_LIMIT : spells "limit" "LIMIT".
Proof. repeat (apply spells_byte; [now right|]). constructor. Qed.

Lemma spells_OFFSET : spells "offset" "OFFSET".
Proof. repeat (apply spells_byte; [now right|]). constructor. Qed.

Lemma spells_limit_lower : spells "limit" "limit".
Proof. repeat (apply spells_byte; [now left|]). constructor. Qed.

(** * The resolver runs to completion *)

Section EngineFacts.
Variable E : Env.

Lemma extends_refl (w : World) : extends w w.
Proof.
  repeat split. exists []. split; [now rewrite app_nil_r | constructor].
Qed.

Lemma extends_trans (w1 w2 w3 : World) :
  extends w1 w2 -> extends w2 w3 -> extends w1 w3.
Proof.
  intros (Hc & Hp & evs & Ht & Hq) (Hc' & Hp' & evs' & Ht' & Hq').
  split; [congruence|]. split; [congruence|].
  exists (evs ++ evs'). split.
  - rewrite Ht', Ht. now rewrite <- app_assoc.
  - apply Forall_app. now split.
Qed.

Lemma extends_emit (w : World) (evs : list Event) :
  Forall not_eager evs -> extends w (with_trace (trace w ++ evs) w).
Proof. intros H. repeat split. now exists evs. Qed.

Lemma Q_Ok (c : loc) (w : World) (x : Connection.t) :
  conns w !! c = Some x ->
  Q c w = Ok (Query.mk (mkClause "" []) 0 [] (Connection.eager x) [] [] []
                None c) w.
Proof. intros H. unfold Q, bind, readConn, ret. now rewrite H. Qed.

Lemma First_not_eager resolve (q : Query.t) (m : Model) (w : World)
  (x : Connection.t) :
  Query.eager q = false -> conns w !! Query.Connection q = Some x ->
  First_ E resolve q m w =
    match Dialect_SelectOne E (Limit 1 q) m with
    | Some e =>
        Ok (Limit 1 q, Some e)
          (with_trace (trace w ++ [EvSelectOne (Limit 1 q) m]) w)
    | None =>
        Ok (Limit 1 q, afterFind E m)
          (with_trace (trace w ++ [EvSelectOne (Limit 1 q) m; EvAfterFind m]) w)
    end.
Proof.
  intros He Hc.
  unfold First_, First_fetch, timeFunc, SelectOne, runAfterFind, finish, bind,
    readConn, emit, ret.
  cbn. rewrite Hc.
  destruct (Dialect_SelectOne E (Limit 1 q) m) as [e|]; [reflexivity|].
  cbn. rewrite <- app_assoc. cbn.
  destruct (afterFind E m) as [e|]; [reflexivity|].
  rewrite He. reflexivity.
Qed.

Lemma All_not_eager resolve (q : Query.t) (m : Model) (w : World)
  (x : Connection.t) :
  Query.eager q = false -> Query.Paginator q = None ->
  conns w !! Query.Connection q = Some x ->
  All_ E resolve q m w =
    match Dialect_SelectMany E q m with
    | Some e =>
        Ok (q, Some (ErrWrap e "unable to fetch records"))
          (with_trace (trace w ++ [EvSelectMany q m]) w)
    | None =>
        Ok (q, match afterFind E m with
               | Some e => Some (ErrWrap e "unable to fetch records")
               | None => None
               end)
          (with_trace (trace w ++ [EvSelectMany q m; EvAfterFind m]) w)
    end.
Proof.
  intros He Hp Hc.
  unfold All_, All_fetch, timeFunc, SelectMany, runAfterFind, paginateModel,
    finish, bind, readConn, emit, ret.
  cbn. rewrite Hc.
  destruct (Dialect_SelectMany E q m) as [e|]; [reflexivity|].
  rewrite Hp. cbn. rewrite <- app_assoc. cbn.
  destruct (afterFind E m) as [e|]; [reflexivity|].
  rewrite He. reflexivity.
Qed.

Lemma subQuery_Ok (c : loc) (a : Association) (w : World) (x : Connection.t) :
  conns w !! c = Some x ->
  exists query,
    subQuery E c a w = Ok query w
    /\ Query.eager query = Connection.eager x
    /\ Query.Paginator query = None
    /\ Query.Connection query = c.
Proof.
  intros Hc. unfold subQuery, bind. rewrite (Q_Ok c w x Hc).
  destruct (Constraint a) as [whereCondition args].
  destruct (ToSQL E _ (Interface a)) as [sqlSentence args'].
  eexists. split; [reflexivity|].
  destruct (OrderBy a) as [o|]; [destruct (String.eqb o "")|]; now cbn.
Qed.

Lemma fetch_not_eager self (query : Query.t) (a : Association)
  (err : option error) (w : World) (x : Connection.t) :
  Query.eager query = false -> Query.Paginator query = None ->
  conns w !! Query.Connection query = Some x ->
  exists query' err' w',
    fetch E self query a err w = Ok (query', err') w'
    /\ Query.Connection query' = Query.Connection query
    /\ extends w w'.
Proof.
  intros He Hp Hc. unfold fetch, bind.
  destruct (AKind a).
  - rewrite (All_not_eager _ _ _ _ x He Hp Hc).
    destruct (Dialect_SelectMany E query (Interface a));
      do 3 eexists; (split; [reflexivity|]); (split; [reflexivity|]);
      apply extends_emit; repeat constructor; assumption.
  - rewrite (All_not_eager _ _ _ _ x He Hp Hc).
    destruct (Dialect_SelectMany E query (Interface a));
      do 3 eexists; (split; [reflexivity|]); (split; [reflexivity|]);
      apply extends_emit; repeat constructor; assumption.
  - cbn. rewrite (First_not_eager _ _ _ _ x He Hc).
    destruct (Dialect_SelectOne E (Limit 1 query) (Interface a));
      do 3 eexists; (split; [reflexivity|]); (split; [reflexivity|]);
      apply extends_emit; repeat constructor; assumption.
  - cbn. do 3 eexists. split; [reflexivity|]. split; [reflexivity|].
    apply extends_refl.
Qed.

Lemma resolved_extends (q : Query.t) (w w' : World) r :
  conns w !! Query.Connection q = Some (Connection.mk false) ->
  resolved q w r w' -> extends w w'.
Proof.
  intros Hc (_ & Hconns & Hp & Ht). split; [|now split].
  destruct Hconns as [-> | ->]; [reflexivity|]. now apply insert_id.
Qed.

Lemma inners_spec (FieldByName : string -> Model) (query : Query.t) :
  (forall name q w,
      is_Some (conns w !! Query.Connection q) ->
      exists r w', eagerAssociations E (FieldByName name) q w = Ok r w'
                   /\ resolved q w r w') ->
  forall il err w,
    conns w !! Query.Connection query = Some (Connection.mk false) ->
    exists r w',
      inners (eagerAssociations E) FieldByName query il err w = Ok r w'
      /\ extends w w'.
Proof.
  intros IH il. induction il as [|inner il IHil]; intros err w Hc; cbn.
  - do 2 eexists. split; [reflexivity | apply extends_refl].
  - unfold bind. rewrite (Q_Ok _ _ _ Hc).
    match goal with
    | |- context [eagerAssociations E ?v ?iq w] =>
        destruct (IH (Name inner) iq w) as ([q' e'] & w1 & Hrun & Hres);
        [cbn; rewrite Hc; eauto|]
    end.
    rewrite Hrun. cbn.
    apply resolved_extends in Hres; [|exact Hc].
    destruct e' as [e|].
    + do 2 eexists. split; [reflexivity | exact Hres].
    + destruct (IHil None w1) as (r & w2 & Hrun2 & Hext).
      { destruct Hres as (-> & _). exact Hc. }
      rewrite Hrun2. do 2 eexists. split; [reflexivity|].
      eapply extends_trans; eassumption.
Qed.

Lemma each_spec (FieldByName : string -> Model) (q : Query.t) :
  (forall name q w,
      is_Some (conns w !! Query.Connection q) ->
      exists r w', eagerAssociations E (FieldByName name) q w = Ok r w'
                   /\ resolved q w r w') ->
  forall l err w,
    conns w !! Query.Connection q = Some (Connection.mk false) ->
    exists r w',
      each E (eagerAssociations E) FieldByName q l err w = Ok r w'
      /\ extends w w'.
Proof.
  intros IH l. induction l as [|a l IHl]; intros err w Hc; cbn.
  - do 2 eexists. split; [reflexivity | apply extends_refl].
  - destruct (Skipped a); [now apply IHl|].
    unfold bind.
    destruct (subQuery_Ok _ a _ _ Hc) as (query & -> & He & Hp & Hq).
    destruct (fetch_not_eager (eagerAssociations E) query a err w
                (Connection.mk false))
      as (query' & err' & w1 & -> & Hq' & Hext1); [exact He | exact Hp | |].
    { now rewrite Hq. }
    destruct (fatal err').
    { do 2 eexists. split; [reflexivity | exact Hext1]. }
    assert (Hc1 : conns w1 !! Query.Connection q = Some (Connection.mk false)).
    { destruct Hext1 as (-> & _). exact Hc. }
    destruct (inners_spec FieldByName query' IH (InnerAssociations a) err' w1)
      as ([returned err2] & w2 & -> & Hext2).
    { now rewrite Hq', Hq. }
    assert (Hext : extends w w2) by (eapply extends_trans; eassumption).
    destruct returned.
    { do 2 eexists. split; [reflexivity | exact Hext]. }
    destruct (IHl err2 w2) as (r & w3 & -> & Hext3).
    { destruct Hext2 as (-> & _). exact Hc1. }
    do 2 eexists. split; [reflexivity|].
    eapply extends_trans; eassumption.
Qed.

Lemma resolved_refl (q : Query.t) (w : World) (err : option error) :
  resolved q w (q, err) w.
Proof.
  split; [now left|]. split; [now left|]. split; [reflexivity|].
  exists []. split; [now rewrite app_nil_r | constructor].
Qed.

Lemma resolved_trans (q : Query.t) (w w1 w2 : World) r1 r2 :
  resolved q w r1 w1 -> resolved (fst r1) w1 r2 w2 -> resolved q w r2 w2.
Proof.
  intros (Hq & Hc & Hp & evs & Ht & Hev) (Hq' & Hc' & Hp' & evs' & Ht' & Hev').
  assert (HC : Query.Connection (fst r1) = Query.Connection q)
    by (destruct Hq as [-> | ->]; reflexivity).
  rewrite HC in Hc'.
  split; [|split; [|split]].
  - destruct Hq as [Hq | Hq]; rewrite Hq in Hq'; destruct Hq' as [-> | ->];
      auto.
  - destruct Hc as [Hc | Hc]; rewrite Hc in Hc'; destruct Hc' as [-> | ->];
      auto.
    right. apply insert_insert_eq.
  - congruence.
  - exists (evs ++ evs'). split.
    + rewrite Ht', Ht. now rewrite <- app_assoc.
    + apply Forall_app. now split.
Qed.

Lemma resolved_allocated (q : Query.t) (w w' : World) r :
  is_Some (conns w !! Query.Connection q) -> resolved q w r w' ->
  is_Some (conns w' !! Query.Connection (fst r)).
Proof.
  intros Hc (Hq & Hconns & _).
  assert (HC : Query.Connection (fst r) = Query.Connection q)
    by (destruct Hq as [-> | ->]; reflexivity).
  rewrite HC. destruct Hconns as [-> | ->]; [exact Hc|].
  rewrite lookup_insert_eq. eauto.
Qed.

Lemma elements_spec (l : list Model) :
  Forall (resolves E) l ->
  forall q w,
    is_Some (conns w !! Query.Connection q) ->
    exists r w',
      elements (eagerAssociations E) l q w = Ok r w' /\ resolved q w r w'.
Proof.
  induction 1 as [|v l Hv _ IHl]; intros q w Hc; cbn.
  - do 2 eexists. split; [reflexivity | apply resolved_refl].
  - unfold bind. destruct (Hv q w Hc) as ([q1 e1] & w1 & -> & Hres1).
    destruct e1 as [e|].
    + do 2 eexists. split; [reflexivity | exact Hres1].
    + destruct (IHl q1 w1) as (r2 & w2 & -> & Hres2).
      { exact (resolved_allocated _ _ _ _ Hc Hres1). }
      do 2 eexists. split; [reflexivity|].
      exact (resolved_trans _ _ _ _ _ _ Hres1 Hres2).
Qed.

Lemma eagerAssociations_spec (m : Model) : resolves E m.
Proof.
  induction m as [typ elems IH | typ ForStruct FieldByName IHf _]
    using Model_induction.
  - intros q w Hc. cbn. now apply elements_spec.
  - intros q w Hc. cbn.
    destruct (ForStruct (Query.eagerFields q)) as [e | assos].
    { do 2 eexists. split; [reflexivity | apply resolved_refl]. }
    unfold bind, writeConn. cbn. destruct Hc as [x Hc]. rewrite Hc.
    set (w1 := with_conns _ w).
    destruct (each_spec FieldByName (Query.with_eager false q) IHf assos None w1)
      as (err & w2 & -> & Hc2 & Hp2 & Ht2).
    { cbn. apply lookup_insert_eq. }
    do 2 eexists. split; [reflexivity|].
    split; [now right|]. split; [right; exact Hc2|]. split; [exact Hp2|].
    exact Ht2.
Qed.

End EngineFacts.

(** ** Computations that leave the connections alone *)

Section Frame.
Variable E : Env.

Lemma frame_ret {A : Type} (P : A -> Prop) (a : A) : P a -> frame P (ret a).
Proof. intros H w r w' [= <- <-]. now split. Qed.

Lemma frame_bind {A B : Type} (P : A -> Prop) (R : B -> Prop)
  (m : M A) (k : A -> M B) :
  frame P m -> (forall a, P a -> frame R (k a)) -> frame R (bind m k).
Proof.
  intros Hm Hk w r w' H. unfold bind in H.
  destruct (m w) as [a w1 | p w1] eqn:Em; [|discriminate].
  destruct (Hm _ _ _ Em) as [Ha Hc].
  destruct (Hk a Ha _ _ _ H) as [Hr Hc']. split; [exact Hr | congruence].
Qed.

Lemma frame_weaken {A : Type} (P R : A -> Prop) (m : M A) :
  (forall a, P a -> R a) -> frame P m -> frame R m.
Proof. intros HPR Hm w r w' H. destruct (Hm _ _ _ H). split; auto. Qed.

Lemma frame_raise {A : Type} (P : A -> Prop) (p : panic) : frame P (raise p).
Proof. intros w r w' H. discriminate. Qed.

Lemma frame_readConn (c : loc) : frame (fun _ => True) (readConn c).
Proof.
  intros w r w'. unfold readConn. destruct (conns w !! c); [|discriminate].
  intros [= <- <-]. now split.
Qed.

Lemma frame_emit (e : Event) : frame (fun _ => True) (emit e).
Proof. intros w r w' [= <- <-]. now split. Qed.

Lemma frame_readPaginator (p : loc) : frame (fun _ => True) (readPaginator p).
Proof.
  intros w r w'. unfold readPaginator.
  destruct (paginators w !! p); [|discriminate].
  intros [= <- <-]. now split.
Qed.

Lemma frame_writePaginator (p : loc) (x : Paginator) :
  frame (fun _ => True) (writePaginator p x).
Proof.
  intros w r w'. unfold writePaginator.
  destruct (paginators w !! p); [|discriminate].
  intros [= <- <-]. now split.
Qed.

Lemma frame_assign (p : loc) (f : Paginator -> Paginator) :
  frame (fun _ => True) (assign p f).
Proof.
  unfold assign. eapply frame_bind; [apply frame_readPaginator|].
  intros pg _. apply frame_writePaginator.
Qed.

Lemma frame_divide (r : option Z) : frame (fun _ => True) (divide r).
Proof. destruct r; [now apply frame_ret | apply frame_raise]. Qed.

Lemma frame_Len (m : Model) : frame (fun _ => True) (Len m).
Proof. destruct m; [now apply frame_ret | apply frame_raise]. Qed.

Lemma frame_Q (c : loc) : frame (fun q => Query.Connection q = c) (Q c).
Proof.
  unfold Q. eapply frame_bind; [apply frame_readConn|].
  intros conn _. now apply frame_ret.
Qed.

Lemma frame_CountByField (q : Query.t) (m : Model) (field : string) :
  frame (fun _ => True) (CountByField E q m field).
Proof.
  unfold CountByField, timeFunc.
  eapply frame_bind; [apply frame_Q|]. intros tmp _.
  destruct (ToSQL E _ m) as [query args].
  eapply frame_bind; [apply frame_readConn|]. intros _ _.
  eapply frame_bind; [apply frame_emit|]. intros _ _.
  now apply frame_ret.
Qed.

Lemma frame_paginateModel (q : Query.t) (m : Model) :
  frame (fun r => fst r = q) (paginateModel E q m).
Proof.
  unfold paginateModel. destruct (Query.Paginator q) as [p|];
    [|now apply frame_ret].
  eapply frame_bind; [apply frame_CountByField|]. intros [ct [e|]] _;
    [now apply frame_ret|].
  eapply frame_bind; [apply frame_assign|]. intros _ _.
  eapply frame_bind; [apply frame_Len|]. intros n _.
  eapply frame_bind; [apply frame_assign|]. intros _ _.
  eapply frame_bind; [apply frame_readPaginator|]. intros pg _.
  eapply frame_bind; [apply frame_divide|]. intros tp _.
  eapply frame_bind; [apply frame_assign|]. intros _ _.
  eapply frame_bind; [apply frame_readPaginator|]. intros pg' _.
  eapply frame_bind; [apply frame_divide|]. intros r _.
  eapply frame_bind; [|intros _ _; now apply frame_ret].
  destruct (0 <? r); [apply frame_assign | now apply frame_ret].
Qed.

Lemma frame_SelectOne (q : Query.t) (m : Model) :
  frame (fun _ => True) (SelectOne E q m).
Proof.
  unfold SelectOne. eapply frame_bind; [apply frame_readConn|]. intros _ _.
  eapply frame_bind; [apply frame_emit|]. intros _ _. now apply frame_ret.
Qed.

Lemma frame_SelectMany (q : Query.t) (m : Model) :
  frame (fun _ => True) (SelectMany E q m).
Proof.
  unfold SelectMany. eapply frame_bind; [apply frame_readConn|]. intros _ _.
  eapply frame_bind; [apply frame_emit|]. intros _ _. now apply frame_ret.
Qed.

Lemma frame_runAfterFind (m : Model) : frame (fun _ => True) (runAfterFind E m).
Proof.
  unfold runAfterFind. eapply frame_bind; [apply frame_emit|]. intros _ _.
  now apply frame_ret.
Qed.

Lemma frame_First_fetch (q : Query.t) (m : Model) :
  frame (fun r => fst r = Limit 1 q) (First_fetch E q m).
Proof.
  unfold First_fetch. eapply frame_bind; [apply frame_SelectOne|].
  intros [e|] _; [now apply frame_ret|].
  eapply frame_bind; [apply frame_runAfterFind|]. intros err _.
  now apply frame_ret.
Qed.

Lemma frame_Last_fetch (q : Query.t) (m : Model) :
  frame (fun r => fst r = Order "created_at DESC, id DESC" (Limit 1 q))
    (Last_fetch E q m).
Proof.
  unfold Last_fetch. eapply frame_bind; [apply frame_SelectOne|].
  intros [e|] _; [now apply frame_ret|].
  eapply frame_bind; [apply frame_runAfterFind|]. intros err _.
  now apply frame_ret.
Qed.

Lemma frame_All_fetch (q : Query.t) (m : Model) :
  frame (fun r => fst r = q) (All_fetch E q m).
Proof.
  unfold All_fetch. eapply frame_bind; [apply frame_SelectMany|].
  intros [e|] _; [now apply frame_ret|].
  eapply frame_bind; [apply frame_paginateModel|].
  intros [q1 [e|]] Hq; cbn in Hq; subst q1; [now apply frame_ret|].
  eapply frame_bind; [apply frame_runAfterFind|]. intros err _.
  now apply frame_ret.
Qed.

(** A fetch that returned has found its connection. *)
Lemma SelectOne_allocated (q : Query.t) (m : Model) {A : Type}
  (k : option error -> M A) (w : World) r w' :
  bind (SelectOne E q m) k w = Ok r w' ->
  is_Some (conns w !! Query.Connection q).
Proof.
  unfold SelectOne, readConn, bind.
  destruct (conns w !! Query.Connection q); cbn; intros H;
    [eauto | discriminate].
Qed.

Lemma SelectMany_allocated (q : Query.t) (m : Model) {A : Type}
  (k : option error -> M A) (w : World) r w' :
  bind (SelectMany E q m) k w = Ok r w' ->
  is_Some (conns w !! Query.Connection q).
Proof.
  unfold SelectMany, readConn, bind.
  destruct (conns w !! Query.Connection q); cbn; intros H;
    [eauto | discriminate].
Qed.

End Frame.

(** ** The eager flag after a finder *)

Lemma finish_eager (E : Env) (model : Model) (q q1 : Query.t) (w : World) :
  Query.eager q1 = true ->
  Query.Connection q1 = Query.Connection q ->
  is_Some (conns w !! Query.Connection q) ->
  eager_reset q w (finish (eagerAssociations E model) q1 w).
Proof.
  intros He Hq Hc. unfold finish. rewrite He. unfold bind.
  rewrite <- Hq in Hc.
  destruct (eagerAssociations_spec E model q1 w Hc)
    as ([q2 e2] & w2 & -> & Hres).
  pose proof (resolved_allocated _ _ _ _ Hc Hres) as Hc2.
  destruct Hres as (Hq2 & _ & _ & Ht). cbn in Hq2, Hc2.
  assert (HC : Query.Connection q2 = Query.Connection q)
    by (destruct Hq2 as [-> | ->]; exact Hq).
  unfold disableEager, bind, writeConn, ret.
  destruct Hc2 as [x Hx]. rewrite Hx.
  exists (Query.with_eager false q2), e2. eexists.
  split; [reflexivity|]. split; [reflexivity|]. split; [exact HC|].
  cbn. rewrite HC. split; [apply lookup_insert_eq|]. split; [exact Ht|].
  eexists. split; [apply Q_Ok; cbn; apply lookup_insert_eq | reflexivity].
Qed.

Lemma finish_returns (E : Env) (model : Model) (q : Query.t) (w : World) :
  is_Some (conns w !! Query.Connection q) ->
  exists q' err w',
    finish (eagerAssociations E model) q w = Ok (q', err) w'
    /\ exists evs, trace w' = trace w ++ evs.
Proof.
  intros Hc. destruct (Query.eager q) eqn:He.
  - destruct (finish_eager E model q q w He eq_refl Hc)
      as (q' & err & w' & -> & _ & _ & _ & (evs & Ht & _) & _).
    do 3 eexists. split; [reflexivity | eauto].
  - unfold finish. rewrite He. do 3 eexists. split; [reflexivity|].
    exists []. now rewrite app_nil_r.
Qed.

(** ** Errors of an association's fetch *)

Lemma not_ErrNoRows_false (e : error) :
  Cause e = ErrNoRows -> not_ErrNoRows e = false.
Proof. unfold not_ErrNoRows. now intros ->. Qed.

Lemma not_ErrNoRows_true (e : error) :
  Cause e <> ErrNoRows -> not_ErrNoRows e = true.
Proof. unfold not_ErrNoRows. now destruct (Cause e). Qed.

(** ** Count and Exists work on a clone *)

(** The query that [Exists] and [CountByField] render: the clone of [q]
    on a fresh query of the same connection, without paginator, ORDER
    clauses and LIMIT. *)
Lemma aggregate_clone (q : Query.t) (x : Connection.t) :
  let tmpQuery :=
    Query.with_limitResults 0
      (Query.with_orderClauses []
         (Query.with_Paginator None
            (Clone q
               (Query.mk (mkClause "" []) 0 [] (Connection.eager x) [] [] []
                  None (Query.Connection q))))) in
  Query.Paginator tmpQuery = None
  /\ Query.orderClauses tmpQuery = []
  /\ Query.limitResults tmpQuery = 0
  /\ Query.whereClauses tmpQuery = Query.whereClauses q
  /\ Query.RawSQL tmpQuery = Query.RawSQL q
  /\ Query.addColumns tmpQuery = Query.addColumns q
  /\ Query.Connection tmpQuery = Query.Connection q.
Proof. cbn. repeat split. Qed.

(** ** Pagination *)

Lemma CountByField_inv (E : Env) (q : Query.t) (m : Model) (field : string)
  (w : World) r w1 :
  CountByField E q m field w = Ok r w1 ->
  conns w1 = conns w /\ paginators w1 = paginators w
  /\ exists sql args, trace w1 = trace w ++ [EvGet sql args].
Proof.
  unfold CountByField, timeFunc, Q, readConn, emit, ret, bind.
  destruct (conns w !! Query.Connection q); [|discriminate].
  destruct (ToSQL E _ m) as [query args]. cbn.
  destruct (conns w !! Query.Connection q); [|discriminate].
  intros [= <- <-]. cbn. eauto.
Qed.

Lemma assign_Ok (p : loc) (f : Paginator -> Paginator) (w : World)
  (pg : Paginator) :
  paginators w !! p = Some pg ->
  assign p f w = Ok tt (with_paginators (<[p := f pg]> (paginators w)) w).
Proof.
  intros H. unfold assign, bind, readPaginator, writePaginator.
  now rewrite H, H.
Qed.

Lemma bind_Ok {A B : Type} (m : M A) (k : A -> M B) (w : World) a w1 :
  m w = Ok a w1 -> bind m k w = k a w1.
Proof. intros H. unfold bind. now rewrite H. Qed.

Lemma bind_Panic {A B : Type} (m : M A) (k : A -> M B) (w : World) p w1 :
  m w = Panic p w1 -> bind m k w = Panic p w1.
Proof. intros H. unfold bind. now rewrite H. Qed.

Lemma readPaginator_Ok (p : loc) (w : World) (pg : Paginator) :
  paginators w !! p = Some pg -> readPaginator p w = Ok pg w.
Proof. intros H. unfold readPaginator. now rewrite H. Qed.

Ltac step :=
  cbn [paginators with_paginators conns trace set_CurrentEntriesSize
       set_TotalEntriesSize set_TotalPages PerPage TotalEntriesSize
       CurrentEntriesSize TotalPages].

Ltac lookup_paginator :=
  step; first [eassumption | apply lookup_insert_eq].

Ltac run_assign :=
  erewrite bind_Ok; [|apply assign_Ok; lookup_paginator].

Ltac run_read :=
  erewrite bind_Ok; [|apply readPaginator_Ok; lookup_paginator].

(** The run of [paginateModel] with a paginator attached, after a count
    that succeeded. *)
Lemma paginateModel_attached (E : Env) (q : Query.t) (typ : string)
  (elems : list Model) (w : World) (p : loc) (pg : Paginator) (ct : Z)
  (w1 : World) :
  Query.Paginator q = Some p ->
  paginators w !! p = Some pg ->
  Count E q (MSlice typ elems) w = Ok (ct, None) w1 ->
  let n := Z.of_nat (length elems) in
  paginateModel E q (MSlice typ elems) w =
    match GoInt.quo ct (PerPage pg), GoInt.rem ct (PerPage pg) with
    | Some tp, Some r =>
        Ok (q, None)
          (with_paginators
             (<[p := mkPaginator (PerPage pg) ct n
                       (if 0 <? r then GoInt.add tp 1 else tp)]>
                (paginators w)) w1)
    | _, _ =>
        Panic DivideByZero
          (with_paginators
             (<[p := mkPaginator (PerPage pg) ct n (TotalPages pg)]>
                (paginators w)) w1)
    end.
Proof.
  intros Hp Hpg Hct n. unfold paginateModel. rewrite Hp.
  rewrite (bind_Ok _ _ _ _ _ Hct). cbv beta iota.
  destruct (CountByField_inv _ _ _ _ _ _ _ Hct) as (_ & Hpag & _).
  rewrite <- Hpag in *. clear Hpag Hct w.
  run_assign.
  erewrite bind_Ok; [|reflexivity].
  run_assign. run_read. step.
  unfold GoInt.quo, GoInt.rem.
  destruct (PerPage pg =? 0) eqn:Ez.
  { erewrite bind_Panic; [|reflexivity]. unfold with_paginators. step.
    now rewrite insert_insert_eq. }
  erewrite bind_Ok; [|reflexivity].
  run_assign. run_read. step. rewrite Ez.
  erewrite bind_Ok; [|reflexivity].
  destruct (0 <? Z.rem ct (PerPage pg)).
  - run_assign. unfold ret, with_paginators. step.
    now rewrite !insert_insert_eq.
  - erewrite bind_Ok; [|reflexivity]. unfold ret, with_paginators. step.
    now rewrite !insert_insert_eq.
Qed.

Lemma total_pages_ceil (ct pp : Z) :
  0 <= ct -> 0 < pp -> GoInt.in_range ct -> GoInt.in_range pp ->
  let tp := GoInt.wrap (Z.quot ct pp) in
  let pages := if 0 <? Z.rem ct pp then GoInt.add tp 1 else tp in
  (pages - 1) * pp < ct <= pages * pp /\ (pages = 0 <-> ct = 0).
Proof.
  intros Hct Hpp Rct Rpp.
  pose proof (Z.quot_rem' ct pp) as Hqr.
  pose proof (Z.rem_bound_pos ct pp Hct Hpp) as Hr.
  assert (Hq : 0 <= Z.quot ct pp) by (apply Z.quot_pos; lia).
  assert (Hle : Z.quot ct pp <= ct) by nia.
  unfold GoInt.in_range, GoInt.min_int, GoInt.max_int in *.
  cbv zeta. rewrite (wrap_id (Z.quot ct pp))
    by (unfold GoInt.in_range, GoInt.min_int, GoInt.max_int; lia).
  destruct (0 <? Z.rem ct pp) eqn:Er.
  - apply Z.ltb_lt in Er. unfold GoInt.add.
    rewrite wrap_id
      by (unfold GoInt.in_range, GoInt.min_int, GoInt.max_int; nia).
    split; [nia | split; nia].
  - apply Z.ltb_ge in Er. assert (Z.rem ct pp = 0) by lia.
    split; [nia | split; nia].
Qed.

Lemma in_range_small (z : Z) : -1000 <= z <= 1000 -> GoInt.in_range z.
Proof. unfold GoInt.in_range, GoInt.min_int, GoInt.max_int. lia. Qed.

(** ** Select *)

Lemma Select_addColumns (fields : list string) :
  forall q,
    Select fields q
    = Query.with_addColumns
        (Query.addColumns q
           ++ List.filter (fun f => negb (String.eqb (strings.TrimSpace f) ""))
                fields) q.
Proof.
  unfold Select. induction fields as [|f fields IH]; intros q; cbn [fold_left].
  - cbn [List.filter]. rewrite app_nil_r. destruct q. reflexivity.
  - rewrite IH. cbn [List.filter].
    destruct (negb (String.eqb (strings.TrimSpace f) "")).
    + unfold Query.with_addColumns. cbn. now rewrite <- app_assoc.
    + reflexivity.
Qed.

(** ** The targets of a fetch *)

Lemma Type_eqb_refl (t : reflect.Type_) : reflect.Type_eqb t t = true.
Proof.
  induction t as [n | t IH]; cbn; [apply String.eqb_refl | exact IH].
Qed.







(** Whatever the heap, the engine's side of the iteration is [subQuery]
    followed by [fetch]. *)
Lemma resolveInto_erase (E : Env) scan (h : hasOne.handles) (c : loc)
  (a : Association) (err0 : option error) (heap : list reflect.Var)
  (w : World) query' err' heap' w' :
  resolveInto E scan h c a err0 heap w = Ok (Some (query', err', heap')) w' ->
  (query <- subQuery E c a ;; fetch E (eagerAssociations E) query a err0) w
  = Ok (query', err') w'.
Proof.
  unfold resolveInto, subQueryInto, subQuery, bind.
  destruct (Q c w) as [q0 w0 | p w0]; [|discriminate].
  destruct (Constraint a) as [whereCondition args].
  destruct (hasOne.Interface h heap) as [[t1 heap1]|]; [|discriminate].
  destruct (ToSQL E _ (Interface a)) as [sqlSentence args'].
  unfold ret. unfold fetchInto, fetch, bind.
  destruct (AKind a).
  - destruct (hasOne.Interface h heap1) as [[t2 heap2]|]; [|discriminate].
    destruct (All_ E _ _ (Interface a) w0) as [[q1 e1] w1 | p w1];
      [|discriminate].
    cbn. intros [= <- <- <- <-]. reflexivity.
  - destruct (hasOne.Interface h heap1) as [[t2 heap2]|]; [|discriminate].
    destruct (All_ E _ _ (Interface a) w0) as [[q1 e1] w1 | p w1];
      [|discriminate].
    cbn. intros [= <- <- <- <-]. reflexivity.
  - destruct (hasOne.Interface h heap1) as [[t2 heap2]|]; [|discriminate].
    cbn.
    destruct (First_ E _ _ (Interface a) w0) as [[q1 e1] w1 | p w1];
      [|discriminate].
    cbn. intros [= <- <- <- <-]. reflexivity.
  - cbn. intros [= <- <- <- <-]. reflexivity.
Qed.

(** * The statements *)

(** C1 (amended). [Last] is [First] on the query to which [Order] has
    added [created_at DESC, id DESC]: the single-row SELECT it executes
    has LIMIT 1 and, as ORDER clauses, the clauses the caller chained, in
    their order, followed by [created_at DESC, id DESC].  The caller's
    clauses are kept and come first. *)
Theorem C1_Last_adds_order_after_callers (E : Env) (q : Query.t)
  (model : Model) (w : World) :
  is_Some (conns w !! Query.Connection q) ->
  let q1 := Order "created_at DESC, id DESC" (Limit 1 q) in
  Last E q model = First E (Order "created_at DESC, id DESC" q) model
  /\ Query.limitResults q1 = 1
  /\ Query.orderClauses q1
     = Query.orderClauses q ++ [mkClause "created_at DESC, id DESC" []]
  /\ exists q' err w' evs,
       Last E q model w = Ok (q', err) w'
       /\ trace w' = trace w ++ EvSelectOne q1 model :: evs.
Proof.
  intros [x Hc] q1. split; [reflexivity|]. split; [reflexivity|].
  split; [reflexivity|].
  unfold Last, Last_, Last_fetch, timeFunc, SelectOne, runAfterFind, bind,
    readConn, emit, ret.
  cbn [Query.Connection Order Limit Query.with_orderClauses
       Query.with_limitResults].
  rewrite Hc. fold q1.
  destruct (Dialect_SelectOne E q1 model) as [e|].
  - do 4 eexists. split; [reflexivity|]. cbn. reflexivity.
  - cbn [trace with_trace conns paginators].
    destruct (afterFind E model) as [e|].
    + do 4 eexists. split; [reflexivity|]. cbn.
      rewrite <- app_assoc. reflexivity.
    + match goal with
      | |- context [finish _ q1 ?w1] =>
          destruct (finish_returns E model q1 w1)
            as (q' & err & w' & -> & evs & Ht); [cbn; rewrite Hc; eauto|]
      end.
      do 4 eexists. split; [reflexivity|]. rewrite Ht. cbn.
      rewrite <- !app_assoc. reflexivity.
Qed.

Lemma C1_Last_adds_order_witness :
  exists q' err w' evs,
    Last Sample.env (Order "name ASC" Sample.query) Sample.user Sample.world
      = Ok (q', err) w'
    /\ trace w'
       = trace Sample.world
           ++ EvSelectOne
                (Order "created_at DESC, id DESC"
                   (Limit 1 (Order "name ASC" Sample.query))) Sample.user
           :: evs.
Proof.
  apply (C1_Last_adds_order_after_callers Sample.env
           (Order "name ASC" Sample.query) Sample.user Sample.world).
  eexists. reflexivity.
Defined.

(** After [.Order("name ASC")], the SELECT that [Last] executes is ordered
    by [name ASC] first: the caller's order is not replaced. *)
Lemma C1_Last_counterexample :
  exists q1 evs,
    trace (world_of (Last Sample.env (Order "name ASC" Sample.query)
                       Sample.user Sample.world))
      = EvSelectOne q1 Sample.user :: evs
    /\ Query.orderClauses q1
       = [mkClause "name ASC" []; mkClause "created_at DESC, id DESC" []]
    /\ Query.orderClauses q1 <> [mkClause "created_at DESC, id DESC" []].
Proof.
  do 2 eexists. split; [vm_compute; reflexivity|].
  split; [reflexivity | discriminate].
Qed.

(** C2. For a string identifier [t]: if [t] is not empty and does not
    start with ['0'], or is one byte long, [Find] parses it as an integer
    and looks up the integer when that succeeds and the string itself when
    it fails; if [t] starts with ['0'] and is longer than one byte, [Find]
    looks up the string itself. *)
Theorem C2_Find_string_id (E : Env) (q : Query.t) (model : Model)
  (t : string) :
  (t <> "" ->
   GoString.head t <> Some "0"%char \/ String.length t = 1%nat ->
   (forall n, strconv.Atoi t = Some n ->
              Find E q model (VString t)
              = First E (Where (whereID E model) [VInt n] q) model)
   /\ (strconv.Atoi t = None ->
       Find E q model (VString t)
       = First E (Where (whereID E model) [VString t] q) model))
  /\ (GoString.head t = Some "0"%char -> (1 < String.length t)%nat ->
      Find E q model (VString t)
      = First E (Where (whereID E model) [VString t] q) model).
Proof.
  unfold Find, GoString.len. split.
  - intros Hne Hlead.
    assert (Hl : (0 <? Z.of_nat (String.length t)) = true).
    { destruct t; [contradiction|]. cbn [String.length]. apply Z.ltb_lt. lia. }
    rewrite Hl.
    assert (Hg : negb (match GoString.head t with
                       | Some c => Ascii.eqb c "0"
                       | None => false
                       end) || (Z.of_nat (String.length t) =? 1) = true).
    { destruct Hlead as [Hh | Hone].
      - destruct (GoString.head t) as [c|]; [|reflexivity].
        destruct (Ascii.eqb_spec c "0") as [-> | _]; [now destruct Hh|].
        reflexivity.
      - rewrite Hone. apply orb_true_r. }
    rewrite Hg. split.
    + intros n ->. reflexivity.
    + intros ->. reflexivity.
  - intros Hh Hlen. rewrite Hh, Ascii.eqb_refl.
    destruct (0 <? Z.of_nat (String.length t)); [|reflexivity].
    replace (Z.of_nat (String.length t) =? 1) with false
      by (symmetry; apply Z.eqb_neq; lia).
    reflexivity.
Qed.

Lemma C2_Find_string_id_witness :
  Find Sample.env Sample.query Sample.user (VString "42")
    = First Sample.env
        (Where (whereID Sample.env Sample.user) [VInt 42] Sample.query)
        Sample.user
  /\ Find Sample.env Sample.query Sample.user (VString "4x2")
     = First Sample.env
         (Where (whereID Sample.env Sample.user) [VString "4x2"] Sample.query)
         Sample.user
  /\ Find Sample.env Sample.query Sample.user (VString "007")
     = First Sample.env
         (Where (whereID Sample.env Sample.user) [VString "007"] Sample.query)
         Sample.user.
Proof.
  split; [|split].
  - refine (proj1 (proj1 (C2_Find_string_id Sample.env Sample.query
                            Sample.user "42") _ _) 42 _).
    + discriminate.
    + left. discriminate.
    + reflexivity.
  - refine (proj2 (proj1 (C2_Find_string_id Sample.env Sample.query
                            Sample.user "4x2") _ _) _).
    + discriminate.
    + left. discriminate.
    + reflexivity.
  - refine (proj2 (C2_Find_string_id Sample.env Sample.query Sample.user
                     "007") _ _).
    + reflexivity.
    + cbn. lia.
Defined.

(** The guard, not the parser, keeps the leading zeros: ["007"] parses. *)
Example Find_007_would_parse : strconv.Atoi "007" = Some 7.
Proof. reflexivity. Qed.

Example Find_0 :
  Find Sample.env Sample.query Sample.user (VString "0")
    = First Sample.env
        (Where (whereID Sample.env Sample.user) [VInt 0] Sample.query)
        Sample.user.
Proof. reflexivity. Qed.

Example Find_empty :
  Find Sample.env Sample.query Sample.user (VString "")
    = First Sample.env
        (Where (whereID Sample.env Sample.user) [VString ""] Sample.query)
        Sample.user.
Proof. reflexivity. Qed.

(** C3. The rewriting that [Count] and [Exists] apply removes a trailing
    [LIMIT <int> OFFSET <int>] as a whole and a trailing [LIMIT <int>]
    (keywords in any case, clause at the very end of the text), and what
    is left is the text before the LIMIT keyword; a text that does not end
    in either clause comes back as it is. *)
Theorem C3_stripLimit_trailing_clause :
  (forall p c, LimitOffsetClause c -> stripLimit (p +:+ c) = p)
  /\ (forall p c, LimitClause c -> stripLimit (p +:+ c) = p)
  /\ (forall s,
        (forall p c, s = p +:+ c -> ~ LimitOffsetClause c /\ ~ LimitClause c) ->
        stripLimit s = s).
Proof.
  split; [|split].
  - intros p c Hc. unfold stripLimit, regexp.MatchString, regexp.FindString.
    rewrite (find_clause rLimitOffset LimitOffsetClause p c
               Lang_rLimitOffset LimitOffsetClause_unique Hc).
    apply slice_to_app.
  - intros p c Hc. unfold stripLimit, regexp.MatchString, regexp.FindString.
    rewrite (find_None (regexp.expr rLimitOffset) (p +:+ c)).
    + rewrite (find_clause rLimit LimitClause p c
                 Lang_rLimit LimitClause_unique Hc).
      apply slice_to_app.
    + intros p' c' E HL. apply Lang_rLimitOffset in HL.
      exact (LimitClause_not_LimitOffset p c p' c' Hc HL E).
  - intros s H. unfold stripLimit, regexp.MatchString.
    rewrite (find_None (regexp.expr rLimitOffset) s),
            (find_None (regexp.expr rLimit) s); [reflexivity | |].
    + intros p c E HL. apply Lang_rLimit in HL. now destruct (H p c E).
    + intros p c E HL. apply Lang_rLimitOffset in HL. now destruct (H p c E).
Qed.

Lemma C3_stripLimit_witness :
  stripLimit ("SELECT * FROM users " +:+ "LIMIT 10 OFFSET 20")
    = "SELECT * FROM users "
  /\ stripLimit ("SELECT * FROM users " +:+ "limit 5") = "SELECT * FROM users "
  /\ stripLimit "SELECT * FROM users" = "SELECT * FROM users".
Proof.
  split; [|split].
  - apply (proj1 C3_stripLimit_trailing_clause).
    exists "LIMIT", "10", "OFFSET", "20".
    split; [exact spells_LIMIT|]. split; [split; [discriminate | reflexivity]|].
    split; [exact spells_OFFSET|]. split; [split; [discriminate | reflexivity]|].
    reflexivity.
  - apply (proj1 (proj2 C3_stripLimit_trailing_clause)).
    exists "limit", "5".
    split; [exact spells_limit_lower|].
    split; [split; [discriminate | reflexivity] | reflexivity].
  - apply (proj2 (proj2 C3_stripLimit_trailing_clause)).
    apply no_trailing_clause; vm_compute; reflexivity.
Defined.

Example stripLimit_offset :
  stripLimit "SELECT * FROM users LIMIT 10 OFFSET 20" = "SELECT * FROM users ".
Proof. vm_compute. reflexivity. Qed.

Example stripLimit_limit :
  stripLimit "SELECT * FROM users limit 5" = "SELECT * FROM users ".
Proof. vm_compute. reflexivity. Qed.

Example stripLimit_none :
  stripLimit "SELECT * FROM users" = "SELECT * FROM users".
Proof. vm_compute. reflexivity. Qed.

(** A LIMIT that is not at the end stays. *)
Example stripLimit_inner :
  stripLimit "SELECT * FROM (SELECT 1 LIMIT 3) t"
  = "SELECT * FROM (SELECT 1 LIMIT 3) t".
Proof. vm_compute. reflexivity. Qed.

(** The long s is an [s] to the pattern compiler. *)
Example stripLimit_long_s :
  stripLimit ("SELECT 1 LIMIT 1 OFF" +:+ regexp.long_s +:+ "ET 2") = "SELECT 1 ".
Proof. vm_compute. reflexivity. Qed.

(** C4. [Exists] and [CountByField] (so [Count]) hand back the receiver as
    it was, leave every connection and every paginator of the store as it
    was, and make one call: the aggregate statement rendered from the
    clone, which has the WHERE clauses of the original and no paginator,
    no ORDER clause and no LIMIT. *)
Theorem C4_Exists_Count_leave_query_unchanged (E : Env) (q : Query.t)
  (model : Model) (field : string) (w : World) (x : Connection.t) :
  conns w !! Query.Connection q = Some x ->
  exists tmpQuery,
    (Query.Paginator tmpQuery = None
     /\ Query.orderClauses tmpQuery = []
     /\ Query.limitResults tmpQuery = 0
     /\ Query.whereClauses tmpQuery = Query.whereClauses q)
    /\ (let existsQuery :=
          "SELECT EXISTS (" +:+ stripLimit (fst (ToSQL E tmpQuery model))
            +:+ ")" in
        let args := snd (ToSQL E tmpQuery model) in
        exists w',
          Exists E q model w = Ok (q, Store_GetBool E existsQuery args) w'
          /\ conns w' = conns w /\ paginators w' = paginators w
          /\ trace w' = trace w ++ [EvGet existsQuery args])
    /\ (let countQuery :=
          "SELECT COUNT(" +:+ field +:+ ") AS row_count FROM ("
            +:+ stripLimit (fst (ToSQL E tmpQuery model)) +:+ ") a" in
        let args := snd (ToSQL E tmpQuery model) in
        exists w',
          CountByField E q model field w
            = Ok (Store_GetInt E countQuery args) w'
          /\ conns w' = conns w /\ paginators w' = paginators w
          /\ trace w' = trace w ++ [EvGet countQuery args]).
Proof.
  intros Hc. eexists. split; [|split].
  - pose proof (aggregate_clone q x) as H. cbn zeta in H.
    destruct H as (H1 & H2 & H3 & H4 & _).
    split; [exact H1|]. split; [exact H2|]. split; [exact H3 | exact H4].
  - cbn zeta. unfold Exists, timeFunc, bind. rewrite (Q_Ok _ _ _ Hc).
    destruct (ToSQL E _ model) as [query args] eqn:Esql. cbn [fst snd].
    unfold readConn, emit, ret. rewrite Hc.
    eexists. split; [reflexivity|]. repeat split.
  - cbn zeta. unfold CountByField, timeFunc, bind. rewrite (Q_Ok _ _ _ Hc).
    destruct (ToSQL E _ model) as [query args] eqn:Esql. cbn [fst snd].
    unfold readConn, emit, ret. rewrite Hc.
    eexists. split; [reflexivity|]. repeat split.
Qed.

Lemma C4_Exists_Count_witness :
  (exists r w',
      Exists Sample.env (Order "name ASC" Sample.paged_query) Sample.users
        (Sample.paged 10)
      = Ok (Order "name ASC" Sample.paged_query, r) w'
      /\ conns w' = conns (Sample.paged 10)
      /\ paginators w' = paginators (Sample.paged 10))
  /\ (exists r w',
         Count Sample.env (Order "name ASC" Sample.paged_query) Sample.users
           (Sample.paged 10) = Ok r w'
         /\ conns w' = conns (Sample.paged 10)
         /\ paginators w' = paginators (Sample.paged 10)).
Proof.
  destruct (C4_Exists_Count_leave_query_unchanged Sample.env
              (Order "name ASC" Sample.paged_query) Sample.users "*"
              (Sample.paged 10) (Connection.mk false) eq_refl)
    as (tmpQuery & _ & (w1 & H1 & Hc1 & Hp1 & _) & (w2 & H2 & Hc2 & Hp2 & _)).
  split.
  - exists (Store_GetBool Sample.env
              ("SELECT EXISTS ("
                 +:+ stripLimit (fst (ToSQL Sample.env tmpQuery Sample.users))
                 +:+ ")")
              (snd (ToSQL Sample.env tmpQuery Sample.users))), w1.
    split; [exact H1 | split; [exact Hc1 | exact Hp1]].
  - exists (Store_GetInt Sample.env
              ("SELECT COUNT(" +:+ "*" +:+ ") AS row_count FROM ("
                 +:+ stripLimit (fst (ToSQL Sample.env tmpQuery Sample.users))
                 +:+ ") a")
              (snd (ToSQL Sample.env tmpQuery Sample.users))), w2.
    split; [exact H2 | split; [exact Hc2 | exact Hp2]].
Defined.

(** C5 (amended). With a paginator attached whose [PerPage] is positive,
    after a count that succeeded with a non-negative number of rows,
    [paginateModel] returns without error and leaves in the paginator the
    count, the number of elements of the collection, and [TotalPages] as
    the quotient rounded up: the least number of pages of [PerPage] rows
    that hold the count; [TotalPages] is zero exactly when the count is.
    Without a paginator, [paginateModel] does nothing. *)
Theorem C5_paginateModel_TotalPages (E : Env) (q : Query.t) :
  (forall typ elems w p pg ct w1,
      Query.Paginator q = Some p ->
      paginators w !! p = Some pg ->
      Count E q (MSlice typ elems) w = Ok (ct, None) w1 ->
      0 < PerPage pg -> GoInt.in_range (PerPage pg) ->
      0 <= ct -> GoInt.in_range ct ->
      exists w' pg',
        paginateModel E q (MSlice typ elems) w = Ok (q, None) w'
        /\ paginators w' !! p = Some pg'
        /\ PerPage pg' = PerPage pg
        /\ TotalEntriesSize pg' = ct
        /\ CurrentEntriesSize pg' = Z.of_nat (length elems)
        /\ (TotalPages pg' - 1) * PerPage pg < ct <= TotalPages pg' * PerPage pg
        /\ (TotalPages pg' = 0 <-> ct = 0))
  /\ (Query.Paginator q = None ->
      forall models w, paginateModel E q models w = Ok (q, None) w).
Proof.
  split.
  - intros typ elems w p pg ct w1 Hp Hpg Hct Hpp Rpp H0 Rct.
    rewrite (paginateModel_attached E q typ elems w p pg ct w1 Hp Hpg Hct).
    unfold GoInt.quo, GoInt.rem.
    replace (PerPage pg =? 0) with false by (symmetry; apply Z.eqb_neq; lia).
    do 2 eexists. split; [reflexivity|].
    split; [cbn; apply lookup_insert_eq|]. cbn [PerPage TotalEntriesSize
      CurrentEntriesSize TotalPages].
    split; [reflexivity|]. split; [reflexivity|]. split; [reflexivity|].
    exact (total_pages_ceil ct (PerPage pg) H0 Hpp Rct Rpp).
  - intros Hp models w. unfold paginateModel. now rewrite Hp.
Qed.

Lemma C5_paginateModel_TotalPages_witness :
  (exists w' pg',
      paginateModel Sample.env Sample.paged_query Sample.users (Sample.paged 10)
        = Ok (Sample.paged_query, None) w'
      /\ paginators w' !! Sample.p1 = Some pg'
      /\ PerPage pg' = 10
      /\ TotalEntriesSize pg' = 23
      /\ CurrentEntriesSize pg' = 3
      /\ (TotalPages pg' - 1) * 10 < 23 <= TotalPages pg' * 10
      /\ (TotalPages pg' = 0 <-> 23 = 0))
  /\ paginateModel Sample.env Sample.query Sample.users Sample.world
     = Ok (Sample.query, None) Sample.world.
Proof.
  split.
  - eapply (proj1 (C5_paginateModel_TotalPages Sample.env Sample.paged_query)
              "Users" [Sample.user; Sample.user; Sample.user] (Sample.paged 10)
              Sample.p1 (mkPaginator 10 0 0 0) 23
              (world_of (Count Sample.env Sample.paged_query Sample.users
                           (Sample.paged 10)))).
    + reflexivity.
    + reflexivity.
    + vm_compute. reflexivity.
    + reflexivity.
    + apply in_range_small. cbn. lia.
    + lia.
    + apply in_range_small. lia.
  - apply (proj2 (C5_paginateModel_TotalPages Sample.env Sample.query)).
    reflexivity.
Defined.

(** A paginator with [PerPage = 0] is attached and the count succeeds, yet
    [paginateModel] does not return: no page count is set. *)
Lemma C5_paginateModel_counterexample :
  Query.Paginator Sample.paged_query = Some Sample.p1
  /\ (exists w1,
        Count Sample.env Sample.paged_query Sample.users (Sample.paged 0)
        = Ok (23, None) w1)
  /\ ~ (exists r w',
          paginateModel Sample.env Sample.paged_query Sample.users
            (Sample.paged 0) = Ok r w').
Proof.
  split; [reflexivity|].
  split; [eexists (world_of (Count Sample.env Sample.paged_query Sample.users
                               (Sample.paged 0))); vm_compute; reflexivity|].
  intros (r & w' & H). vm_compute in H. discriminate.
Qed.

Example pages_23_10 : pages_after 23 10 = Some 3.
Proof. vm_compute. reflexivity. Qed.

Example pages_20_10 : pages_after 20 10 = Some 2.
Proof. vm_compute. reflexivity. Qed.

Example pages_0_10 : pages_after 0 10 = Some 0.
Proof. vm_compute. reflexivity. Qed.

Example pages_23_0 : pages_after 23 0 = None.
Proof. vm_compute. reflexivity. Qed.

(** With a negative page size the division goes through and the page
    count is not the rounded-up quotient (which is [-2] here). *)
Example pages_23_minus_10 : pages_after 23 (-10) = Some (-1).
Proof. vm_compute. reflexivity. Qed.




(** C7 (amended). [Select] appends to the column list, in order and as
    they were given, exactly the arguments that are not blank, that is,
    not empty once white space is trimmed; it changes nothing else of the
    query.  [Select("name", " ", "email")] registers the two columns
    [name] and [email]. *)
Theorem C7_Select_appends_nonblank_fields (fields : list string)
  (q : Query.t) :
  Query.addColumns (Select fields q)
    = Query.addColumns q
        ++ List.filter (fun f => negb (String.eqb (strings.TrimSpace f) "")) fields
  /\ Select fields q
     = Query.with_addColumns (Query.addColumns (Select fields q)) q
  /\ Query.addColumns (Select ["name"; " "; "email"] Sample.query)
     = ["name"; "email"].
Proof.
  rewrite Select_addColumns. cbn [Query.addColumns Query.with_addColumns].
  split; [reflexivity|]. split; reflexivity.
Qed.

(** A column given with surrounding white space is registered with it. *)
Lemma C7_Select_counterexample :
  Query.addColumns (Select [" name "] Sample.query) = [" name "]
  /\ Query.addColumns (Select [" name "] Sample.query)
     <> Query.addColumns Sample.query ++ [strings.TrimSpace " name "].
Proof. split; [reflexivity | discriminate]. Qed.

(** C8. A terminal finder on a query in eager mode, once its own fetch has
    left no error so that association resolution runs, returns with the
    eager flag cleared on the query and on its connection, whether
    resolution succeeded or failed; every call made during resolution
    comes from a query that is not in eager mode, and a query opened on
    the connection afterwards is not in eager mode.  [Load] resolves
    unconditionally and leaves the connection with the flag cleared. *)
Theorem C8_eager_flag_reset (E : Env) (q : Query.t) (model : Model)
  (w : World) :
  Query.eager q = true ->
  (forall q1 w1, First_fetch E q model w = Ok (q1, None) w1 ->
                 eager_reset q w1 (First E q model w))
  /\ (forall q1 w1, Last_fetch E q model w = Ok (q1, None) w1 ->
                    eager_reset q w1 (Last E q model w))
  /\ (forall q1 w1, All_fetch E q model w = Ok (q1, None) w1 ->
                    eager_reset q w1 (All E q model w))
  /\ (forall c fields,
         is_Some (conns w !! c) ->
         exists err w',
           Load E c model fields w = Ok err w'
           /\ conns w' !! c = Some (Connection.mk false)
           /\ exists evs, trace w' = trace w ++ evs /\ Forall not_eager evs).
Proof.
  intros He. split; [|split; [|split]].
  - intros q1 w1 Hf. unfold First, First_, timeFunc, bind. rewrite Hf.
    pose proof (SelectOne_allocated E _ _ _ _ _ _ Hf) as Hc.
    destruct (frame_First_fetch E q model _ _ _ Hf) as [Hq1 Hconns].
    cbn in Hq1. subst q1. apply finish_eager; [exact He | reflexivity|].
    now rewrite Hconns.
  - intros q1 w1 Hf. unfold Last, Last_, timeFunc, bind. rewrite Hf.
    pose proof (SelectOne_allocated E _ _ _ _ _ _ Hf) as Hc.
    destruct (frame_Last_fetch E q model _ _ _ Hf) as [Hq1 Hconns].
    cbn in Hq1. subst q1. apply finish_eager; [exact He | reflexivity|].
    now rewrite Hconns.
  - intros q1 w1 Hf. unfold All, All_, timeFunc, bind. rewrite Hf.
    pose proof (SelectMany_allocated E _ _ _ _ _ _ Hf) as Hc.
    destruct (frame_All_fetch E q model _ _ _ Hf) as [Hq1 Hconns].
    cbn in Hq1. subst q1. apply finish_eager; [exact He | reflexivity|].
    now rewrite Hconns.
  - intros c fields [x Hc]. unfold Load, bind. rewrite (Q_Ok c w x Hc).
    match goal with
    | |- context [eagerAssociations E model ?q0 w] =>
        destruct (eagerAssociations_spec E model q0 w) as ([q2 e2] & w2 & -> & Hres);
        [cbn; rewrite Hc; eauto|];
        assert (Hc2 : is_Some (conns w2 !! Query.Connection q2))
          by (apply (resolved_allocated q0 w w2 (q2, e2)); [cbn; rewrite Hc; eauto | exact Hres]);
        destruct Hres as (Hq2 & _ & _ & Ht); cbn in Hq2;
        assert (HC : Query.Connection q2 = c)
          by (destruct Hq2 as [-> | ->]; reflexivity)
    end.
    unfold disableEager, bind, writeConn, ret.
    destruct Hc2 as [y Hy]. rewrite Hy. do 2 eexists.
    split; [reflexivity|]. cbn. rewrite HC.
    split; [apply lookup_insert_eq | exact Ht].
Qed.

Lemma C8_eager_flag_reset_witness :
  eager_reset Sample.query
    (world_of (First_fetch Sample.env Sample.query Sample.user Sample.world))
    (First Sample.env Sample.query Sample.user Sample.world)
  /\ eager_reset Sample.query
       (world_of (Last_fetch Sample.env Sample.query Sample.user Sample.world))
       (Last Sample.env Sample.query Sample.user Sample.world)
  /\ eager_reset Sample.query
       (world_of (All_fetch Sample.env Sample.query Sample.users Sample.world))
       (All Sample.env Sample.query Sample.users Sample.world)
  /\ (exists err w',
         Load Sample.env Sample.c1 Sample.user ["Profile"] Sample.world
         = Ok err w'
         /\ conns w' !! Sample.c1 = Some (Connection.mk false)
         /\ exists evs,
              trace w' = trace Sample.world ++ evs /\ Forall not_eager evs).
Proof.
  split; [|split; [|split]].
  - eapply (proj1 (C8_eager_flag_reset Sample.env Sample.query Sample.user
                     Sample.world eq_refl)).
    reflexivity.
  - eapply (proj1 (proj2 (C8_eager_flag_reset Sample.env Sample.query
                            Sample.user Sample.world eq_refl))).
    reflexivity.
  - eapply (proj1 (proj2 (proj2 (C8_eager_flag_reset Sample.env Sample.query
                                   Sample.users Sample.world eq_refl)))).
    reflexivity.
  - apply (proj2 (proj2 (proj2 (C8_eager_flag_reset Sample.env Sample.query
                                  Sample.user Sample.world eq_refl)))).
    eexists. reflexivity.
Defined.

(** When the finder's own fetch fails, resolution does not run and the
    flags stay as they were. *)
Remark First_fetch_error_keeps_eager (E : Env) (q : Query.t) (model : Model)
  (w : World) (x : Connection.t) (e : error) :
  conns w !! Query.Connection q = Some x ->
  Dialect_SelectOne E (Limit 1 q) model = Some e ->
  First E q model w
  = Ok (Limit 1 q, Some e)
      (with_trace (trace w ++ [EvSelectOne (Limit 1 q) model]) w).
Proof.
  intros Hc Hsel.
  unfold First, First_, First_fetch, timeFunc, SelectOne, bind, readConn, emit,
    ret.
  cbn [Query.Connection Limit Query.with_limitResults]. rewrite Hc.
  now rewrite Hsel.
Qed.

(** C9. Without a foreign-key override, the constraint of a has-one
    association is the lower-cased owner name followed by [_id = ?]; with
    an override it is the override column followed by [ = ?]; in both
    cases the bound arguments are the owner's identifier and nothing
    else. *)
Theorem C9_hasOne_SQLConstraint (ToLower : string -> string)
  (h : associations.hasOneAssociation) :
  (associations.fkID h = "" ->
   associations.SQLConstraint ToLower h
   = (ToLower (associations.ownerName h) +:+ "_id = ?",
      [associations.ownerID h]))
  /\ (associations.fkID h <> "" ->
      associations.SQLConstraint ToLower h
      = (associations.fkID h +:+ " = ?", [associations.ownerID h])).
Proof.
  unfold associations.SQLConstraint. split.
  - intros ->. reflexivity.
  - intros Hfk. apply String.eqb_neq in Hfk. now rewrite Hfk.
Qed.

Lemma C9_hasOne_SQLConstraint_witness :
  associations.SQLConstraint strings.asciiToLower
    (associations.mkHasOne (VInt 7) "User" "")
  = ("user_id = ?", [VInt 7])
  /\ associations.SQLConstraint strings.asciiToLower
       (associations.mkHasOne (VInt 7) "User" "owner_ref")
     = ("owner_ref = ?", [VInt 7]).
Proof.
  split.
  - apply (proj1 (C9_hasOne_SQLConstraint strings.asciiToLower
                    (associations.mkHasOne (VInt 7) "User" ""))).
    reflexivity.
  - apply (proj2 (C9_hasOne_SQLConstraint strings.asciiToLower
                    (associations.mkHasOne (VInt 7) "User" "owner_ref"))).
    discriminate.
Defined.

(** C10. With a paginator attached and after a count that succeeded,
    [paginateModel] divides by [PerPage] with no guard: under the
    precondition [PerPage > 0] it returns, and with [PerPage = 0] it
    panics with a division by zero, which is not an error return. *)
Theorem C10_paginateModel_divides_unguarded (E : Env) (q : Query.t)
  (typ : string) (elems : list Model) (w : World) (p : loc) (pg : Paginator)
  (ct : Z) (w1 : World) :
  Query.Paginator q = Some p ->
  paginators w !! p = Some pg ->
  Count E q (MSlice typ elems) w = Ok (ct, None) w1 ->
  (0 < PerPage pg ->
   exists w', paginateModel E q (MSlice typ elems) w = Ok (q, None) w')
  /\ (PerPage pg = 0 ->
      (exists w',
          paginateModel E q (MSlice typ elems) w = Panic DivideByZero w')
      /\ forall r w', paginateModel E q (MSlice typ elems) w <> Ok r w').
Proof.
  intros Hp Hpg Hct.
  rewrite (paginateModel_attached E q typ elems w p pg ct w1 Hp Hpg Hct).
  unfold GoInt.quo, GoInt.rem. split.
  - intros Hpp.
    replace (PerPage pg =? 0) with false by (symmetry; apply Z.eqb_neq; lia).
    eexists. reflexivity.
  - intros ->. cbn. split; [eexists; reflexivity | discriminate].
Qed.

Lemma C10_paginateModel_divides_unguarded_witness :
  (exists w',
      paginateModel Sample.env Sample.paged_query Sample.users (Sample.paged 10)
      = Ok (Sample.paged_query, None) w')
  /\ (exists w',
         paginateModel Sample.env Sample.paged_query Sample.users
           (Sample.paged 0) = Panic DivideByZero w').
Proof.
  split.
  - eapply (proj1 (C10_paginateModel_divides_unguarded Sample.env
                     Sample.paged_query "Users" [Sample.user; Sample.user; Sample.user]
                     (Sample.paged 10) Sample.p1
                     (mkPaginator 10 0 0 0) 23
                     (world_of (Count Sample.env Sample.paged_query
                                  Sample.users (Sample.paged 10)))
                     eq_refl eq_refl eq_refl)).
    reflexivity.
  - eapply (proj1 (proj2 (C10_paginateModel_divides_unguarded Sample.env
                     Sample.paged_query "Users" [Sample.user; Sample.user; Sample.user]
                     (Sample.paged 0) Sample.p1
                     (mkPaginator 0 0 0 0) 23
                     (world_of (Count Sample.env Sample.paged_query
                                  Sample.users (Sample.paged 0)))
                     eq_refl eq_refl eq_refl)
                     eq_refl)).
Defined.

(** The division also goes through for a negative page size. *)
Remark paginateModel_negative_PerPage (E : Env) (q : Query.t)
  (typ : string) (elems : list Model) (w : World) (p : loc) (pg : Paginator)
  (ct : Z) (w1 : World) :
  Query.Paginator q = Some p ->
  paginators w !! p = Some pg ->
  Count E q (MSlice typ elems) w = Ok (ct, None) w1 ->
  PerPage pg < 0 ->
  exists w', paginateModel E q (MSlice typ elems) w = Ok (q, None) w'.
Proof.
  intros Hp Hpg Hct Hpp.
  rewrite (paginateModel_attached E q typ elems w p pg ct w1 Hp Hpg Hct).
  unfold GoInt.quo, GoInt.rem.
  replace (PerPage pg =? 0) with false by (symmetry; apply Z.eqb_neq; lia).
  eexists. reflexivity.
Qed.

(** * Further properties of the code *)

(** ** Identifiers given to [Find] *)

Lemma digits_ge (s : string) :
  forall acc n, 0 <= acc -> strconv.digits acc s = Some n -> acc <= n.
Proof.
  induction s as [|c s IH]; intros acc n Hacc; cbn.
  - intros [= <-]. lia.
  - unfold strconv.digit.
    destruct (strings.byte_in 48 57 c) eqn:Hd; [|discriminate].
    unfold strings.byte_in in Hd. apply andb_prop in Hd as [Hlo _].
    apply Nat.leb_le in Hlo.
    intros H. apply IH in H; lia.
Qed.

Lemma Atoi_in_range (s : string) (n : Z) :
  strconv.Atoi s = Some n -> GoInt.in_range n.
Proof.
  unfold strconv.Atoi, GoInt.in_range.
  match goal with
  | |- context [let '(_, _) := ?x in _] => destruct x as [neg body]
  end.
  destruct body as [|c body]; [discriminate|].
  destruct (strconv.digits 0 (String c body)) as [m|]; [|discriminate].
  destruct (_ && _) eqn:Hr; [|discriminate].
  intros [= <-]. apply andb_prop in Hr as [H1 H2].
  apply Z.leb_le in H1, H2. lia.
Qed.

Lemma Atoi_signed (c : ascii) (d : string) (n : Z) :
  d <> "" -> strconv.digits 0 d = Some n -> n <= GoInt.max_int ->
  (strings.byte_is 45 c = true -> strconv.Atoi (String c d) = Some (- n))
  /\ (strings.byte_is 45 c = false -> strings.byte_is 43 c = true ->
      strconv.Atoi (String c d) = Some n).
Proof.
  intros Hd Hn Hmax.
  pose proof (digits_ge d 0 n (Z.le_refl 0) Hn) as H0.
  unfold GoInt.max_int in Hmax.
  split.
  - intros Hc. unfold strconv.Atoi. rewrite Hc.
    destruct d as [|x d]; [contradiction|]. rewrite Hn.
    replace ((GoInt.min_int <=? - n) && (- n <=? GoInt.max_int)) with true;
      [reflexivity|].
    symmetry. apply andb_true_intro.
    unfold GoInt.min_int, GoInt.max_int. split; apply Z.leb_le; lia.
  - intros Hc Hp. unfold strconv.Atoi. rewrite Hc, Hp.
    destruct d as [|x d]; [contradiction|]. rewrite Hn.
    replace ((GoInt.min_int <=? n) && (n <=? GoInt.max_int)) with true;
      [reflexivity|].
    symmetry. apply andb_true_intro.
    unfold GoInt.min_int, GoInt.max_int. split; apply Z.leb_le; lia.
Qed.

(** X1. Whatever the identifier, [Find] is [First] on the query with one
    more condition, the model's id condition bound to one argument: the
    text form of a UUID; for a string, the string itself or the 64-bit
    integer it spells (and then the string does not start with ['0'],
    unless it is ["0"]); any other identifier as it was given. *)
Theorem Find_lookup_value (E : Env) (q : Query.t) (model : Model)
  (id : Value) :
  exists v,
    Find E q model id = First E (Where (whereID E model) [v] q) model
    /\ match id with
       | VUUID u => v = VString (UUID_String E u)
       | VString t =>
           v = VString t
           \/ exists n,
                v = VInt n /\ strconv.Atoi t = Some n /\ GoInt.in_range n
                /\ (GoString.head t <> Some "0"%char \/ t = "0")
       | _ => v = id
       end.
Proof.
  destruct id as [n | t | u | r]; cbn [Find].
  - eexists. split; reflexivity.
  - destruct (0 <? GoString.len t) eqn:Hl;
      [|eexists; split; [reflexivity | now left]].
    destruct (GoString.head t) as [c|] eqn:Hh.
    + destruct (Ascii.eqb_spec c "0") as [-> | Hc]; cbn [negb orb].
      * destruct (GoString.len t =? 1) eqn:H1;
          [|eexists; split; [reflexivity | now left]].
        destruct (strconv.Atoi t) as [n|] eqn:Ha;
          [|eexists; split; [reflexivity | now left]].
        eexists. split; [reflexivity|]. right. exists n.
        split; [reflexivity|]. split; [reflexivity|].
        split; [exact (Atoi_in_range _ _ Ha)|]. right.
        destruct t as [|x t]; [discriminate|]. injection Hh as ->.
        apply Z.eqb_eq in H1. unfold GoString.len in H1. cbn in H1.
        destruct t; [reflexivity | cbn in H1; lia].
      * destruct (strconv.Atoi t) as [n|] eqn:Ha;
          [|eexists; split; [reflexivity | now left]].
        eexists. split; [reflexivity|]. right. exists n.
        split; [reflexivity|]. split; [reflexivity|].
        split; [exact (Atoi_in_range _ _ Ha)|]. left. congruence.
    + destruct t; discriminate.
  - eexists. split; reflexivity.
  - eexists. split; reflexivity.
Qed.

(** X2. The guard against leading zeros looks at the first byte only: a
    sign followed by decimal digits whose value fits is looked up as an
    integer, whether or not the digits start with ['0'].  [Find] on
    ["-007"] looks up the integer [-7], and on ["+007"] the integer [7]. *)
Theorem Find_signed_numeral (E : Env) (q : Query.t) (model : Model)
  (d : string) (n : Z) :
  d <> "" -> strconv.digits 0 d = Some n -> n <= GoInt.max_int ->
  Find E q model (VString (String "-" d))
    = First E (Where (whereID E model) [VInt (- n)] q) model
  /\ Find E q model (VString (String "+" d))
     = First E (Where (whereID E model) [VInt n] q) model.
Proof.
  intros Hd Hn Hmax.
  assert (Hl : forall c, (0 <? GoString.len (String c d)) = true).
  { intros c. unfold GoString.len. cbn [String.length]. apply Z.ltb_lt. lia. }
  split.
  - cbn [Find]. rewrite Hl. cbn [GoString.head].
    replace (Ascii.eqb "-" "0") with false by reflexivity. cbn [negb orb].
    rewrite (proj1 (Atoi_signed "-" d n Hd Hn Hmax) eq_refl). reflexivity.
  - cbn [Find]. rewrite Hl. cbn [GoString.head].
    replace (Ascii.eqb "+" "0") with false by reflexivity. cbn [negb orb].
    rewrite (proj2 (Atoi_signed "+" d n Hd Hn Hmax) eq_refl eq_refl).
    reflexivity.
Qed.

Lemma Find_signed_numeral_witness :
  Find Sample.env Sample.query Sample.user (VString "-007")
    = First Sample.env
        (Where (whereID Sample.env Sample.user) [VInt (- 7)] Sample.query)
        Sample.user
  /\ Find Sample.env Sample.query Sample.user (VString "+007")
     = First Sample.env
         (Where (whereID Sample.env Sample.user) [VInt 7] Sample.query)
         Sample.user.
Proof.
  refine (Find_signed_numeral Sample.env Sample.query Sample.user "007" 7
            _ _ _).
  - discriminate.
  - reflexivity.
  - unfold GoInt.max_int. lia.
Defined.

(** ** Blank and visible column names *)

Lemma asciiSpace_not_visible (c : ascii) :
  strings.asciiSpace c = true -> strings.byte_in 33 126 c = false.
Proof.
  unfold strings.asciiSpace, strings.byte_in, strings.byte_is.
  generalize (nat_of_ascii c). intros n H.
  apply orb_prop in H as [H | H].
  - apply andb_prop in H as [_ H]. apply Nat.leb_le in H.
    apply andb_false_intro1. apply Nat.leb_gt. lia.
  - apply Nat.eqb_eq in H. apply andb_false_intro1. apply Nat.leb_gt. lia.
Qed.

Lemma visible_not_high (c : ascii) (n : nat) :
  strings.byte_in 33 126 c = true -> (127 <= n)%nat ->
  strings.byte_is n c = false.
Proof.
  unfold strings.byte_in, strings.byte_is. intros H Hn.
  apply andb_prop in H as [_ H]. apply Nat.leb_le in H.
  apply Nat.eqb_neq. lia.
Qed.

Lemma visible_not_in_high (c : ascii) (lo hi : nat) :
  strings.byte_in 33 126 c = true -> (127 <= lo)%nat ->
  strings.byte_in lo hi c = false.
Proof.
  unfold strings.byte_in. intros H Hn.
  apply andb_prop in H as [_ H]. apply Nat.leb_le in H.
  apply andb_false_intro1. apply Nat.leb_gt. lia.
Qed.

Lemma space2_not_visible (a b : ascii) :
  strings.space2 a b = true ->
  strings.byte_in 33 126 a = false /\ strings.byte_in 33 126 b = false.
Proof.
  unfold strings.space2. intros H.
  split.
  - destruct (strings.byte_in 33 126 a) eqn:Ha; [|reflexivity].
    rewrite (visible_not_high a 194 Ha) in H by lia. discriminate.
  - destruct (strings.byte_in 33 126 b) eqn:Hb; [|reflexivity].
    rewrite (visible_not_high b 133 Hb), (visible_not_high b 160 Hb) in H
      by lia.
    now rewrite andb_false_r in H.
Qed.

Lemma space3_not_visible (a b c : ascii) :
  strings.space3 a b c = true ->
  strings.byte_in 33 126 a = false /\ strings.byte_in 33 126 b = false
  /\ strings.byte_in 33 126 c = false.
Proof.
  unfold strings.space3. intros H.
  split; [|split].
  - destruct (strings.byte_in 33 126 a) eqn:Ha; [|reflexivity].
    rewrite (visible_not_high a 225 Ha), (visible_not_high a 226 Ha),
      (visible_not_high a 227 Ha) in H by lia.
    discriminate.
  - destruct (strings.byte_in 33 126 b) eqn:Hb; [|reflexivity].
    rewrite (visible_not_high b 154 Hb), (visible_not_high b 128 Hb),
      (visible_not_high b 129 Hb) in H by lia.
    now rewrite !andb_false_r in H.
  - destruct (strings.byte_in 33 126 c) eqn:Hc; [|reflexivity].
    rewrite (visible_not_high c 128 Hc), (visible_not_high c 168 Hc),
      (visible_not_high c 169 Hc), (visible_not_high c 175 Hc),
      (visible_not_high c 159 Hc), (visible_not_in_high c 128 138 Hc)
      in H by lia.
    now rewrite !andb_false_r in H.
Qed.

(** Trimming never takes a visible byte away. *)
Lemma TrimLeft_visible (n : nat) :
  forall s, (String.length s <= n)%nat -> has_visible s = true ->
            has_visible (strings.TrimLeft s) = true.
Proof.
  induction n as [|n IH]; intros s Hn Hv.
  - destruct s; [discriminate | cbn in Hn; lia].
  - destruct s as [|a s1]; [discriminate|].
    cbn [strings.TrimLeft]. cbn [has_visible] in Hv. cbn in Hn.
    destruct (strings.asciiSpace a) eqn:Ha.
    { rewrite (asciiSpace_not_visible a Ha) in Hv. apply IH; [lia | exact Hv]. }
    destruct s1 as [|b s2]; [exact Hv|].
    destruct (strings.space2 a b) eqn:H2.
    { destruct (space2_not_visible a b H2) as [Va Vb].
      cbn [has_visible] in Hv. rewrite Va, Vb in Hv.
      apply IH; [cbn in Hn; lia | exact Hv]. }
    destruct s2 as [|c s3]; [exact Hv|].
    destruct (strings.space3 a b c) eqn:H3; [|exact Hv].
    destruct (space3_not_visible a b c H3) as (Va & Vb & Vc).
    cbn [has_visible] in Hv. rewrite Va, Vb, Vc in Hv.
    apply IH; [cbn in Hn; lia | exact Hv].
Qed.

Lemma TrimLeftRev_visible (n : nat) :
  forall s, (String.length s <= n)%nat -> has_visible s = true ->
            has_visible (strings.TrimLeftRev s) = true.
Proof.
  induction n as [|n IH]; intros s Hn Hv.
  - destruct s; [discriminate | cbn in Hn; lia].
  - destruct s as [|a s1]; [discriminate|].
    cbn [strings.TrimLeftRev]. cbn [has_visible] in Hv. cbn in Hn.
    destruct (strings.asciiSpace a) eqn:Ha.
    { rewrite (asciiSpace_not_visible a Ha) in Hv. apply IH; [lia | exact Hv]. }
    destruct s1 as [|b s2]; [exact Hv|].
    destruct (strings.space2 b a) eqn:H2.
    { destruct (space2_not_visible b a H2) as [Vb Va].
      cbn [has_visible] in Hv. rewrite Va, Vb in Hv.
      apply IH; [cbn in Hn; lia | exact Hv]. }
    destruct s2 as [|c s3]; [exact Hv|].
    destruct (strings.space3 c b a) eqn:H3; [|exact Hv].
    destruct (space3_not_visible c b a H3) as (Vc & Vb & Va).
    cbn [has_visible] in Hv. rewrite Va, Vb, Vc in Hv.
    apply IH; [cbn in Hn; lia | exact Hv].
Qed.

Lemma has_visible_rev_app (s1 : string) :
  forall s2,
    has_visible (String.rev_app s1 s2) = has_visible s1 || has_visible s2.
Proof.
  induction s1 as [|c s1 IH]; intros s2; cbn; [reflexivity|].
  rewrite IH. cbn. now destruct (strings.byte_in 33 126 c), (has_visible s1).
Qed.

Lemma has_visible_rev (s : string) :
  has_visible (String.rev s) = has_visible s.
Proof.
  unfold String.rev. rewrite has_visible_rev_app. cbn. apply orb_false_r.
Qed.

Lemma TrimSpace_visible (f : string) :
  has_visible f = true -> nonblank f = true.
Proof.
  intros Hv. unfold nonblank, strings.TrimSpace, strings.TrimRight.
  assert (H : has_visible
                (String.rev
                   (strings.TrimLeftRev (String.rev (strings.TrimLeft f))))
              = true).
  { rewrite has_visible_rev. eapply TrimLeftRev_visible; [reflexivity|].
    rewrite has_visible_rev. eapply TrimLeft_visible; [reflexivity | exact Hv]. }
  destruct (String.rev _); [discriminate | reflexivity].
Qed.

Lemma TrimLeft_blank (s : string) :
  all_ascii_space s = true -> strings.TrimLeft s = "".
Proof.
  induction s as [|a s IH]; [reflexivity|].
  cbn [all_ascii_space strings.TrimLeft].
  intros H. apply andb_prop in H as [Ha Hs]. rewrite Ha. auto.
Qed.

Lemma TrimSpace_all_space (f : string) :
  all_ascii_space f = true -> nonblank f = false.
Proof.
  intros H. unfold nonblank, strings.TrimSpace. now rewrite (TrimLeft_blank f H).
Qed.

Lemma filter_none {A : Type} (p : A -> bool) (l : list A) :
  Forall (fun x => p x = false) l -> List.filter p l = [].
Proof. induction 1 as [|x l Hx _ IH]; cbn; [reflexivity | now rewrite Hx]. Qed.

Lemma filter_all {A : Type} (p : A -> bool) (l : list A) :
  Forall (fun x => p x = true) l -> List.filter p l = l.
Proof.
  induction 1 as [|x l Hx _ IH]; cbn; [reflexivity | now rewrite Hx, IH].
Qed.

(** X3. [Select] with names that consist of ASCII white space only (tab,
    line feed, vertical tab, form feed, carriage return, space; the empty
    name too) leaves the query as it is; [Select] with names that each
    hold a visible ASCII character appends all of them, in order and
    byte for byte, white space around them included. *)
Theorem Select_blank_and_visible (fields : list string) (q : Query.t) :
  (Forall (fun f => all_ascii_space f = true) fields -> Select fields q = q)
  /\ (Forall (fun f => has_visible f = true) fields ->
      Query.addColumns (Select fields q) = Query.addColumns q ++ fields).
Proof.
  rewrite Select_addColumns. fold nonblank. split; intros H.
  - rewrite filter_none.
    + rewrite app_nil_r. now destruct q.
    + eapply Forall_impl; [exact H|]. intros f Hf. cbn beta.
      now apply TrimSpace_all_space.
  - rewrite filter_all; [reflexivity|].
    eapply Forall_impl; [exact H|]. intros f Hf. cbn beta.
    now apply TrimSpace_visible.
Qed.

Lemma Select_blank_and_visible_witness :
  Select [""; "   "; String (ascii_of_nat 9) (String (ascii_of_nat 10) "")]
    Sample.query = Sample.query
  /\ Query.addColumns (Select [" name "; "users.*"] Sample.query)
     = Query.addColumns Sample.query ++ [" name "; "users.*"].
Proof.
  split.
  - apply (proj1 (Select_blank_and_visible
                    [""; "   ";
                     String (ascii_of_nat 9) (String (ascii_of_nat 10) "")]
                    Sample.query)).
    repeat constructor.
  - apply (proj2 (Select_blank_and_visible [" name "; "users.*"] Sample.query)).
    repeat constructor.
Defined.

(** X4. Calls of [Select] chain: selecting [fields1] and then [fields2]
    is selecting [fields1 ++ fields2] at once.  The second call adds to
    the columns of the first; nothing is reset, and a name given twice is
    registered twice. *)
Theorem Select_chained (fields1 fields2 : list string) (q : Query.t) :
  Select fields2 (Select fields1 q) = Select (fields1 ++ fields2) q
  /\ Query.addColumns (Select fields2 (Select fields1 q))
     = Query.addColumns q
         ++ List.filter nonblank fields1 ++ List.filter nonblank fields2.
Proof.
  assert (H : Select fields2 (Select fields1 q) = Select (fields1 ++ fields2) q).
  { unfold Select. now rewrite fold_left_app. }
  split; [exact H|]. rewrite H, Select_addColumns. fold nonblank.
  cbn [Query.addColumns Query.with_addColumns].
  now rewrite List.filter_app.
Qed.

(** ** What the aggregate rewriting cuts *)

Lemma last_byte_app (a b : string) :
  b <> "" -> last_byte (a +:+ b) = last_byte b.
Proof.
  intros Hb. induction a as [|c a IH]; [reflexivity|].
  rewrite str_app_cons. cbn [last_byte]. rewrite IH.
  destruct (a +:+ b) eqn:E; [|reflexivity].
  destruct a; [|discriminate]. now rewrite str_app_nil_l in E.
Qed.

Lemma integer_last (d : string) :
  integer d -> exists c, last_byte d = Some c /\ strings.byte_in 48 57 c = true.
Proof.
  intros [Hne Hd]. induction d as [|c d IH]; [contradiction|].
  cbn in Hd. apply andb_prop in Hd as [Hc Hd].
  destruct d as [|c' d'].
  - exists c. now split.
  - destruct IH as (x & Hx & Hdx); [discriminate | exact Hd|].
    exists x. split; [exact Hx | exact Hdx].
Qed.

Lemma LimitClause_last (c : string) :
  LimitClause c ->
  exists x, last_byte c = Some x /\ strings.byte_in 48 57 x = true.
Proof.
  intros (kw & d & _ & Hd & ->).
  assert (Hne : d <> "") by now destruct Hd.
  rewrite !last_byte_app; [now apply integer_last | exact Hne |].
  destruct d; [contradiction | discriminate].
Qed.

Lemma LimitOffsetClause_last (c : string) :
  LimitOffsetClause c ->
  exists x, last_byte c = Some x /\ strings.byte_in 48 57 x = true.
Proof.
  intros (kw1 & d1 & kw2 & d2 & _ & _ & _ & Hd & ->).
  assert (Hne : d2 <> "") by now destruct Hd.
  assert (N : forall a, a +:+ d2 <> "").
  { intros a. destruct a; [now rewrite str_app_nil_l | discriminate]. }
  do 4 (rewrite last_byte_app; [|rewrite <- !str_app_assoc; apply N]).
  rewrite last_byte_app; [|apply N].
  rewrite last_byte_app; [now apply integer_last | exact Hne].
Qed.

(** X5. What the rewriting of [Exists] and [CountByField] returns is a
    front part of the statement it was given, and the part it cut off is
    a [LIMIT <int>] clause, a [LIMIT <int> OFFSET <int>] clause, or
    nothing: it never removes, inserts or changes anything else. *)
Theorem stripLimit_cuts_a_clause_or_nothing (s : string) :
  exists c,
    s = stripLimit s +:+ c
    /\ (c = "" \/ LimitClause c \/ LimitOffsetClause c).
Proof.
  unfold stripLimit, regexp.MatchString, regexp.FindString.
  destruct (regexp.find (regexp.expr rLimitOffset) s) as [m|] eqn:E1.
  - apply find_Some in E1 as (p & -> & HL). exists m.
    rewrite slice_to_app. split; [reflexivity|].
    right. right. now apply Lang_rLimitOffset.
  - destruct (regexp.find (regexp.expr rLimit) s) as [m|] eqn:E2.
    + apply find_Some in E2 as (p & -> & HL). exists m.
      rewrite slice_to_app. split; [reflexivity|].
      right. left. now apply Lang_rLimit.
    + exists "". split; [now rewrite str_app_nil_r | now left].
Qed.

(** X6. A statement whose last byte is not a decimal digit is left as it
    is: a LIMIT clause followed by anything at all (a semicolon, a blank,
    a line feed, a closing parenthesis) stays in the statement that is
    wrapped. *)
Theorem stripLimit_needs_final_digit (p : string) (c : ascii) :
  strings.byte_in 48 57 c = false ->
  stripLimit (p +:+ String c "") = p +:+ String c "".
Proof.
  intros Hc.
  assert (Hlast : last_byte (p +:+ String c "") = Some c)
    by (rewrite last_byte_app; [reflexivity | discriminate]).
  assert (Hno : forall P : string -> Prop,
             (forall m, P m -> exists x, last_byte m = Some x
                                         /\ strings.byte_in 48 57 x = true) ->
             forall p' m, p +:+ String c "" = p' +:+ m -> ~ P m).
  { intros P HP p' m E Hm. destruct (HP m Hm) as (x & Hx & Hdx).
    assert (m <> "") by (intros ->; discriminate).
    rewrite E, last_byte_app in Hlast by assumption. congruence. }
  unfold stripLimit, regexp.MatchString.
  rewrite (find_None (regexp.expr rLimitOffset)),
          (find_None (regexp.expr rLimit)); [reflexivity | |].
  - intros p' m E HL. apply Lang_rLimit in HL.
    exact (Hno LimitClause LimitClause_last p' m E HL).
  - intros p' m E HL. apply Lang_rLimitOffset in HL.
    exact (Hno LimitOffsetClause LimitOffsetClause_last p' m E HL).
Qed.

Lemma stripLimit_needs_final_digit_witness :
  stripLimit ("SELECT * FROM users LIMIT 5" +:+ ";")
  = "SELECT * FROM users LIMIT 5" +:+ ";".
Proof.
  apply (stripLimit_needs_final_digit "SELECT * FROM users LIMIT 5" ";").
  reflexivity.
Defined.

(** ** [All]: pagination and the errors of the fetch *)

Lemma SelectMany_Ok (E : Env) (q : Query.t) (m : Model) (w : World)
  (x : Connection.t) :
  conns w !! Query.Connection q = Some x ->
  SelectMany E q m w
  = Ok (Dialect_SelectMany E q m)
      (with_trace (trace w ++ [EvSelectMany q m]) w).
Proof.
  intros Hc. unfold SelectMany, bind, readConn, emit, ret. now rewrite Hc.
Qed.

Lemma SelectOne_Ok (E : Env) (q : Query.t) (m : Model) (w : World)
  (x : Connection.t) :
  conns w !! Query.Connection q = Some x ->
  SelectOne E q m w
  = Ok (Dialect_SelectOne E q m)
      (with_trace (trace w ++ [EvSelectOne q m]) w).
Proof.
  intros Hc. unfold SelectOne, bind, readConn, emit, ret. now rewrite Hc.
Qed.

(** X7. [All] on a query that is not in eager mode and has a paginator
    attached (page size not zero), when the SELECT and the count succeed:
    three calls are made and no more, in this order: the SELECT, the
    count, the post-fetch hook.  The paginator then holds the count and
    the length of the slice, also when the hook fails; the hook's error,
    if any, comes back wrapped; no connection changes. *)
Theorem All_with_paginator (E : Env) (q : Query.t) (typ : string)
  (elems : list Model) (w : World) (x : Connection.t) (p : loc)
  (pg : Paginator) (ct : Z) (w2 : World) :
  let models := MSlice typ elems in
  Query.eager q = false ->
  Query.Paginator q = Some p ->
  conns w !! Query.Connection q = Some x ->
  paginators w !! p = Some pg ->
  PerPage pg <> 0 ->
  Dialect_SelectMany E q models = None ->
  Count E q models (with_trace (trace w ++ [EvSelectMany q models]) w)
    = Ok (ct, None) w2 ->
  exists sql args tp w',
    All E q models w = Ok (q, option_map unable (afterFind E models)) w'
    /\ trace w'
       = trace w ++ [EvSelectMany q models; EvGet sql args; EvAfterFind models]
    /\ paginators w'
       = <[p := mkPaginator (PerPage pg) ct (Z.of_nat (length elems)) tp]>
           (paginators w)
    /\ conns w' = conns w.
Proof.
  intros models He Hp Hc Hpg Hpp Hsel Hct.
  destruct (CountByField_inv _ _ _ _ _ _ _ Hct)
    as (Hc2 & Hp2 & sql & args & Ht2).
  cbn [conns paginators trace with_trace] in Hc2, Hp2, Ht2.
  unfold All, All_, All_fetch, timeFunc.
  rewrite (bind_Ok _ _ _ (q, afterFind E models)
             (with_trace (trace w2 ++ [EvAfterFind models])
                (with_paginators
                   (<[p := mkPaginator (PerPage pg) ct
                             (Z.of_nat (length elems))
                             (if 0 <? Z.rem ct (PerPage pg)
                              then GoInt.add
                                     (GoInt.wrap (Z.quot ct (PerPage pg))) 1
                              else GoInt.wrap (Z.quot ct (PerPage pg)))]>
                      (paginators w)) w2))).
  - do 4 eexists.
    split.
    { unfold finish. rewrite He.
      destruct (afterFind E models); reflexivity. }
    cbn [trace paginators conns with_trace with_paginators].
    split; [rewrite Ht2, <- !app_assoc; reflexivity|].
    split; [reflexivity | exact Hc2].
  - rewrite (bind_Ok _ _ _ _ _ (SelectMany_Ok E q models w x Hc)).
    rewrite Hsel.
    pose proof (paginateModel_attached E q typ elems
                  (with_trace (trace w ++ [EvSelectMany q models]) w)
                  p pg ct w2 Hp Hpg Hct) as Hpm.
    cbv zeta in Hpm. unfold GoInt.quo, GoInt.rem in Hpm.
    replace (PerPage pg =? 0) with false in Hpm
      by (symmetry; now apply Z.eqb_neq).
    fold models in Hpm. rewrite (bind_Ok _ _ _ _ _ Hpm).
    unfold runAfterFind, bind, emit, ret. reflexivity.
Qed.

Lemma All_with_paginator_witness :
  exists sql args tp w',
    All Sample.env Sample.paged_query Sample.users (Sample.paged 10)
    = Ok (Sample.paged_query,
          option_map unable (afterFind Sample.env Sample.users)) w'
    /\ trace w'
       = trace (Sample.paged 10)
           ++ [EvSelectMany Sample.paged_query Sample.users; EvGet sql args;
               EvAfterFind Sample.users]
    /\ paginators w'
       = <[Sample.p1 := mkPaginator 10 23 3 tp]> (paginators (Sample.paged 10))
    /\ conns w' = conns (Sample.paged 10).
Proof.
  refine (All_with_paginator Sample.env Sample.paged_query "Users"
            [Sample.user; Sample.user; Sample.user] (Sample.paged 10)
            (Connection.mk false) Sample.p1 (mkPaginator 10 0 0 0) 23
            (world_of (Count Sample.env Sample.paged_query Sample.users
                         (with_trace
                            (trace (Sample.paged 10)
                               ++ [EvSelectMany Sample.paged_query Sample.users])
                            (Sample.paged 10))))
            eq_refl eq_refl eq_refl eq_refl _ eq_refl _).
  - discriminate.
  - vm_compute. reflexivity.
Defined.

(** X8. When the count of the pagination step fails, [All] returns that
    error wrapped as "unable to fetch records", with its cause kept: the
    paginator is not touched, the post-fetch hook does not run, and
    association resolution does not run either, so that in eager mode the
    eager flags stay set. *)
Theorem All_count_error (E : Env) (q : Query.t) (models : Model) (w : World)
  (x : Connection.t) (p : loc) (ct : Z) (e : error) (w2 : World) :
  Query.Paginator q = Some p ->
  conns w !! Query.Connection q = Some x ->
  Dialect_SelectMany E q models = None ->
  Count E q models (with_trace (trace w ++ [EvSelectMany q models]) w)
    = Ok (ct, Some e) w2 ->
  All E q models w = Ok (q, Some (unable e)) w2
  /\ Cause (unable e) = Cause e
  /\ paginators w2 = paginators w
  /\ conns w2 = conns w
  /\ exists sql args,
       trace w2 = trace w ++ [EvSelectMany q models; EvGet sql args].
Proof.
  intros Hp Hc Hsel Hct.
  destruct (CountByField_inv _ _ _ _ _ _ _ Hct)
    as (Hc2 & Hp2 & sql & args & Ht2).
  cbn [conns paginators trace with_trace] in Hc2, Hp2, Ht2.
  split; [|split; [reflexivity|split; [exact Hp2|split; [exact Hc2|]]]].
  - unfold All, All_, All_fetch, timeFunc.
    rewrite (bind_Ok _ _ _ (q, Some e) w2); [reflexivity|].
    rewrite (bind_Ok _ _ _ _ _ (SelectMany_Ok E q models w x Hc)).
    rewrite Hsel. unfold paginateModel. rewrite Hp.
    rewrite (bind_Ok _ _ _ (q, Some e) w2); [reflexivity|].
    rewrite (bind_Ok _ _ _ _ _ Hct). reflexivity.
  - exists sql, args. rewrite Ht2, <- app_assoc. reflexivity.
Qed.

Lemma All_count_error_witness :
  exists w2,
    All Cases.env_count Cases.eager_paged_query Sample.users Sample.world
    = Ok (Cases.eager_paged_query, Some (unable (ErrOther "count failed"))) w2
    /\ Cause (unable (ErrOther "count failed")) = Cause (ErrOther "count failed")
    /\ paginators w2 = paginators Sample.world
    /\ conns w2 = conns Sample.world
    /\ exists sql args,
         trace w2
         = trace Sample.world
             ++ [EvSelectMany Cases.eager_paged_query Sample.users;
                 EvGet sql args].
Proof.
  eexists.
  refine (All_count_error Cases.env_count Cases.eager_paged_query Sample.users
            Sample.world (Connection.mk true) Sample.p1 0
            (ErrOther "count failed") _ eq_refl eq_refl eq_refl _).
  vm_compute. reflexivity.
Defined.

(** X9. When the SELECT succeeds and the post-fetch hook fails, [First]
    and [Last] return the hook's error as it is and [All] (on a query
    without paginator) returns it wrapped; the two calls are all that
    happens: association resolution does not run, eager mode or not, and
    no connection or paginator changes. *)
Theorem hook_error_ends_the_finder (E : Env) (q : Query.t) (model : Model)
  (w : World) (x : Connection.t) (e : error) :
  conns w !! Query.Connection q = Some x ->
  afterFind E model = Some e ->
  (Dialect_SelectOne E (Limit 1 q) model = None ->
   First E q model w
   = Ok (Limit 1 q, Some e)
       (with_trace
          (trace w ++ [EvSelectOne (Limit 1 q) model; EvAfterFind model]) w))
  /\ (let q1 := Order "created_at DESC, id DESC" (Limit 1 q) in
      Dialect_SelectOne E q1 model = None ->
      Last E q model w
      = Ok (q1, Some e)
          (with_trace (trace w ++ [EvSelectOne q1 model; EvAfterFind model]) w))
  /\ (Query.Paginator q = None ->
      Dialect_SelectMany E q model = None ->
      All E q model w
      = Ok (q, Some (unable e))
          (with_trace (trace w ++ [EvSelectMany q model; EvAfterFind model]) w)).
Proof.
  intros Hc Hook. split; [|split].
  - intros Hsel. unfold First, First_, First_fetch, timeFunc.
    rewrite (bind_Ok _ _ _ (Limit 1 q, Some e)
               (with_trace
                  (trace w ++ [EvSelectOne (Limit 1 q) model; EvAfterFind model])
                  w)); [reflexivity|].
    erewrite bind_Ok; [|apply (SelectOne_Ok E _ model w x); exact Hc].
    rewrite Hsel. unfold runAfterFind, bind, emit, ret. rewrite Hook.
    cbn [trace with_trace conns paginators]. now rewrite <- app_assoc.
  - intros q1 Hsel. unfold Last, Last_, Last_fetch, timeFunc.
    rewrite (bind_Ok _ _ _ (q1, Some e)
               (with_trace (trace w ++ [EvSelectOne q1 model; EvAfterFind model])
                  w)); [reflexivity|]. fold q1.
    erewrite bind_Ok; [|apply (SelectOne_Ok E _ model w x); exact Hc].
    rewrite Hsel. unfold runAfterFind, bind, emit, ret. rewrite Hook.
    cbn [trace with_trace conns paginators]. now rewrite <- app_assoc.
  - intros Hp Hsel. unfold All, All_, All_fetch, timeFunc.
    rewrite (bind_Ok _ _ _ (q, Some e)
               (with_trace (trace w ++ [EvSelectMany q model; EvAfterFind model])
                  w)); [reflexivity|].
    erewrite bind_Ok; [|apply (SelectMany_Ok E _ model w x); exact Hc].
    rewrite Hsel. unfold paginateModel. rewrite Hp.
    unfold runAfterFind, bind, emit, ret. rewrite Hook.
    cbn [trace with_trace conns paginators]. now rewrite <- app_assoc.
Qed.

Lemma hook_error_ends_the_finder_witness :
  First Cases.env_hook Sample.query Sample.user Sample.world
  = Ok (Limit 1 Sample.query, Some (ErrOther "hook failed"))
      (with_trace
         (trace Sample.world
            ++ [EvSelectOne (Limit 1 Sample.query) Sample.user;
                EvAfterFind Sample.user]) Sample.world)
  /\ All Cases.env_hook Sample.query Sample.users Sample.world
     = Ok (Sample.query, Some (unable (ErrOther "hook failed")))
         (with_trace
            (trace Sample.world
               ++ [EvSelectMany Sample.query Sample.users;
                   EvAfterFind Sample.users]) Sample.world).
Proof.
  split.
  - refine (proj1 (hook_error_ends_the_finder Cases.env_hook Sample.query
                     Sample.user Sample.world (Connection.mk true)
                     (ErrOther "hook failed") eq_refl eq_refl) eq_refl).
  - refine (proj2 (proj2 (hook_error_ends_the_finder Cases.env_hook
                            Sample.query Sample.users Sample.world
                            (Connection.mk true) (ErrOther "hook failed")
                            eq_refl eq_refl)) eq_refl eq_refl).
Defined.

(** ** The loops of the resolver *)

(** X10. For a slice, resolution goes through the elements in order:
    resolving [l1 ++ l2] is resolving [l1] and then, only if that left no
    error, resolving [l2] with the query and in the world that [l1] left.
    The first element that fails ends the loop; the elements after it are
    not visited. *)
Theorem eagerAssociations_slice_app (E : Env) (typ : string)
  (l1 l2 : list Model) (q : Query.t) (w : World) :
  eagerAssociations E (MSlice typ (l1 ++ l2)) q w
  = (r <- eagerAssociations E (MSlice typ l1) q ;;
     match snd r with
     | Some _ => ret r
     | None => eagerAssociations E (MSlice typ l2) (fst r)
     end) w.
Proof.
  cbn [eagerAssociations]. revert q w.
  induction l1 as [|v l1 IH]; intros q w.
  - reflexivity.
  - cbn [app elements]. unfold bind in IH |- *.
    destruct (eagerAssociations E v q w) as [[q1 [e|]] w1 | p w1].
    + reflexivity.
    + apply IH.
    + reflexivity.
Qed.

(** X11. The resolver keeps one error variable across the iterations of
    its loop over the associations.  An error left in it that is not fatal
    (none, or one caused by [sql.ErrNoRows]) has no effect on what
    follows: the loop runs as it does with no error pending.  So a
    tolerated missing row of one association neither fails nor skips any
    association after it, also one of a kind that starts no fetch. *)
Theorem each_pending_error_has_no_effect (E : Env)
  (self : Model -> Query.t -> M (Query.t * option error))
  (FieldByName : string -> Model) (q : Query.t) (l : list Association)
  (err0 : option error) (w : World) :
  fatal err0 = false ->
  each E self FieldByName q l err0 w = each E self FieldByName q l None w.
Proof.
  revert err0 w. induction l as [|a l IH]; intros err0 w H0; [reflexivity|].
  cbn [each]. destruct (Skipped a); [now apply IH|].
  unfold bind at 1. symmetry. unfold bind at 1. symmetry.
  destruct (subQuery E (Query.Connection q) a w) as [query w1 | p w1];
    [|reflexivity].
  unfold fetch. destruct (AKind a).
  - reflexivity.
  - reflexivity.
  - reflexivity.
  - unfold bind, ret. cbn [fatal]. rewrite H0.
    destruct (InnerAssociations a) as [|inner il].
    + cbn [inners]. unfold ret. now apply IH.
    + reflexivity.
Qed.

Lemma each_pending_error_has_no_effect_witness :
  each Sample.env (eagerAssociations Sample.env) (fun _ => Sample.books)
    Sample.paged_query [Cases.hasTags; Sample.hasBooks] (Some ErrNoRows)
    (Sample.paged 10)
  = each Sample.env (eagerAssociations Sample.env) (fun _ => Sample.books)
      Sample.paged_query [Cases.hasTags; Sample.hasBooks] None
      (Sample.paged 10).
Proof.
  apply (each_pending_error_has_no_effect Sample.env
           (eagerAssociations Sample.env) (fun _ => Sample.books)
           Sample.paged_query [Cases.hasTags; Sample.hasBooks]
           (Some ErrNoRows) (Sample.paged 10)).
  reflexivity.
Defined.

Lemma fetch_many (E : Env) self (query : Query.t) (a : Association)
  (err0 : option error) (w : World) (x : Connection.t) :
  AKind a = Slice \/ AKind a = Array ->
  Query.eager query = false -> Query.Paginator query = None ->
  conns w !! Query.Connection query = Some x ->
  fetch E self query a err0 w
  = All_ E (self (Interface a)) query (Interface a) w.
Proof.
  intros Hk He Hp Hc. unfold fetch, bind.
  destruct Hk as [-> | ->];
    rewrite (All_not_eager E _ _ _ _ x He Hp Hc);
    destruct (Dialect_SelectMany E query (Interface a)); reflexivity.
Qed.

(** X12. An association of slice or array kind is fetched through [All],
    which wraps an error of the SELECT as "unable to fetch records".  The
    resolver's test looks through the wrap: an error caused by
    [sql.ErrNoRows] is tolerated, and the loop goes on with the inner
    associations and the associations after it; an error with any other
    cause ends the loop, and it is the wrapped error that is returned. *)
Theorem each_looks_through_the_wrap (E : Env) (FieldByName : string -> Model)
  (q : Query.t) (a : Association) (l : list Association)
  (err0 : option error) (w : World) (query : Query.t) (e : error) :
  Skipped a = false ->
  AKind a = Slice \/ AKind a = Array ->
  subQuery E (Query.Connection q) a w = Ok query w ->
  Query.eager query = false -> Query.Paginator query = None ->
  is_Some (conns w !! Query.Connection query) ->
  Dialect_SelectMany E query (Interface a) = Some e ->
  let w1 := with_trace (trace w ++ [EvSelectMany query (Interface a)]) w in
  fetch E (eagerAssociations E) query a err0 w = Ok (query, Some (unable e)) w1
  /\ (Cause e = ErrNoRows ->
      each E (eagerAssociations E) FieldByName q (a :: l) err0 w
      = (r <- inners (eagerAssociations E) FieldByName query
                (InnerAssociations a) (Some (unable e)) ;;
         if fst r then ret (snd r)
         else each E (eagerAssociations E) FieldByName q l (snd r)) w1)
  /\ (Cause e <> ErrNoRows ->
      each E (eagerAssociations E) FieldByName q (a :: l) err0 w
      = Ok (Some (unable e)) w1).
Proof.
  intros Hs Hk Hq He Hp [x Hc] Hsel w1.
  assert (Hfetch : fetch E (eagerAssociations E) query a err0 w
                   = Ok (query, Some (unable e)) w1).
  { rewrite (fetch_many E _ _ _ _ _ x Hk He Hp Hc).
    rewrite (All_not_eager E _ _ _ _ x He Hp Hc). now rewrite Hsel. }
  split; [exact Hfetch|].
  split; intros Hcause.
  - cbn [each]. rewrite Hs. unfold bind at 1. rewrite Hq.
    unfold bind at 1. rewrite Hfetch. cbn [fatal].
    rewrite (not_ErrNoRows_false (unable e) Hcause). unfold bind.
    destruct (inners _ _ _ _ _ w1) as [[returned err] w2 | p w2]; reflexivity.
  - cbn [each]. rewrite Hs. unfold bind at 1. rewrite Hq.
    unfold bind at 1. rewrite Hfetch. cbn [fatal].
    now rewrite (not_ErrNoRows_true (unable e) Hcause).
Qed.

Lemma each_looks_through_the_wrap_witness :
  exists w1,
    each Cases.env_no_books (eagerAssociations Cases.env_no_books)
      (fun _ => Sample.books) Sample.paged_query
      [Sample.hasBooks; Sample.hasProfile] None (Sample.paged 10)
    = (r <- inners (eagerAssociations Cases.env_no_books)
              (fun _ => Sample.books)
              (result_of Sample.paged_query
                 (subQuery Cases.env_no_books Sample.c1 Sample.hasBooks
                    (Sample.paged 10)))
              (InnerAssociations Sample.hasBooks)
              (Some (unable ErrNoRows)) ;;
       if fst r then ret (snd r)
       else each Cases.env_no_books (eagerAssociations Cases.env_no_books)
              (fun _ => Sample.books) Sample.paged_query
              [Sample.hasProfile] (snd r)) w1.
Proof.
  eexists.
  refine (proj1 (proj2 (each_looks_through_the_wrap Cases.env_no_books
                          (fun _ => Sample.books) Sample.paged_query
                          Sample.hasBooks [Sample.hasProfile] None
                          (Sample.paged 10)
                          (result_of Sample.paged_query
                             (subQuery Cases.env_no_books Sample.c1
                                Sample.hasBooks (Sample.paged 10)))
                          ErrNoRows eq_refl (or_introl eq_refl) _ eq_refl
                          eq_refl _ _)) eq_refl).
  - vm_compute. reflexivity.
  - eexists. vm_compute. reflexivity.
  - vm_compute. reflexivity.
Defined.

(** ** The statements that resolution sends *)

Lemma statements_app (a b : list Event) :
  statements (a ++ b) = (statements a + statements b)%nat.
Proof. unfold statements. now rewrite List.filter_app, length_app. Qed.

Lemma list_sum_cons (x : nat) (l : list nat) :
  list_sum (x :: l) = (x + list_sum l)%nat.
Proof. reflexivity. Qed.

Lemma resolved_eagerFields (q : Query.t) (w w' : World) r :
  resolved q w r w' -> Query.eagerFields (fst r) = Query.eagerFields q.
Proof. intros ([-> | ->] & _); reflexivity. Qed.

Section Counting.
Variable E : Env.

(** The fetch of one association is one statement, or none for a kind
    that is not dispatched. *)
Lemma fetch_counted self (query : Query.t) (a : Association)
  (err0 : option error) (w : World) :
  Query.eager query = false -> Query.Paginator query = None ->
  conns w !! Query.Connection query = Some (Connection.mk false) ->
  exists query' err' w',
    fetch E self query a err0 w = Ok (query', err') w'
    /\ Query.Connection query' = Query.Connection query
    /\ extends w w'
    /\ statements (trace w')
       = (statements (trace w) + (if dispatched a then 1 else 0))%nat.
Proof.
  intros He Hp Hc. unfold fetch, bind, dispatched.
  destruct (AKind a).
  - rewrite (All_not_eager E _ _ _ _ _ He Hp Hc).
    destruct (Dialect_SelectMany E query (Interface a));
      do 3 eexists; (split; [reflexivity|]); (split; [reflexivity|]);
      (split; [apply extends_emit; repeat constructor; assumption|]);
      cbn [trace with_trace]; rewrite statements_app; reflexivity.
  - rewrite (All_not_eager E _ _ _ _ _ He Hp Hc).
    destruct (Dialect_SelectMany E query (Interface a));
      do 3 eexists; (split; [reflexivity|]); (split; [reflexivity|]);
      (split; [apply extends_emit; repeat constructor; assumption|]);
      cbn [trace with_trace]; rewrite statements_app; reflexivity.
  - cbn. rewrite (First_not_eager E _ _ _ _ _ He Hc).
    destruct (Dialect_SelectOne E (Limit 1 query) (Interface a));
      do 3 eexists; (split; [reflexivity|]); (split; [reflexivity|]);
      (split; [apply extends_emit; repeat constructor; assumption|]);
      cbn [trace with_trace]; rewrite statements_app; reflexivity.
  - cbn. do 3 eexists. split; [reflexivity|]. split; [reflexivity|].
    split; [apply extends_refl | lia].
Qed.

Lemma elements_counted (l : list Model) :
  Forall (counted E) l ->
  forall q w,
    is_Some (conns w !! Query.Connection q) ->
    exists r w',
      elements (eagerAssociations E) l q w = Ok r w'
      /\ resolved q w r w'
      /\ (statements (trace w')
          <= statements (trace w)
             + list_sum
                 (map (fun x => expected_statements x (Query.eagerFields q)) l))%nat
      /\ (snd r = None ->
          statements (trace w')
          = (statements (trace w)
             + list_sum
                 (map (fun x => expected_statements x (Query.eagerFields q))
                    l))%nat).
Proof.
  induction 1 as [|v l Hv _ IHl]; intros q w Hc; cbn [elements map];
    rewrite ?list_sum_cons; change (@list_sum []) with 0%nat.
  - do 2 eexists. split; [reflexivity|]. split; [apply resolved_refl|].
    split; [lia|]. intros _. lia.
  - unfold bind.
    destruct (Hv q w Hc) as ([q1 e1] & w1 & -> & Hres1 & Hle1 & Heq1).
    destruct e1 as [e|].
    + do 2 eexists. split; [reflexivity|]. split; [exact Hres1|].
      split; [lia|]. intros [=].
    + pose proof (resolved_eagerFields _ _ _ _ Hres1) as Hf. cbn [fst] in Hf.
      destruct (IHl q1 w1) as (r2 & w2 & -> & Hres2 & Hle2 & Heq2).
      { exact (resolved_allocated _ _ _ _ Hc Hres1). }
      rewrite Hf in Hle2, Heq2. specialize (Heq1 eq_refl).
      do 2 eexists. split; [reflexivity|].
      split; [exact (resolved_trans _ _ _ _ _ _ Hres1 Hres2)|].
      split; [lia|]. intros Hn. specialize (Heq2 Hn). lia.
Qed.

Lemma inners_counted (FieldByName : string -> Model) (query : Query.t) :
  (forall name, counted E (FieldByName name)) ->
  forall il err w,
    conns w !! Query.Connection query = Some (Connection.mk false) ->
    exists r w',
      inners (eagerAssociations E) FieldByName query il err w = Ok r w'
      /\ extends w w'
      /\ (fst r = true -> snd r <> None)
      /\ (statements (trace w')
          <= statements (trace w)
             + list_sum
                 (map (fun i => expected_statements (FieldByName (Name i))
                                  [Fields i]) il))%nat
      /\ (fst r = false ->
          statements (trace w')
          = (statements (trace w)
             + list_sum
                 (map (fun i => expected_statements (FieldByName (Name i))
                                  [Fields i]) il))%nat).
Proof.
  intros IH il. induction il as [|inner il IHil]; intros err w Hc;
    cbn [inners map]; rewrite ?list_sum_cons;
    change (@list_sum []) with 0%nat.
  - do 2 eexists. split; [reflexivity|]. split; [apply extends_refl|].
    split; [intros [=]|]. split; [lia|]. intros _. lia.
  - unfold bind. rewrite (Q_Ok _ _ _ Hc).
    match goal with
    | |- context [eagerAssociations E ?v ?iq w] =>
        destruct (IH (Name inner) iq w)
          as ([q' e'] & w1 & Hrun & Hres & Hle & Heq);
        [cbn; rewrite Hc; eauto|]
    end.
    rewrite Hrun. cbn [snd] in *.
    cbn [Query.eagerFields Query.with_eagerFields] in Hle, Heq.
    apply resolved_extends in Hres; [|exact Hc].
    destruct e' as [e|].
    + do 2 eexists. split; [reflexivity|]. split; [exact Hres|].
      split; [intros _; discriminate|]. split; [lia|]. intros [=].
    + destruct (IHil None w1) as (r & w2 & Hrun2 & Hext & Hret & Hle2 & Heq2).
      { destruct Hres as (-> & _). exact Hc. }
      rewrite Hrun2. specialize (Heq eq_refl).
      do 2 eexists. split; [reflexivity|].
      split; [eapply extends_trans; eassumption|].
      split; [exact Hret|]. split; [lia|].
      intros Hn. specialize (Heq2 Hn). lia.
Qed.

Lemma each_counted (FieldByName : string -> Model) (q : Query.t) :
  (forall name, counted E (FieldByName name)) ->
  forall l err0 w,
    conns w !! Query.Connection q = Some (Connection.mk false) ->
    exists err w',
      each E (eagerAssociations E) FieldByName q l err0 w = Ok err w'
      /\ extends w w'
      /\ (statements (trace w')
          <= statements (trace w)
             + list_sum
                 (map (fun a : Association =>
                         if Skipped a then 0%nat
                         else ((if dispatched a then 1 else 0)
                               + list_sum
                                   (map (fun i => expected_statements
                                                    (FieldByName (Name i))
                                                    [Fields i])
                                      (InnerAssociations a)))%nat) l))%nat
      /\ (err = None ->
          statements (trace w')
          = (statements (trace w)
             + list_sum
                 (map (fun a : Association =>
                         if Skipped a then 0%nat
                         else ((if dispatched a then 1 else 0)
                               + list_sum
                                   (map (fun i => expected_statements
                                                    (FieldByName (Name i))
                                                    [Fields i])
                                      (InnerAssociations a)))%nat) l))%nat).
Proof.
  intros IH l. induction l as [|a l IHl]; intros err0 w Hc;
    cbn [each map]; rewrite ?list_sum_cons;
    change (@list_sum []) with 0%nat.
  - do 2 eexists. split; [reflexivity|]. split; [apply extends_refl|].
    split; [lia|]. intros _. lia.
  - destruct (Skipped a).
    { destruct (IHl err0 w Hc) as (err & w' & Hrun & Hext & Hle & Heq).
      exists err, w'. split; [exact Hrun|]. split; [exact Hext|].
      split; [lia|]. intros Hn. specialize (Heq Hn). lia. }
    unfold bind at 1.
    destruct (subQuery_Ok E _ a _ _ Hc) as (query & -> & He & Hp & Hq).
    cbn in He. unfold bind at 1.
    destruct (fetch_counted (eagerAssociations E) query a err0 w He Hp)
      as (query' & err' & w1 & -> & Hq' & Hext1 & Hn1); [now rewrite Hq|].
    destruct (fatal err') eqn:Hf.
    { do 2 eexists. split; [reflexivity|]. split; [exact Hext1|].
      split; [lia|]. intros ->. discriminate. }
    assert (Hc1 : conns w1 !! Query.Connection q = Some (Connection.mk false)).
    { destruct Hext1 as (-> & _). exact Hc. }
    unfold bind at 1.
    destruct (inners_counted FieldByName query' IH (InnerAssociations a)
                err' w1)
      as ([returned err2] & w2 & -> & Hext2 & Hret & Hle2 & Heq2).
    { now rewrite Hq', Hq. }
    cbn [fst snd] in *.
    assert (Hext : extends w w2) by (eapply extends_trans; eassumption).
    destruct returned.
    { do 2 eexists. split; [reflexivity|]. split; [exact Hext|].
      split; [lia|]. intros ->. now destruct (Hret eq_refl). }
    specialize (Heq2 eq_refl).
    destruct (IHl err2 w2) as (r & w3 & -> & Hext3 & Hle3 & Heq3).
    { destruct Hext2 as (-> & _). exact Hc1. }
    do 2 eexists. split; [reflexivity|].
    split; [eapply extends_trans; eassumption|].
    split; [lia|]. intros Hn. specialize (Heq3 Hn). lia.
Qed.

Lemma eagerAssociations_counted (m : Model) : counted E m.
Proof.
  induction m as [typ elems IH | typ ForStruct FieldByName IHf _]
    using Model_induction.
  - intros q w Hc. cbn [eagerAssociations expected_statements].
    now apply elements_counted.
  - intros q w Hc. cbn [eagerAssociations expected_statements].
    destruct (ForStruct (Query.eagerFields q)) as [e | assos].
    { do 2 eexists. split; [reflexivity|]. split; [apply resolved_refl|].
      split; [lia|]. intros [=]. }
    unfold bind at 1, writeConn. cbn [Query.Connection Query.with_eager].
    destruct Hc as [x Hc]. rewrite Hc.
    set (w1 := with_conns _ w).
    destruct (each_counted FieldByName (Query.with_eager false q) IHf assos
                None w1)
      as (err & w2 & Hrun & (Hc2 & Hp2 & Ht2) & Hle & Heq).
    { cbn. apply lookup_insert_eq. }
    unfold bind. rewrite Hrun.
    do 2 eexists. split; [reflexivity|].
    split.
    { split; [now right|]. split; [right; exact Hc2|]. split; [exact Hp2|].
      exact Ht2. }
    cbn [snd]. split; [exact Hle | exact Heq].
Qed.

End Counting.

(** X13. Resolution of a model sends one SQL statement for every
    association that is not skipped and is of slice, array or struct
    kind, of the model itself and of the fields its inner associations
    name, and for a slice it does so for every element in turn (one round
    of statements per element).  The count [expected_statements] is never
    exceeded, and it is met exactly when resolution leaves no error.  The
    targets fetched on the way are not resolved themselves. *)
Theorem resolver_statement_count (E : Env) (m : Model) (q : Query.t)
  (w : World) :
  is_Some (conns w !! Query.Connection q) ->
  exists q' err w',
    eagerAssociations E m q w = Ok (q', err) w'
    /\ (statements (trace w')
        <= statements (trace w)
           + expected_statements m (Query.eagerFields q))%nat
    /\ (err = None ->
        statements (trace w')
        = (statements (trace w)
           + expected_statements m (Query.eagerFields q))%nat).
Proof.
  intros Hc.
  destruct (eagerAssociations_counted E m q w Hc)
    as ([q' err] & w' & Hrun & _ & Hle & Heq).
  exists q', err, w'. split; [exact Hrun|]. split; [exact Hle | exact Heq].
Qed.

Lemma resolver_statement_count_witness :
  exists q' err w',
    eagerAssociations Sample.env Sample.users Sample.query Sample.world
    = Ok (q', err) w'
    /\ (statements (trace w') <= statements (trace Sample.world) + 6)%nat
    /\ (err = None ->
        statements (trace w') = (statements (trace Sample.world) + 6)%nat).
Proof.
  apply (resolver_statement_count Sample.env Sample.users Sample.query
           Sample.world).
  eexists. reflexivity.
Defined.

(** X14. With the query's connection in place, resolution of any model
    returns: the engine's own code does not panic on the way.  It hands
    back the query it was given, changed at most in its eager flag; it
    touches no paginator; it writes no connection but the query's own;
    and it only adds to the record of calls. *)
Theorem eagerAssociations_frame (E : Env) (m : Model) (q : Query.t)
  (w : World) :
  is_Some (conns w !! Query.Connection q) ->
  exists q' err w',
    eagerAssociations E m q w = Ok (q', err) w'
    /\ Query.with_eager false q' = Query.with_eager false q
    /\ paginators w' = paginators w
    /\ (forall c, c <> Query.Connection q -> conns w' !! c = conns w !! c)
    /\ is_Some (conns w' !! Query.Connection q)
    /\ exists evs, trace w' = trace w ++ evs.
Proof.
  intros Hc.
  destruct (eagerAssociations_spec E m q w Hc)
    as ([q' err] & w' & Hrun & Hq & Hconns & Hp & evs & Ht & _).
  exists q', err, w'. split; [exact Hrun|]. cbn [fst] in Hq.
  split; [destruct Hq as [-> | ->]; reflexivity|].
  split; [exact Hp|].
  split; [|split].
  - intros c Hne. destruct Hconns as [-> | ->]; [reflexivity|].
    now rewrite lookup_insert_ne.
  - destruct Hconns as [-> | ->]; [exact Hc|].
    rewrite lookup_insert_eq. eauto.
  - eauto.
Qed.

Lemma eagerAssociations_frame_witness :
  exists q' err w',
    eagerAssociations Sample.env Sample.users Sample.query Sample.world
    = Ok (q', err) w'
    /\ Query.with_eager false q' = Query.with_eager false Sample.query
    /\ paginators w' = paginators Sample.world
    /\ (forall c, c <> Query.Connection Sample.query ->
                  conns w' !! c = conns Sample.world !! c)
    /\ is_Some (conns w' !! Query.Connection Sample.query)
    /\ exists evs, trace w' = trace Sample.world ++ evs.
Proof.
  apply (eagerAssociations_frame Sample.env Sample.users Sample.query
           Sample.world).
  eexists. reflexivity.
Defined.

(** X15. [Load] hands its field names to the association discovery.
    When discovery fails for a struct, [Load] returns that error as it
    is and sends nothing to the database; the connection's eager flag is
    cleared all the same, and nothing else changes. *)
Theorem Load_discovery_error (E : Env) (c : loc) (typ : string)
  (ForStruct : list string -> error + list Association)
  (FieldByName : string -> Model) (fields : list string) (w : World)
  (x : Connection.t) (e : error) :
  conns w !! c = Some x ->
  ForStruct fields = inl e ->
  Load E c (MStruct typ ForStruct FieldByName) fields w
  = Ok (Some e) (with_conns (<[c := Connection.mk false]> (conns w)) w).
Proof.
  intros Hc HF. unfold Load, bind. rewrite (Q_Ok c w x Hc).
  cbn [eagerAssociations Query.eagerFields Query.with_eagerFields].
  rewrite HF. unfold ret, disableEager, bind, writeConn.
  cbn [Query.Connection Query.with_eagerFields]. now rewrite Hc.
Qed.

Lemma Load_discovery_error_witness :
  Load Sample.env Sample.c1 Cases.opaque ["Profile"] Sample.world
  = Ok (Some (ErrOther "no such field"))
      (with_conns (<[Sample.c1 := Connection.mk false]> (conns Sample.world))
         Sample.world).
Proof.
  apply (Load_discovery_error Sample.env Sample.c1 "Opaque"
           (fun _ => inl (ErrOther "no such field")) (fun _ => Sample.books)
           ["Profile"] Sample.world (Connection.mk true)); reflexivity.
Defined.

(** ** The target a has-one association hands out *)

(** X16. On a field that is a struct value, [Interface] returns the
    address of the field itself and changes nothing.  On a field of
    pointer type, every call makes a new zero value, points the field at
    it and returns its address: what the field pointed at before is no
    longer the owner's, no other variable changes, and two calls in a row
    hand out two different targets, of which the field keeps the second. *)
Theorem Interface_target (h : hasOne.handles) (heap : list reflect.Var) :
  (forall name row,
      heap !! hasOne.ownedModel h = Some (reflect.StructVar name row) ->
      hasOne.Interface h heap = Some (hasOne.ownedModel h, heap))
  /\ (forall elem old,
         heap !! hasOne.ownedModel h = Some (reflect.PtrVar elem old) ->
         hasOne.ownedType h = reflect.PtrType elem ->
         exists a heap',
           hasOne.Interface h heap = Some (a, heap')
           /\ heap !! a = None
           /\ heap' !! a = Some (reflect.Zero elem)
           /\ heap' !! hasOne.ownedModel h
              = Some (reflect.PtrVar elem (Some a))
           /\ (forall i, i <> hasOne.ownedModel h -> i <> a ->
                         heap' !! i = heap !! i)
           /\ exists b heap'',
                hasOne.Interface h heap' = Some (b, heap'')
                /\ b <> a
                /\ heap'' !! hasOne.ownedModel h
                   = Some (reflect.PtrVar elem (Some b))
                /\ heap'' !! a = Some (reflect.Zero elem)).
Proof.
  split.
  - intros name row Hv. unfold hasOne.Interface. now rewrite Hv.
  - intros elem old Hv Ht.
    assert (Hlt : (hasOne.ownedModel h < length heap)%nat)
      by (apply lookup_lt_is_Some; eauto).
    assert (Hstep : forall hp o,
               hp !! hasOne.ownedModel h = Some (reflect.PtrVar elem o) ->
               hasOne.Interface h hp
               = Some (length hp,
                       <[hasOne.ownedModel h
                         := reflect.PtrVar elem (Some (length hp))]>
                         (hp ++ [reflect.Zero elem]))).
    { intros hp o Hhp. unfold hasOne.Interface. rewrite Hhp, Ht.
      cbn [reflect.TypeOf]. now rewrite Type_eqb_refl. }
    set (a := length heap).
    set (heap' := <[hasOne.ownedModel h := reflect.PtrVar elem (Some a)]>
                    (heap ++ [reflect.Zero elem])).
    assert (Ha : heap' !! a = Some (reflect.Zero elem)).
    { unfold heap'. rewrite list_lookup_insert_ne by (unfold a; lia).
      unfold a. rewrite lookup_app_r by lia.
      now rewrite Nat.sub_diag. }
    assert (Hh : heap' !! hasOne.ownedModel h
                 = Some (reflect.PtrVar elem (Some a))).
    { unfold heap'. apply list_lookup_insert_eq. rewrite length_app. lia. }
    exists a, heap'. split; [exact (Hstep heap old Hv)|].
    split; [apply lookup_ge_None; unfold a; lia|].
    split; [exact Ha|]. split; [exact Hh|].
    split.
    { intros i Hi Hia. unfold heap'.
      rewrite list_lookup_insert_ne; [|intros Heq; apply Hi; now symmetry].
      destruct (Nat.lt_ge_cases i (length heap)) as [Hlt' | Hge].
      - now rewrite lookup_app_l.
      - rewrite (proj2 (lookup_ge_None heap i)) by lia.
        apply lookup_ge_None. rewrite length_app. cbn. unfold a in Hia. lia. }
    assert (Hlen : length heap' = S (length heap)).
    { unfold heap'. rewrite length_insert, length_app. cbn. lia. }
    exists (length heap'),
      (<[hasOne.ownedModel h := reflect.PtrVar elem (Some (length heap'))]>
         (heap' ++ [reflect.Zero elem])).
    split; [exact (Hstep heap' (Some a) Hh)|].
    split; [unfold a; lia|].
    split.
    { apply list_lookup_insert_eq. rewrite length_app. lia. }
    rewrite list_lookup_insert_ne by (unfold a; lia).
    rewrite lookup_app_l by (unfold a; lia). exact Ha.
Qed.

Lemma Interface_target_witness :
  hasOne.Interface (hasOne.mkHandles 0 (reflect.StructType "Profile"))
    [reflect.StructVar "Profile" (Some "row 7")]
  = Some (0%nat, [reflect.StructVar "Profile" (Some "row 7")])
  /\ exists a heap',
       hasOne.Interface
         (hasOne.mkHandles 0 (reflect.PtrType (reflect.StructType "Profile")))
         [reflect.PtrVar (reflect.StructType "Profile") (Some 1%nat);
          reflect.StructVar "Profile" (Some "row 7")]
       = Some (a, heap')
       /\ heap' !! a = Some (reflect.StructVar "Profile" None)
       /\ heap' !! 0%nat
          = Some (reflect.PtrVar (reflect.StructType "Profile") (Some a)).
Proof.
  split.
  - apply (proj1 (Interface_target
                    (hasOne.mkHandles 0 (reflect.StructType "Profile"))
                    [reflect.StructVar "Profile" (Some "row 7")])
             "Profile" (Some "row 7")).
    reflexivity.
  - destruct (proj2 (Interface_target
                       (hasOne.mkHandles 0
                          (reflect.PtrType (reflect.StructType "Profile")))
                       [reflect.PtrVar (reflect.StructType "Profile")
                          (Some 1%nat);
                        reflect.StructVar "Profile" (Some "row 7")])
                (reflect.StructType "Profile") (Some 1%nat) eq_refl eq_refl)
      as (a & heap' & H1 & _ & H3 & H4 & _).
    exists a, heap'. split; [exact H1 | split; [exact H3 | exact H4]].
Defined.

(** ** The statements an eager finder sends *)

(** The common tail of a finder in eager mode sends what resolution
    sends. *)
Lemma finish_counted (E : Env) (model : Model) (q : Query.t) (w : World) :
  Query.eager q = true ->
  is_Some (conns w !! Query.Connection q) ->
  exists q' err w',
    finish (eagerAssociations E model) q w = Ok (q', err) w'
    /\ (statements (trace w')
        <= statements (trace w)
           + expected_statements model (Query.eagerFields q))%nat
    /\ (err = None ->
        statements (trace w')
        = (statements (trace w)
           + expected_statements model (Query.eagerFields q))%nat).
Proof.
  intros He Hc. unfold finish. rewrite He. unfold bind.
  destruct (eagerAssociations_counted E model q w Hc)
    as ([q1 err] & w1 & -> & Hres & Hle & Heq).
  pose proof (resolved_allocated _ _ _ _ Hc Hres) as [y Hy]. cbn [fst] in Hy.
  unfold disableEager, bind, writeConn, ret. rewrite Hy.
  do 3 eexists. split; [reflexivity|]. cbn [trace with_conns snd] in *.
  split; [exact Hle | exact Heq].
Qed.

(** X17. In eager mode, when the fetch and its hook succeed, [First]
    and [All] (on a query without paginator) send their own SELECT and
    then what resolution of the model sends: one statement more than
    [expected_statements], never more, and exactly that when no error
    comes back.  For [All] on a slice this is one statement for the slice
    and one round of association statements for every element. *)
Theorem eager_finder_statement_count (E : Env) (q : Query.t) (model : Model)
  (w : World) (x : Connection.t) :
  Query.eager q = true ->
  conns w !! Query.Connection q = Some x ->
  afterFind E model = None ->
  (Dialect_SelectOne E (Limit 1 q) model = None ->
   exists q' err w',
     First E q model w = Ok (q', err) w'
     /\ (statements (trace w')
         <= statements (trace w) + 1
            + expected_statements model (Query.eagerFields q))%nat
     /\ (err = None ->
         statements (trace w')
         = (statements (trace w) + 1
            + expected_statements model (Query.eagerFields q))%nat))
  /\ (Query.Paginator q = None ->
      Dialect_SelectMany E q model = None ->
      exists q' err w',
        All E q model w = Ok (q', err) w'
        /\ (statements (trace w')
            <= statements (trace w) + 1
               + expected_statements model (Query.eagerFields q))%nat
        /\ (err = None ->
            statements (trace w')
            = (statements (trace w) + 1
               + expected_statements model (Query.eagerFields q))%nat)).
Proof.
  intros He Hc Hook. split.
  - intros Hsel. unfold First, First_, First_fetch, timeFunc.
    rewrite (bind_Ok _ _ _ (Limit 1 q, None)
               (with_trace
                  (trace w ++ [EvSelectOne (Limit 1 q) model; EvAfterFind model])
                  w)).
    + destruct (finish_counted E model (Limit 1 q)
                  (with_trace
                     (trace w
                        ++ [EvSelectOne (Limit 1 q) model; EvAfterFind model])
                     w) He)
        as (q' & err & w' & Hrun & Hle & Heq); [cbn; rewrite Hc; eauto|].
      cbn [trace with_trace Query.eagerFields Limit Query.with_limitResults]
        in Hle, Heq.
      rewrite statements_app in Hle, Heq.
      change (statements [EvSelectOne (Limit 1 q) model; EvAfterFind model])
        with 1%nat in Hle, Heq.
      exists q', err, w'. split; [exact Hrun|]. split; [lia|].
      intros Hn. specialize (Heq Hn). lia.
    + erewrite bind_Ok; [|apply (SelectOne_Ok E _ model w x); exact Hc].
      rewrite Hsel. unfold runAfterFind, bind, emit, ret. rewrite Hook.
      cbn [trace with_trace conns paginators]. now rewrite <- app_assoc.
  - intros Hp Hsel. unfold All, All_, All_fetch, timeFunc.
    rewrite (bind_Ok _ _ _ (q, None)
               (with_trace (trace w ++ [EvSelectMany q model; EvAfterFind model])
                  w)).
    + destruct (finish_counted E model q
                  (with_trace
                     (trace w ++ [EvSelectMany q model; EvAfterFind model]) w)
                  He)
        as (q' & err & w' & Hrun & Hle & Heq); [cbn; rewrite Hc; eauto|].
      cbn [trace with_trace] in Hle, Heq.
      rewrite statements_app in Hle, Heq.
      change (statements [EvSelectMany q model; EvAfterFind model])
        with 1%nat in Hle, Heq.
      exists q', err, w'. split; [exact Hrun|]. split; [lia|].
      intros Hn. specialize (Heq Hn). lia.
    + erewrite bind_Ok; [|apply (SelectMany_Ok E _ model w x); exact Hc].
      rewrite Hsel. unfold paginateModel. rewrite Hp.
      unfold runAfterFind, bind, emit, ret. rewrite Hook.
      cbn [trace with_trace conns paginators]. now rewrite <- app_assoc.
Qed.

Lemma eager_finder_statement_count_witness :
  (exists q' err w',
      First Sample.env Sample.query Sample.user Sample.world = Ok (q', err) w'
      /\ (statements (trace w') <= statements (trace Sample.world) + 1 + 2)%nat
      /\ (err = None ->
          statements (trace w')
          = (statements (trace Sample.world) + 1 + 2)%nat))
  /\ (exists q' err w',
         All Sample.env Sample.query Sample.users Sample.world = Ok (q', err) w'
         /\ (statements (trace w')
             <= statements (trace Sample.world) + 1 + 6)%nat
         /\ (err = None ->
             statements (trace w')
             = (statements (trace Sample.world) + 1 + 6)%nat)).
Proof.
  split.
  - refine (proj1 (eager_finder_statement_count Sample.env Sample.query
                     Sample.user Sample.world (Connection.mk true)
                     eq_refl eq_refl eq_refl) eq_refl).
  - refine (proj2 (eager_finder_statement_count Sample.env Sample.query
                     Sample.users Sample.world (Connection.mk true)
                     eq_refl eq_refl eq_refl) eq_refl eq_refl).
Defined.
